(** * The GitHub top-100 synchronisation pipeline

    A shallow embedding of the data-synchronisation code of the repository
    (src/app/services/github_parser.py, src/app/repositories/crud.py,
    src/app/repositories/routers.py, src/update_data.py) and the properties
    its specification states about it, followed by the two endpoints and
    the scheduled run (src/app/repositories/schemas.py,
    src/app/db/connection.py) and by further properties of the code.

    Python values that come from the GitHub API are kept as JSON trees, so
    that the subscripts of the source can fail here the way they fail there;
    exceptions are values of [exn]; the database is an explicit store that
    every statement is threaded through. *)

From stdpp Require Import base option list strings pretty gmap sets
  sorting.
From Stdlib Require Import Ascii ZArith Lia.

Local Open Scope Z_scope.
Local Set Warnings "-register-all,-clear-no-such-hyp".

(** ** Python values and exceptions *)

(** A parsed JSON document. An object keeps its fields as an association
    list; a lookup finds the first binding of a key. Numbers are the
    integers and strings are byte strings: the code inspects nothing
    else. *)
Inductive json :=
| JNull
| JBool (b : bool)
| JNum (n : Z)
| JStr (s : string)
| JArr (items : list json)
| JObj (fields : list (string * json)).

(** The exceptions that occur in the modelled code. [ProviderFailure] is
    whatever the GitHub client raises for a failed request; [PostgresError]
    is asyncpg's error for a statement the server rejects and [DataError]
    its error for an argument it refuses to encode. *)
Inductive exn :=
| KeyError (key : string)
| TypeError
| AttributeError
| ValueError
| ProviderFailure (msg : string)
| PostgresError (msg : string)
| DataError
| RuntimeError (msg : string)
| HTTPException (status_code : Z) (detail : string).

Inductive res (A : Type) :=
| Ok (a : A)
| Raise (e : exn).
Arguments Ok {A} a.
Arguments Raise {A} e.

Global Instance res_ret : MRet res := λ A a, Ok a.
Global Instance res_bind : MBind res := λ A B f m,
  match m with Ok a => f a | Raise e => Raise e end.

Definition is_ok {A} (r : res A) : bool :=
  match r with Ok _ => true | Raise _ => false end.

Fixpoint assoc {V} (k : string) (l : list (string * V)) : option V :=
  match l with
  | [] => None
  | (k', v) :: l' => if String.eqb k' k then Some v else assoc k l'
  end.

(** [v[k]] for a string key [k]. *)
Definition getitem (v : json) (k : string) : res json :=
  match v with
  | JObj fields =>
      match assoc k fields with Some x => Ok x | None => Raise (KeyError k) end
  | _ => Raise TypeError
  end.

Definition is_str (k : string) (v : json) : bool :=
  match v with JStr s => String.eqb s k | _ => false end.

(** [k in v] for a string [k]. *)
Definition contains (k : string) (v : json) : res bool :=
  match v with
  | JObj fields => Ok (bool_decide (is_Some (assoc k fields)))
  | JArr items => Ok (existsb (is_str k) items)
  | JStr s => Ok (bool_decide (is_Some (String.index 0 k s)))
  | _ => Raise TypeError
  end.

(** Truth value of [v] in a condition. *)
Definition truthy (v : json) : bool :=
  match v with
  | JNull => false
  | JBool b => b
  | JNum n => negb (n =? 0)
  | JStr s => negb (String.eqb s "")
  | JArr items => match items with [] => false | _ => true end
  | JObj fields => match fields with [] => false | _ => true end
  end.

Fixpoint chars (s : string) : list json :=
  match s with
  | EmptyString => []
  | String a s' => JStr (String a EmptyString) :: chars s'
  end.

(** The elements [for x in v] visits. *)
Definition py_iter (v : json) : res (list json) :=
  match v with
  | JArr items => Ok items
  | JObj fields => Ok (map (λ kv, JStr kv.1) fields)
  | JStr s => Ok (chars s)
  | _ => Raise TypeError
  end.

(** [len(v)]. *)
Definition py_len (v : json) : res Z :=
  match v with
  | JArr items => Ok (Z.of_nat (length items))
  | JObj fields => Ok (Z.of_nat (length fields))
  | JStr s => Ok (Z.of_nat (String.length s))
  | _ => Raise TypeError
  end.

(** [s.replace('Z', '+00:00')]. *)
Fixpoint replace_Z (s : string) : string :=
  match s with
  | EmptyString => EmptyString
  | String a s' =>
      if Ascii.eqb a "Z"%char then "+00:00" +:+ replace_Z s'
      else String a (replace_Z s')
  end.

Definition str_replace_Z (v : json) : res string :=
  match v with
  | JStr s => Ok (replace_Z s)
  | _ => Raise AttributeError
  end.

(** The values a Python [set] can hold among those JSON gives: [None],
    integers and strings. [True] and [False] hash and compare as 1 and 0. *)
Inductive pykey :=
| KNone
| KInt (n : Z)
| KStr (s : string).

Global Instance pykey_eq_dec : EqDecision pykey.
Proof. solve_decision. Defined.

Global Instance pykey_countable : Countable pykey.
Proof.
  refine (inj_countable'
    (λ k, match k with
          | KNone => inl ()
          | KInt n => inr (inl n)
          | KStr s => inr (inr s)
          end)
    (λ x, match x with
          | inl _ => KNone
          | inr (inl n) => KInt n
          | inr (inr s) => KStr s
          end) _).
  by intros [].
Defined.

(** The key under which [v] enters a set; lists and dicts are unhashable. *)
Definition hash_key (v : json) : res pykey :=
  match v with
  | JNull => Ok KNone
  | JBool b => Ok (KInt (if b then 1 else 0))
  | JNum n => Ok (KInt n)
  | JStr s => Ok (KStr s)
  | _ => Raise TypeError
  end.

(** ** Insertion-ordered dictionaries

    [daily_stats] is a [dict] whose items are later visited in insertion
    order, so it is an association list with one binding per key:
    [dict_set] overwrites in place and appends a new key at the end. *)
Definition dict (V : Type) := list (string * V).

Definition dict_get {V} (k : string) (d : dict V) : option V := assoc k d.

Definition dict_has {V} (k : string) (d : dict V) : bool :=
  match dict_get k d with Some _ => true | None => false end.

Fixpoint dict_set {V} (k : string) (v : V) (d : dict V) : dict V :=
  match d with
  | [] => [(k, v)]
  | (k', v') :: d' =>
      if String.eqb k' k then (k', v) :: d' else (k', v') :: dict_set k v d'
  end.

(** ** The Aggregator (github_parser.py, [aggregate_commits_by_day]) *)

(** One day bucket: [{'commits': int, 'authors': set}]. *)
Record day_stats := DayStats {
  commits : Z;
  authors : gset pykey
}.

Section Aggregator.
(** [isoformat_day s] is [datetime.fromisoformat(s).date().isoformat()]
    of Python's standard library: the calendar day of the time stamp [s]
    in the offset [s] itself carries, or [None] where [fromisoformat]
    raises [ValueError]. *)
Variable isoformat_day : string → option string.

(** Lines 138-141: the day a commit record is counted under. *)
Definition commit_day (c : json) : res string :=
  commit ← getitem c "commit";
  author ← getitem commit "author";
  commit_date_str ← getitem author "date";
  s ← str_replace_Z commit_date_str;
  match isoformat_day s with
  | Some day_str => Ok day_str
  | None => Raise ValueError
  end.

(** Lines 143-145: the author a commit record is counted under. *)
Definition commit_author_name (c : json) : res json :=
  commit ← getitem c "commit";
  author ← getitem commit "author";
  has_name ← (if truthy author then contains "name" author else Ok false);
  if has_name : bool then getitem author "name" else Ok (JStr "Unknown").

(** One turn of the loop over [commits], lines 138-154. *)
Definition aggregate_step (daily_stats : dict day_stats) (c : json)
  : res (dict day_stats) :=
  day_str ← commit_day c;
  author_name ← commit_author_name c;
  let daily_stats :=
    if dict_has day_str daily_stats then daily_stats
    else dict_set day_str (DayStats 0 ∅) daily_stats in
  match dict_get day_str daily_stats with
  | None => Raise (KeyError day_str)
  | Some bucket =>
      let bucket := DayStats (commits bucket + 1) (authors bucket) in
      a ← hash_key author_name;
      let bucket := DayStats (commits bucket) (authors bucket ∪ {[a]}) in
      Ok (dict_set day_str bucket daily_stats)
  end.

Fixpoint aggregate_loop (commits : list json) (daily_stats : dict day_stats)
  : res (dict day_stats) :=
  match commits with
  | [] => Ok daily_stats
  | c :: rest =>
      daily_stats ← aggregate_step daily_stats c;
      aggregate_loop rest daily_stats
  end.

Definition aggregate_commits_by_day (commits : list json)
  : res (dict day_stats) :=
  aggregate_loop commits [].

(** A record the Aggregator accepts: an object whose [commit.author] is an
    object with a [date] string that parses, and whose [name], when
    present, is hashable. *)
Definition hashable (v : json) : bool := is_ok (hash_key v).

Definition well_formed_commit (c : json) : bool :=
  match getitem c "commit" with
  | Ok commit =>
      match getitem commit "author" with
      | Ok (JObj author) =>
          match assoc "date" author with
          | Some (JStr s) =>
              bool_decide (is_Some (isoformat_day (replace_Z s)))
              && match assoc "name" author with
                 | Some n => hashable n
                 | None => true
                 end
          | _ => false
          end
      | _ => false
      end
  | _ => false
  end.
End Aggregator.

(** [sum(day['commits'] for day in daily_stats.values())]. *)
Definition total_commits (daily_stats : dict day_stats) : Z :=
  foldr (λ kv acc, commits kv.2 + acc) 0 daily_stats.

(** A parser for the time stamps GitHub sends, [YYYY-MM-DDTHH:MM:SS] followed
    by an offset [+HH:MM] or [-HH:MM]: the day is the date as written. It
    stands in for [isoformat_day] in the examples. *)
Definition is_digit (a : ascii) : bool :=
  let n := Ascii.nat_of_ascii a in (48 <=? n)%nat && (n <=? 57)%nat.

Fixpoint matches (pattern s : string) : bool :=
  match pattern, s with
  | EmptyString, EmptyString => true
  | String p pattern', String a s' =>
      (if Ascii.eqb p "d"%char then is_digit a
       else if Ascii.eqb p "s"%char
            then Ascii.eqb a "+"%char || Ascii.eqb a "-"%char
       else Ascii.eqb p a)
      && matches pattern' s'
  | _, _ => false
  end.

Definition github_day (s : string) : option string :=
  if matches "dddd-dd-ddTdd:dd:ddsdd:dd" s then Some (String.substring 0 10 s)
  else None.

(** ** The store

    The two tables the pipeline writes, with the statements of the source
    as constructors of [stmt], each carrying its bound arguments. A value
    [None] is SQL's [NULL]. *)

Record date := Date {
  year : Z;
  month : Z;
  day : Z
}.

Global Instance date_eq_dec : EqDecision date.
Proof. solve_decision. Defined.

(** [d1 <= d2] on [datetime.date]. *)
Definition date_le (d1 d2 : date) : bool :=
  (year d1 <? year d2)
  || (year d1 =? year d2)
     && ((month d1 <? month d2)
         || (month d1 =? month d2) && (day d1 <=? day d2)).

Definition date_gt (d1 d2 : date) : bool := negb (date_le d1 d2).

Record top_row := TopRow {
  t_repo : string;
  t_owner : string;
  t_position_cur : Z;
  t_position_prev : option Z;
  t_stars : Z;
  t_watchers : Z;
  t_forks : Z;
  t_open_issues : Z;
  t_language : option string
}.

Record activity_row := ActivityRow {
  a_owner : string;
  a_repo : string;
  a_date : date;
  a_commits : Z;
  a_authors : list (option string)
}.

Inductive stmt :=
| DeleteTop100NotIn (names : list (option string))
| UpdateTop100 (repo : option string) (position_cur : Z)
    (stars watchers forks open_issues : option Z) (language : option string)
| InsertTop100 (repo owner : option string) (position_cur : Z)
    (position_prev stars watchers forks open_issues : option Z)
    (language : option string)
| SelectTop100
| UpdateActivity (owner repo : string) (d : date) (commits : Z)
    (authors : list (option string))
| InsertActivity (owner repo : string) (d : date) (commits : Z)
    (authors : list (option string))
| SelectActivity (owner repo : string) (since until : date).

Record store := Store {
  top100 : list top_row;
  activity : list activity_row;
  log : list stmt
}.

(** Modelled from the spec: the declarations of the two tables, which are
    not among the sources. Section 6 gives
    [top100(full_name UNIQUE, owner, position_current, position_previous?,
    stars, watchers, forks, open_issues, language?)] and
    [activity(owner, repo, date, commits, authors[])] with
    [UNIQUE (owner, repo, date)]; the columns without [?] reject [NULL]. *)
Definition top_key_free (name : string) (rows : list top_row) : bool :=
  forallb (λ r, negb (String.eqb (t_repo r) name)) rows.

Definition activity_matches (owner repo : string) (d : date)
    (r : activity_row) : bool :=
  String.eqb (a_owner r) owner && String.eqb (a_repo r) repo
  && bool_decide (a_date r = d).

Definition activity_key_free (owner repo : string) (d : date)
    (rows : list activity_row) : bool :=
  forallb (λ r, negb (activity_matches owner repo d r)) rows.

(** [x NOT IN (SELECT UNNEST(xs))] is true when [xs] holds no [NULL] and no
    element equal to [x]; a row is deleted only when it is true. *)
Definition sql_not_in (x : string) (xs : list (option string)) : bool :=
  forallb (λ y, match y with
                | Some s => negb (String.eqb x s)
                | None => false
                end) xs.

(** [repo = $1]: never true for a [NULL] argument. *)
Definition sql_eq (x : string) (arg : option string) : bool :=
  match arg with Some s => String.eqb x s | None => false end.

Fixpoint insert_by_date (r : activity_row) (rows : list activity_row)
  : list activity_row :=
  match rows with
  | [] => [r]
  | r' :: rows' =>
      if date_le (a_date r) (a_date r') then r :: rows
      else r' :: insert_by_date r rows'
  end.

(** [ORDER BY date]. *)
Definition order_by_date (rows : list activity_row) : list activity_row :=
  foldr insert_by_date [] rows.

(** [SET position_prev = position_cur, position_cur = $2, stars = $3, ...]:
    every right-hand side reads the row as it was. *)
Definition set_top_row (cur stars watchers forks open_issues : Z)
    (language : option string) (r : top_row) : top_row :=
  TopRow (t_repo r) (t_owner r) cur (Some (t_position_cur r)) stars watchers
         forks open_issues language.

(** What a statement does to the tables once the server runs it: the
    command status and rows it answers with, or the error of a violated
    constraint. *)
Definition run_stmt (s : stmt) (st : store)
  : res (string * list top_row * list activity_row) * store :=
  match s with
  | DeleteTop100NotIn names =>
      let gone := filter (λ r, sql_not_in (t_repo r) names) (top100 st) in
      let kept := filter (λ r, ¬ sql_not_in (t_repo r) names) (top100 st) in
      (Ok ("DELETE " +:+ pretty (length gone), [], []),
       Store kept (activity st) (log st))
  | UpdateTop100 repo cur stars watchers forks open_issues language =>
      let hit := filter (λ r, sql_eq (t_repo r) repo) (top100 st) in
      match hit, stars, watchers, forks, open_issues with
      | [], _, _, _, _ => (Ok ("UPDATE 0", [], []), st)
      | _ :: _, Some stars, Some watchers, Some forks, Some open_issues =>
          let rows :=
            map (λ r, if sql_eq (t_repo r) repo
                      then set_top_row cur stars watchers forks open_issues
                                       language r
                      else r) (top100 st) in
          (Ok ("UPDATE " +:+ pretty (length hit), [], []),
           Store rows (activity st) (log st))
      | _, _, _, _, _ =>
          (Raise (PostgresError "null value violates not-null constraint"), st)
      end
  | InsertTop100 (Some repo) (Some owner) cur prev (Some stars)
                 (Some watchers) (Some forks) (Some open_issues) language =>
      if top_key_free repo (top100 st) then
        (Ok ("INSERT 0 1", [], []),
         Store (top100 st
                ++ [TopRow repo owner cur prev stars watchers forks
                           open_issues language])
               (activity st) (log st))
      else (Raise (PostgresError "duplicate key violates unique constraint"),
            st)
  | InsertTop100 _ _ _ _ _ _ _ _ _ =>
      (Raise (PostgresError "null value violates not-null constraint"), st)
  | SelectTop100 => (Ok ("SELECT", top100 st, []), st)
  | UpdateActivity owner repo d commits authors =>
      let hit := filter (λ r, activity_matches owner repo d r) (activity st) in
      let rows :=
        map (λ r, if activity_matches owner repo d r
                  then ActivityRow (a_owner r) (a_repo r) (a_date r)
                         commits authors
                  else r) (activity st) in
      (Ok ("UPDATE " +:+ pretty (length hit), [], []),
       Store (top100 st) rows (log st))
  | InsertActivity owner repo d commits authors =>
      if activity_key_free owner repo d (activity st) then
        (Ok ("INSERT 0 1", [], []),
         Store (top100 st)
               (activity st ++ [ActivityRow owner repo d commits authors])
               (log st))
      else (Raise (PostgresError "duplicate key violates unique constraint"),
            st)
  | SelectActivity owner repo since until =>
      let rows :=
        filter (λ r, String.eqb (a_owner r) owner && String.eqb (a_repo r) repo
                     && date_le since (a_date r) && date_le (a_date r) until)
               (activity st) in
      (Ok ("SELECT", [], order_by_date rows), st)
  end.

(** ** Code that talks to the store: a state and exception monad *)

Definition M (A : Type) : Type := store → res A * store.

Global Instance M_ret : MRet M := λ A a st, (Ok a, st).
Global Instance M_bind : MBind M := λ A B f m st,
  match m st with
  | (Ok a, st') => f a st'
  | (Raise e, st') => (Raise e, st')
  end.

Definition raise {A} (e : exn) : M A := λ st, (Raise e, st).

Definition lift {A} (r : res A) : M A := λ st, (r, st).

(** [try: m  except asyncpg.PostgresError as e: handler(str(e))]. *)
Definition except_postgres {A} (m : M A) (handler : string → M A) : M A :=
  λ st,
    match m st with
    | (Raise (PostgresError msg), st') => handler msg st'
    | r => r
    end.

(** [for x in l: body(x)]. *)
Fixpoint for_each {A} (body : A → M ()) (l : list A) : M () :=
  match l with
  | [] => mret ()
  | x :: l' => body x ;; for_each body l'
  end.

(** How asyncpg encodes an argument for a [text] or an [integer] place:
    [Some None] is [NULL], and [None] says that the argument is of another
    type and is refused. *)
Definition as_text (v : json) : option (option string) :=
  match v with
  | JStr s => Some (Some s)
  | JNull => Some None
  | _ => None
  end.

Definition as_int (v : json) : option (option Z) :=
  match v with
  | JNum n => Some (Some n)
  | JNull => Some None
  | _ => None
  end.

Definition key_as_text (k : pykey) : option (option string) :=
  match k with
  | KStr s => Some (Some s)
  | KNone => Some None
  | KInt _ => None
  end.

(** The dict [fetch_top100_repos] builds for one repository; the values are
    the provider's, as they came. *)
Record repo_data := RepoData {
  rd_repo : json;
  rd_owner : json;
  rd_position_cur : Z;
  rd_position_prev : option Z;
  rd_stars : json;
  rd_watchers : json;
  rd_forks : json;
  rd_open_issues : json;
  rd_language : json
}.

(** What [fetch_commits] leaves behind besides its result: the pages it
    asked for, in order, and the lines it printed. *)
Record fetched := Fetched {
  f_commits : list json;
  f_pages : list Z;
  f_printed : list (string * string * exn)
}.

(** [RepoActivity] of schemas.py. *)
Record RepoActivity := mkRepoActivity {
  ra_date : date;
  ra_commits : Z;
  ra_authors : list string
}.

Definition per_page : Z := 100.

(** [before, after = s.split("/", 1)]. *)
Fixpoint split_once (s : string) : option (string * string) :=
  match s with
  | EmptyString => None
  | String a s' =>
      if Ascii.eqb a "/"%char then Some (EmptyString, s')
      else match split_once s' with
           | Some (before, after) => Some (String a before, after)
           | None => None
           end
  end.

Section Pipeline.
(** [fault n] says whether the server rejects the statement that is the
    [n]-th one sent to it (counting from 0). *)
Variable fault : nat → bool.

(** What asyncpg raises for an argument it refuses to encode. Whether the
    handlers [except asyncpg.PostgresError] of crud.py catch it is left to
    this value: they do when it is a [PostgresError]. *)
Variable encode_error : exn.

(** The calls into Python's [datetime]: [isoformat_day] as above, and
    [strptime_day s] for [datetime.strptime(s, "%Y-%m-%d").date()]. *)
Variable isoformat_day : string → option string.
Variable strptime_day : string → option date.

(** The provider: what [api.search.repos(q="stars:>1", sort="stars",
    order="desc", per_page=100)] answers, and what
    [api.repos.list_commits(owner, repo, since=, until=, per_page=100,
    page=)] answers. *)
Variable search_repos : res json.
Variable list_commits : string → string → string → string → Z → res json.

Definition sent (s : stmt) (st : store) : store :=
  Store (top100 st) (activity st) (log st ++ [s]).

(** [connection.execute] and [connection.fetch]. *)
Definition send (s : stmt)
  : M (string * list top_row * list activity_row) :=
  λ st,
    if fault (length (log st))
    then (Raise (PostgresError "statement failed"), sent s st)
    else run_stmt s (sent s st).

Definition execute (s : stmt) : M string :=
  r ← send s; mret r.1.1.

Definition encoded {A} (arg : option A) : M A :=
  match arg with
  | Some x => mret x
  | None => raise encode_error
  end.

(** *** crud.py *)

Definition upsert_top_100_repo (r : repo_data) : M () :=
  except_postgres
    (repo ← encoded (as_text (rd_repo r));
     stars ← encoded (as_int (rd_stars r));
     watchers ← encoded (as_int (rd_watchers r));
     forks ← encoded (as_int (rd_forks r));
     open_issues ← encoded (as_int (rd_open_issues r));
     language ← encoded (as_text (rd_language r));
     update_result ←
       execute (UpdateTop100 repo (rd_position_cur r) stars watchers forks
                             open_issues language);
     if String.eqb update_result "UPDATE 0" then
       owner ← encoded (as_text (rd_owner r));
       execute (InsertTop100 repo owner (rd_position_cur r)
                             (rd_position_prev r) stars watchers forks
                             open_issues language) ;;
       mret ()
     else mret ())
    (λ e, raise (RuntimeError
                   ("Database error in insert_or_update_top100: " +:+ e))).

Definition upsert_repo_activity (owner repo : string) (d : date)
    (commits : Z) (authors : list pykey) : M () :=
  except_postgres
    (authors ← encoded (mapM key_as_text authors);
     update_result ← execute (UpdateActivity owner repo d commits authors);
     if String.eqb update_result "UPDATE 0" then
       execute (InsertActivity owner repo d commits authors) ;;
       mret ()
     else mret ())
    (λ e, raise (RuntimeError
                   ("Database error in insert_or_update_activity: " +:+ e))).

(** Building a [RepoActivity] from a row: the schema wants every author to
    be a string. *)
Definition validate_activity (r : activity_row) : res RepoActivity :=
  match mapM id (a_authors r) with
  | Some authors => Ok (mkRepoActivity (a_date r) (a_commits r) authors)
  | None => Raise ValueError
  end.

Definition fetch_repo_activity (owner repo : string) (since until : date)
  : M (list RepoActivity) :=
  except_postgres
    (r ← send (SelectActivity owner repo since until);
     lift (mapM validate_activity r.2))
    (λ e, raise (RuntimeError ("Database error: " +:+ e))).

(** *** github_parser.py *)

(** Lines 44-54: the dict built for the item [repo] at rank [num]. *)
Definition repo_record (num : Z) (repo : json) : res repo_data :=
  full_name ← getitem repo "full_name";
  owner ← getitem repo "owner";
  login ← getitem owner "login";
  stars ← getitem repo "stargazers_count";
  watchers ← getitem repo "watchers_count";
  forks ← getitem repo "forks_count";
  open_issues ← getitem repo "open_issues_count";
  language ← getitem repo "language";
  Ok (RepoData full_name login num None stars watchers forks open_issues
               language).

(** [for num, repo in enumerate(items, start=num): repos.append(...)]. *)
Fixpoint repo_records (num : Z) (items : list json) : res (list repo_data) :=
  match items with
  | [] => Ok []
  | repo :: items' =>
      r ← repo_record num repo;
      rs ← repo_records (num + 1) items';
      Ok (r :: rs)
  end.

Definition fetch_top100_repos : res (list repo_data) :=
  result ← search_repos;
  has_items ← contains "items" result;
  if has_items : bool then
    items ← getitem result "items";
    items ← py_iter items;
    repo_records 1 items
  else Ok [].

(** The body of [update_top100_in_db] once the ranking is fetched. *)
Definition reconcile_top100 (repos : list repo_data) : M () :=
  keys ← lift (mapM (λ r, hash_key (rd_repo r)) repos);
  let new_repos : gset pykey := list_to_set keys in
  names ← encoded (mapM key_as_text (elements new_repos));
  execute (DeleteTop100NotIn names) ;;
  for_each upsert_top_100_repo repos.

Definition update_top100_in_db : M () :=
  repos ← lift fetch_top100_repos;
  reconcile_top100 repos.

(** The [while True] loop of [fetch_commits], with the pages it requests;
    [None] when [fuel] turns of the loop did not reach a [break]. *)
Fixpoint fetch_commits_loop (fuel : nat) (request : Z → res json)
    (page : Z) (commits : list json)
  : option (res (list json) * list Z) :=
  match fuel with
  | O => None
  | S fuel' =>
      match request page with
      | Raise e => Some (Raise e, [page])
      | Ok result =>
          if negb (truthy result) then Some (Ok commits, [page])
          else
            match py_iter result with
            | Raise e => Some (Raise e, [page])
            | Ok items =>
                let commits := commits ++ items in
                match py_len result with
                | Raise e => Some (Raise e, [page])
                | Ok n =>
                    if n <? per_page then Some (Ok commits, [page])
                    else
                      match fetch_commits_loop fuel' request (page + 1)
                                               commits with
                      | Some (r, pages) => Some (r, page :: pages)
                      | None => None
                      end
                end
            end
      end
  end.

Definition fetch_commits (fuel : nat) (owner repo since until : string)
  : option fetched :=
  match fetch_commits_loop fuel (list_commits owner repo since until) 1 []
  with
  | Some (Ok commits, pages) => Some (Fetched commits pages [])
  | Some (Raise e, pages) => Some (Fetched [] pages [(owner, repo, e)])
  | None => None
  end.

(** The loop of [update_activity_in_db] over [daily_stats.items()]. *)
Definition upsert_day (owner repo : string) (item : string * day_stats)
  : M () :=
  match strptime_day item.1 with
  | None => raise ValueError
  | Some date_obj =>
      let commits_count := commits item.2 in
      let authors_list := elements (authors item.2) in
      upsert_repo_activity owner repo date_obj commits_count authors_list
  end.

Definition update_activity_in_db (fuel : nat)
    (owner repo since until : string) (st : store)
  : option (res () * store) :=
  match fetch_commits fuel owner repo since until with
  | None => None
  | Some f =>
      Some ((daily_stats ← lift (aggregate_commits_by_day isoformat_day
                                    (f_commits f));
             for_each (upsert_day owner repo) daily_stats) st)
  end.

(** *** update_data.py *)

(** The loop of [refresh_data] over the rows of [top100]. *)
Fixpoint refresh_activity (fuel : nat) (since until : string)
    (records : list top_row) (st : store) : option (res () * store) :=
  match records with
  | [] => Some (Ok (), st)
  | record :: records' =>
      match split_once (t_repo record) with
      | None => Some (Raise ValueError, st)
      | Some (_, repo_name) =>
          match update_activity_in_db fuel (t_owner record) repo_name
                                      since until st with
          | Some (Ok _, st') =>
              refresh_activity fuel since until records' st'
          | r => r
          end
      end
  end.

(** [refresh_data]; [since] and [until] are the two midnights it derives
    from the clock. *)
Definition refresh_data (fuel : nat) (since until : string) (st : store)
  : option (res () * store) :=
  match (update_top100_in_db ;; send SelectTop100) st with
  | (Ok r, st') => refresh_activity fuel since until r.1.2 st'
  | (Raise e, st') => Some (Raise e, st')
  end.

(** *** routers.py *)

(** [str(e)], as far as the messages are modelled. *)
Definition exn_str (e : exn) : string :=
  match e with
  | KeyError k => "'" +:+ k +:+ "'"
  | ProviderFailure msg | PostgresError msg | RuntimeError msg => msg
  | HTTPException code detail => pretty code +:+ ": " +:+ detail
  | _ => ""
  end.

Definition get_repo_activity (owner repo : string) (since until : date)
  : M (list RepoActivity) :=
  if date_gt since until then
    raise (HTTPException 400 "`since` не может быть больше `until`")
  else
    λ st,
      match (data ← fetch_repo_activity owner repo since until;
             match data with
             | [] => raise (HTTPException 404
                              "No activity found for the given period")
             | _ => mret data
             end) st with
      | (Raise (RuntimeError msg), st') =>
          (Raise (HTTPException 500 msg), st')
      | (Raise e, st') =>
          (Raise (HTTPException 500 ("Ошибка сервера: " +:+ exn_str e)), st')
      | r => r
      end.
End Pipeline.

(** ** Vocabulary of the properties *)

(** Every bucket has counted a commit and holds an author. *)
Definition bucket_filled (item : string * day_stats) : Prop :=
  1 ≤ commits item.2 ∧ authors item.2 ≠ ∅.

(** The full names of the rows of [top100]. *)
Definition names_of (rows : list top_row) : list string := map t_repo rows.

(** The ranking lists the full name [name]. *)
Definition ranked (name : string) (repos : list repo_data) : Prop :=
  JStr name ∈ map rd_repo repos.

(** The row carries the rank and the metrics of the fetched record. *)
Definition row_of (r : repo_data) (row : top_row) : Prop :=
  rd_repo r = JStr (t_repo row)
  ∧ t_position_cur row = rd_position_cur r
  ∧ rd_stars r = JNum (t_stars row)
  ∧ rd_watchers r = JNum (t_watchers row)
  ∧ rd_forks r = JNum (t_forks row)
  ∧ rd_open_issues r = JNum (t_open_issues row)
  ∧ as_text (rd_language r) = Some (t_language row).

(** The statements [upsert_top_100_repo] sends. *)
Definition is_top100_upsert (s : stmt) : Prop :=
  match s with
  | UpdateTop100 _ _ _ _ _ _ _ | InsertTop100 _ _ _ _ _ _ _ _ _ => True
  | _ => False
  end.

(** A write to [activity] that carries a commit and an author. *)
Definition activity_write_filled (s : stmt) : Prop :=
  match s with
  | UpdateActivity _ _ _ commits authors
  | InsertActivity _ _ _ commits authors => 1 ≤ commits ∧ authors ≠ []
  | _ => False
  end.

(** An answer that makes [fetch_commits] go on to the next page: it is
    not empty, can be iterated, and has no fewer than [per_page] elements. *)
Definition full_page (r : res json) : Prop :=
  ∃ result items n,
    r = Ok result ∧ truthy result = true ∧ py_iter result = Ok items
    ∧ py_len result = Ok n ∧ per_page ≤ n.

(** Where a row of [top100] stands once the records [seen] of the ranking
    have been upserted over the table [kept] that the delete left: not yet
    touched, rewritten in place from a row of [kept], or inserted. *)
Definition settled (kept : list top_row) (seen : list repo_data)
    (row : top_row) : Prop :=
  (row ∈ kept ∧ ¬ ranked (t_repo row) seen)
  ∨ (∃ old r,
       old ∈ kept ∧ r ∈ seen ∧ t_repo old = t_repo row
       ∧ t_position_prev row = Some (t_position_cur old) ∧ row_of r row)
  ∨ (∃ r,
       r ∈ seen ∧ (t_repo row ∉ names_of kept)
       ∧ t_position_prev row = rd_position_prev r ∧ row_of r row).

(** The fields [fetch_top100_repos] reads in every item. *)
Definition required_keys : list string :=
  ["full_name"; "owner"; "stargazers_count"; "watchers_count"; "forks_count";
   "open_issues_count"; "language"].

(** The record's [commit.author] is an object without a [name]. *)
Definition lacks_author_name (c : json) : Prop :=
  ∃ commit author,
    getitem c "commit" = Ok commit
    ∧ getitem commit "author" = Ok (JObj author)
    ∧ assoc "name" author = None.

(** Whatever [m] does, it only adds statements that satisfy [P] to the
    log of the connection. *)
Definition sends_only {A} (P : stmt → Prop) (m : M A) : Prop :=
  ∀ st r st', m st = (r, st') →
    ∃ stmts, log st' = log st ++ stmts ∧ Forall P stmts.

(** ** Data of the examples *)

Definition no_fault : nat → bool := λ _, false.

Definition item (full_name login : string) (stars : Z) (language : json)
  : json :=
  JObj [("full_name", JStr full_name);
        ("owner", JObj [("login", JStr login)]);
        ("stargazers_count", JNum stars);
        ("watchers_count", JNum stars);
        ("forks_count", JNum 12);
        ("open_issues_count", JNum 3);
        ("language", language)].

Definition search_response (items : list json) : res json :=
  Ok (JObj [("total_count", JNum 1000); ("items", JArr items)]).

(** A ranking of two repositories over a table that holds one of them and
    a stale one. *)
Definition ranking_ab : res json :=
  search_response [item "a/x" "a" 90 JNull; item "b/y" "b" 80 (JStr "C")].

Definition table_ac : store :=
  Store [TopRow "a/x" "a" 7 (Some 3) 50 50 1 1 None;
         TopRow "c/z" "c" 2 None 60 60 1 1 (Some "Go")] [] [].

(** What the fetch makes of [ranking_ab], and the store after the
    reconciliation of [table_ac] with it. *)
Definition repos_ab : list repo_data :=
  [RepoData (JStr "a/x") (JStr "a") 1 None (JNum 90) (JNum 90) (JNum 12)
            (JNum 3) JNull;
   RepoData (JStr "b/y") (JStr "b") 2 None (JNum 80) (JNum 80) (JNum 12)
            (JNum 3) (JStr "C")].

Definition table_ab : store :=
  Store [TopRow "a/x" "a" 1 (Some 7) 90 90 12 3 None;
         TopRow "b/y" "b" 2 None 80 80 12 3 (Some "C")]
        []
        [DeleteTop100NotIn [Some "a/x"; Some "b/y"];
         UpdateTop100 (Some "a/x") 1 (Some 90) (Some 90) (Some 12) (Some 3)
                      None;
         UpdateTop100 (Some "b/y") 2 (Some 80) (Some 80) (Some 12) (Some 3)
                      (Some "C");
         InsertTop100 (Some "b/y") (Some "b") 2 None (Some 80) (Some 80)
                      (Some 12) (Some 3) (Some "C")].

(** A table that holds one repository at rank 7. *)
Definition table_a : store :=
  Store [TopRow "a/x" "a" 7 (Some 3) 50 50 1 1 None] [] [].

(** A ranking that lists each of two full names twice. *)
Definition ranking_twice : res json :=
  search_response [item "a/x" "a" 90 JNull; item "a/x" "a" 90 JNull;
                   item "b/y" "b" 80 JNull; item "b/y" "b" 80 JNull].

(** [datetime.strptime(s, "%Y-%m-%d").date()] on the zero-padded days that
    [isoformat] writes; it stands in for [strptime_day] in the examples. *)
Definition digit (a : ascii) : Z := Z.of_nat (Ascii.nat_of_ascii a) - 48.

Definition number (s : string) : Z :=
  fold_left (λ n a, 10 * n + digit a) (String.list_ascii_of_string s) 0.

Definition ymd_date (s : string) : option date :=
  if matches "dddd-dd-dd" s
  then Some (Date (number (String.substring 0 4 s))
                  (number (String.substring 5 2 s))
                  (number (String.substring 8 2 s)))
  else None.

(** A commit as [list_commits] gives it, with or without [author.name]. *)
Definition commit_record (date : string) (name : option json) : json :=
  JObj [("sha", JStr "7fd1a60b01f91b314f59955a4e4d4e80d8edf11d");
        ("commit",
         JObj [("author",
                JObj (("date", JStr date)
                      :: match name with
                         | Some n => [("name", n)]
                         | None => []
                         end));
               ("message", JStr "fix")])].

Definition full_page_of_alice : list json :=
  replicate 100 (commit_record "2024-01-01T10:00:00Z" (Some (JStr "Alice"))).

(** A provider with three full pages and an empty fourth one. *)
Definition three_full_pages (owner repo since until : string) (page : Z)
  : res json :=
  if page <=? 3 then Ok (JArr full_page_of_alice) else Ok (JArr []).

(** A provider whose second page fails after a full first one. *)
Definition second_page_fails (owner repo since until : string) (page : Z)
  : res json :=
  if page =? 1 then Ok (JArr full_page_of_alice)
  else Raise (ProviderFailure "502 Bad Gateway").

(** A provider with two commits on two days, in one short page. *)
Definition two_days (owner repo since until : string) (page : Z) : res json :=
  Ok (JArr [commit_record "2024-01-01T10:00:00Z" (Some (JStr "Alice"));
            commit_record "2024-01-02T09:30:00Z" (Some (JStr "Bob"))]).

(** The server rejects the first statement it is sent. *)
Definition first_fails : nat → bool := λ n, bool_decide (n = 0%nat).

(** The window of the examples, and the two rows that a batch runs over. *)
Definition since_str : string := "2024-01-01T00:00:00Z".
Definition until_str : string := "2024-01-03T00:00:00Z".


Definition statement_failed : exn :=
  RuntimeError "Database error in insert_or_update_activity: statement failed".

(** ** The ranking endpoint (schemas.py, crud.py, routers.py) *)

(** [SortBy] and [Order] of schemas.py, with the string each member is. *)
Inductive SortBy := WATCHERS | FORKS | OPEN_ISSUES | STARS.
Inductive Order := ASC | DESC.

Global Instance SortBy_eq_dec : EqDecision SortBy.
Proof. solve_decision. Defined.
Global Instance Order_eq_dec : EqDecision Order.
Proof. solve_decision. Defined.

Definition SortBy_value (sort_by : SortBy) : string :=
  match sort_by with
  | WATCHERS => "watchers"
  | FORKS => "forks"
  | OPEN_ISSUES => "open_issues"
  | STARS => "stars"
  end.

Definition Order_value (order : Order) : string :=
  match order with ASC => "ASC" | DESC => "DESC" end.

(** [TopRepo] of schemas.py. *)
Record TopRepo := mkTopRepo {
  tr_repo : string;
  tr_owner : string;
  tr_position_cur : Z;
  tr_position_prev : option Z;
  tr_stars : Z;
  tr_watchers : Z;
  tr_forks : Z;
  tr_open_issues : Z;
  tr_language : option string
}.

(** The two dictionaries of crud.py, and [mapping.get(key)]. *)
Definition SORT_BY_MAPPING : list (SortBy * string) :=
  [(WATCHERS, "watchers"); (FORKS, "forks"); (OPEN_ISSUES, "open_issues");
   (STARS, "stars")].

Definition ORDER_MAPPING : list (Order * string) :=
  [(ASC, "ASC"); (DESC, "DESC")].

Fixpoint mapping_get {K} `{EqDecision K} (key : K)
    (mapping : list (K * string)) : option string :=
  match mapping with
  | [] => None
  | (k, v) :: mapping' =>
      if decide (k = key) then Some v else mapping_get key mapping'
  end.

(** What an f-string writes for a value that may be [None]. *)
Definition format_value (v : option string) : string :=
  match v with Some s => s | None => "None" end.

(** The query of [get_top_repos], by the two texts its f-string puts in:
    [SELECT ... FROM top100 ORDER BY {sort_field} {sort_order} LIMIT 100]. *)
Record top_query := TopQuery {
  q_sort_field : string;
  q_sort_order : string;
  q_limit : nat
}.

(** How the server reads the query. The integer columns of [top100] can be
    sorted by here; any other text in the place of the column is answered
    with an error, as a name that is no column is. *)
Definition sort_column (name : string) : option (top_row → Z) :=
  if String.eqb name "stars" then Some t_stars
  else if String.eqb name "watchers" then Some t_watchers
  else if String.eqb name "forks" then Some t_forks
  else if String.eqb name "open_issues" then Some t_open_issues
  else if String.eqb name "position_cur" then Some t_position_cur
  else None.

Definition sort_descending (direction : string) : option bool :=
  if String.eqb direction "ASC" then Some false
  else if String.eqb direction "DESC" then Some true
  else None.

(** [x] may stand before [y] in the direction asked for. *)
Definition in_order (descending : bool) (x y : Z) : bool :=
  if descending then y <=? x else x <=? y.

Fixpoint insert_by (key : top_row → Z) (descending : bool) (r : top_row)
    (rows : list top_row) : list top_row :=
  match rows with
  | [] => [r]
  | r' :: rows' =>
      if in_order descending (key r) (key r') then r :: rows
      else r' :: insert_by key descending r rows'
  end.

(** [ORDER BY column direction]; the server is free in the order of rows
    with equal keys, and this is one such order. *)
Definition order_by (key : top_row → Z) (descending : bool)
    (rows : list top_row) : list top_row :=
  foldr (insert_by key descending) [] rows.

Definition run_top_query (q : top_query) (rows : list top_row)
  : res (list top_row) :=
  match sort_column (q_sort_field q), sort_descending (q_sort_order q) with
  | Some key, Some descending =>
      Ok (take (q_limit q) (order_by key descending rows))
  | None, _ =>
      Raise (PostgresError ("column " +:+ q_sort_field q
                            +:+ " does not exist"))
  | _, None => Raise (PostgresError "syntax error")
  end.

(** The [TopRepo] built from the columns of a row: every column has the
    type of its field. *)
Definition TopRepo_of_row (r : top_row) : TopRepo :=
  mkTopRepo (t_repo r) (t_owner r) (t_position_cur r) (t_position_prev r)
            (t_stars r) (t_watchers r) (t_forks r) (t_open_issues r)
            (t_language r).

Section TopEndpoint.
(** [connection.fetch(query)]: what the connection answers. *)
Variable connection_fetch : top_query → res (list top_row).

Definition get_top_repos (sort_by : SortBy) (order : Order)
  : res (list TopRepo) :=
  let sort_field := mapping_get sort_by SORT_BY_MAPPING in
  let sort_order := mapping_get order ORDER_MAPPING in
  let query :=
    TopQuery (format_value sort_field) (format_value sort_order) 100 in
  match connection_fetch query with
  | Ok rows => Ok (map TopRepo_of_row rows)
  | Raise (PostgresError msg) =>
      Raise (RuntimeError ("Database error: " +:+ msg))
  | Raise e => Raise e
  end.

Definition read_top_100_repos (sort_by : SortBy) (order : Order)
  : res (list TopRepo) :=
  match get_top_repos sort_by order with
  | Ok result => Ok result
  | Raise (RuntimeError msg) => Raise (HTTPException 500 msg)
  | Raise e =>
      Raise (HTTPException 500 ("Ошибка сервера: " +:+ exn_str e))
  end.
End TopEndpoint.

(** ** The scheduled run (connection.py, update_data.py) *)

(** [db.pool] of connection.py: [None] until [connect] has set it, then a
    pool that is open or closed. The process is the pool together with
    the store behind it. *)
Inductive pool := PoolOpen | PoolClosed.

Record process := Process {
  db_pool : option pool;
  server : store
}.

(** What [handler] returns. *)
Definition refreshed : json :=
  JObj [("status", JStr "ok");
        ("message", JStr "Data refreshed successfully.")].

Section ScheduledRun.
Variables (fault : nat → bool) (encode_error : exn).
Variable isoformat_day : string → option string.
Variable strptime_day : string → option date.
Variable search_repos : res json.
Variable list_commits : string → string → string → string → Z → res json.

(** What [asyncpg.create_pool] does: it returns a pool or raises. *)
Variable create_pool : res ().

(** [Database.connect] and [Database.disconnect]. *)
Definition connect (p : process) : res () * process :=
  match create_pool with
  | Ok _ => (Ok (), Process (Some PoolOpen) (server p))
  | Raise e => (Raise e, p)
  end.

Definition disconnect (p : process) : res () * process :=
  match db_pool p with
  | Some _ => (Ok (), Process (Some PoolClosed) (server p))
  | None => (Ok (), p)
  end.

(** [main]: the connections that [refresh_data] takes come from the pool
    that [connect] has just opened. *)
Definition main (fuel : nat) (since until : string) (p : process)
  : option (res () * process) :=
  match connect p with
  | (Raise e, p') => Some (Raise e, p')
  | (Ok _, p') =>
      match refresh_data fault encode_error isoformat_day strptime_day
                         search_repos list_commits fuel since until
                         (server p') with
      | None => None
      | Some (Raise e, st') => Some (Raise e, Process (db_pool p') st')
      | Some (Ok _, st') => Some (disconnect (Process (db_pool p') st'))
      end
  end.

(** [handler]: [asyncio.run(main())], then the answer. *)
Definition handler (fuel : nat) (since until : string) (p : process)
  : option (res json * process) :=
  match main fuel since until p with
  | None => None
  | Some (Raise e, p') => Some (Raise e, p')
  | Some (Ok _, p') => Some (Ok refreshed, p')
  end.
End ScheduledRun.

(** ** Vocabulary of the further properties *)

(** The record [c] is counted under the day [day]. *)
Definition on_day (isoformat_day : string → option string) (day : string)
    (c : json) : bool :=
  match commit_day isoformat_day c with
  | Ok d => String.eqb d day
  | Raise _ => false
  end.

(** The key under which the author of [c] enters the set of its day. *)
Definition author_key (c : json) : res pykey :=
  author_name ← commit_author_name c; hash_key author_name.

(** [daily_stats[day]['commits']], and 0 for a day that is no key. *)
Definition day_count (day : string) (daily_stats : dict day_stats) : Z :=
  match dict_get day daily_stats with
  | Some bucket => commits bucket
  | None => 0
  end.

(** The keys of a dictionary, in the order [items()] visits them. *)
Definition keys {V} (d : dict V) : list string := map fst d.

(** Whatever [m] does and however it ends, the store it leaves is related
    to the store it found by [R]. *)
Definition keeps {A} (R : relation store) (m : M A) : Prop :=
  ∀ st r st', m st = (r, st') → R st st'.

(** The row is one of the repository [owner]/[repo]. *)
Definition of_repo (owner repo : string) (r : activity_row) : bool :=
  String.eqb (a_owner r) owner && String.eqb (a_repo r) repo.

(** The rows of [activity] that belong to other repositories. *)
Definition other_repos (owner repo : string) (st : store)
  : list activity_row :=
  filter (λ r, ¬ of_repo owner repo r) (activity st).

(** The rows of [activity] for other days or other repositories. *)
Definition other_days (owner repo : string) (d : date) (st : store)
  : list activity_row :=
  filter (λ r, ¬ activity_matches owner repo d r) (activity st).

(** The rows of [activity] for one day of one repository. *)
Definition day_rows (owner repo : string) (d : date) (st : store)
  : list activity_row :=
  filter (λ r, activity_matches owner repo d r) (activity st).

(** The rows an [UPDATE activity] leaves. *)
Definition updated_activity (owner repo : string) (d : date) (commits : Z)
    (authors : list (option string)) (rows : list activity_row)
  : list activity_row :=
  map (λ r, if activity_matches owner repo d r
            then ActivityRow (a_owner r) (a_repo r) (a_date r) commits authors
            else r) rows.

(** The key of a row of [activity]. *)
Definition activity_key (r : activity_row) : string * string * date :=
  (a_owner r, a_repo r, a_date r).

(** The relations between the store a run finds and the store it leaves
    that the properties speak of. *)
Definition same_activity : relation store :=
  λ st st', activity st' = activity st.

(** No row of [activity] is removed or moved, and none changes its key. *)
Definition activity_grows : relation store :=
  λ st st',
    map activity_key (activity st) `prefix_of` map activity_key (activity st').

(** Only rows of [activity] that belong to [owner]/[repo] differ. *)
Definition touches_only (owner repo : string) : relation store :=
  λ st st',
    top100 st' = top100 st
    ∧ other_repos owner repo st' = other_repos owner repo st
    ∧ activity_grows st st'.

(** The record holds, for every column of [top100], a value of the type
    of the column: strings for the two names, integers for the metrics, a
    string or null for the language. *)
Definition typed_record (r : repo_data) : bool :=
  match rd_repo r, rd_owner r, rd_stars r, rd_watchers r, rd_forks r,
        rd_open_issues r, rd_language r with
  | JStr _, JStr _, JNum _, JNum _, JNum _, JNum _, (JStr _ | JNull) => true
  | _, _, _, _, _, _, _ => false
  end.

(** The row is named as the value [v] of a record's [repo] says. *)
Definition named_as (v : json) (row : top_row) : bool :=
  match v with
  | JStr name => String.eqb (t_repo row) name
  | _ => false
  end.

(** What a row of [top100] is about: its full name and its owner. *)
Definition row_identity (row : top_row) : string * string :=
  (t_repo row, t_owner row).

(** What an upsert of a record whose [repo] is [v] may change: nothing in
    [activity], no row named otherwise, the identity of no row; and it
    removes and moves no row. *)
Definition upsert_scope (v : json) : relation store :=
  λ st st',
    activity st' = activity st
    ∧ map row_identity (top100 st) `prefix_of` map row_identity (top100 st')
    ∧ filter (λ row, ¬ named_as v row) (top100 st')
      = filter (λ row, ¬ named_as v row) (top100 st).

(** The rows [fetch_repo_activity] asks for: those of [owner]/[repo] with
    [date BETWEEN since AND until]. *)
Definition in_window (owner repo : string) (since until : date)
    (r : activity_row) : bool :=
  String.eqb (a_owner r) owner && String.eqb (a_repo r) repo
  && date_le since (a_date r) && date_le (a_date r) until.

(** What a row and a [RepoActivity] say: the day, the count, the authors. *)
Definition row_content (r : activity_row) : date * Z * list (option string) :=
  (a_date r, a_commits r, a_authors r).

Definition record_content (x : RepoActivity)
  : date * Z * list (option string) :=
  (ra_date x, ra_commits x, map Some (ra_authors x)).

(** The order of the answer: no record is dated after a later one. *)
Definition by_date (x y : RepoActivity) : Prop :=
  date_le (ra_date x) (ra_date y).

Definition rows_by_date (r1 r2 : activity_row) : Prop :=
  date_le (a_date r1) (a_date r2).

(** The authors of the row are all strings. *)
Definition named_authors (r : activity_row) : bool :=
  forallb (λ a : option string, bool_decide (is_Some a)) (a_authors r).

(** Both tables are as they were. *)
Definition same_tables : relation store :=
  λ st st', top100 st' = top100 st ∧ activity st' = activity st.

(** Whatever [m] raises satisfies [P]. *)
Definition raises_only {A} (P : exn → Prop) (m : M A) : Prop :=
  ∀ st e st', m st = (Raise e, st') → P e.

(** The exception is asyncpg's [PostgresError]. *)
Definition is_postgres_error (e : exn) : Prop := ∃ msg, e = PostgresError msg.

(** What the body of a function of crud.py raises before its handler: the
    error of a statement, or the error of an argument. *)
Definition statement_or_argument (encode_error e : exn) : Prop :=
  is_postgres_error e ∨ e = encode_error.

(** What a function of crud.py raises after its handler: a [RuntimeError]
    whose message starts with [prefix], or an [other] exception that is no
    [PostgresError]. *)
Definition wrapped (prefix : string) (other e : exn) : Prop :=
  (∃ msg, e = RuntimeError (prefix +:+ msg))
  ∨ (e = other ∧ ¬ is_postgres_error e).

(** The day string is parsed, and the authors of the bucket can be bound
    to a [text[]] place. *)
Definition writable (strptime_day : string → option date)
    (item : string * day_stats) : Prop :=
  is_Some (strptime_day item.1)
  ∧ is_Some (mapM key_as_text (elements (authors item.2))).

(** No two of the day strings are parsed to one date. *)
Definition distinct_dates (strptime_day : string → option date)
    (days : list string) : Prop :=
  ∀ day1 day2 d,
    day1 ∈ days → day2 ∈ days →
    strptime_day day1 = Some d → strptime_day day2 = Some d → day1 = day2.

(** The metric a member of [SortBy] stands for. *)
Definition metric (sort_by : SortBy) (x : TopRepo) : Z :=
  match sort_by with
  | WATCHERS => tr_watchers x
  | FORKS => tr_forks x
  | OPEN_ISSUES => tr_open_issues x
  | STARS => tr_stars x
  end.

(** [x] may stand before [y] in a ranking by [sort_by] in the direction
    [order]. *)
Definition ranks_before (sort_by : SortBy) (order : Order) (x y : TopRepo)
  : Prop :=
  match order with
  | ASC => metric sort_by x ≤ metric sort_by y
  | DESC => metric sort_by y ≤ metric sort_by x
  end.

(** The text holds no slash. *)
Fixpoint no_slash (s : string) : bool :=
  match s with
  | EmptyString => true
  | String a s' => negb (Ascii.eqb a "/"%char) && no_slash s'
  end.

(** An item of the search answer that has every field the fetch reads. *)
Definition complete_item (repo : json) : bool :=
  match repo with
  | JObj fields =>
      forallb (λ key, bool_decide (is_Some (assoc key fields))) required_keys
      && match assoc "owner" fields with
         | Some (JObj owner) => bool_decide (is_Some (assoc "login" owner))
         | _ => false
         end
  | _ => false
  end.

(** [repo['owner']['login']]. *)
Definition owner_login (repo : json) : res json :=
  owner ← getitem repo "owner"; getitem owner "login".


(** The statements of the reconciliation of [top100]. *)
Definition is_top100_write (s : stmt) : Prop :=
  match s with
  | DeleteTop100NotIn _ | UpdateTop100 _ _ _ _ _ _ _
  | InsertTop100 _ _ _ _ _ _ _ _ _ => True
  | _ => False
  end.

(** ** Data of the further examples *)

(** A provider that answers every page with a full page. *)
Definition endless_pages (owner repo since until : string) (page : Z)
  : res json :=
  Ok (JArr full_page_of_alice).

(** A provider with two full pages and a short third one. *)
Definition two_pages_and_a_half (owner repo since until : string) (page : Z)
  : res json :=
  if page <=? 2 then Ok (JArr full_page_of_alice)
  else Ok (JArr [commit_record "2024-01-02T09:30:00Z" (Some (JStr "Bob"))]).

(** A table of three repositories for the examples. *)
Definition table_abc : list top_row :=
  [TopRow "a/x" "a" 1 None 90 10 12 3 None;
   TopRow "b/y" "b" 2 (Some 3) 80 30 5 7 (Some "C");
   TopRow "c/z" "c" 3 (Some 2) 70 20 9 1 (Some "Go")].

(** Three commits on two days, and what the Aggregator makes of them. *)
Definition commits_of_two_days : list json :=
  [commit_record "2024-01-01T10:00:00Z" (Some (JStr "Alice"));
   commit_record "2024-01-02T09:30:00Z" None;
   commit_record "2024-01-01T23:59:59Z" (Some (JStr "Bob"))].

Definition stats_of_two_days : dict day_stats :=
  [("2024-01-01", DayStats 2 {[KStr "Alice"; KStr "Bob"]});
   ("2024-01-02", DayStats 1 {[KStr "Unknown"]})].

(** A provider with the three commits in one short page. *)
Definition three_commits (owner repo since until : string) (page : Z)
  : res json :=
  Ok (JArr commits_of_two_days).



(** A table with two days of one repository and one day of another. *)
Definition activity_of_two_repos : store :=
  Store []
        [ActivityRow "a" "x" (Date 2024 1 2) 4 [Some "Bob"];
         ActivityRow "b" "y" (Date 2024 1 1) 7 [Some "Carol"];
         ActivityRow "a" "x" (Date 2024 1 1) 2 [Some "Alice"; Some "Bob"]]
        [].

(** An answer of the provider that has no [items]. *)
Definition rate_limited : res json :=
  Ok (JObj [("message", JStr "API rate limit exceeded")]).

(** The table after the three commits are synced for [a]/[x]. *)
Definition synced_two_repos : store :=
  Store []
        [ActivityRow "a" "x" (Date 2024 1 2) 1 [Some "Unknown"];
         ActivityRow "b" "y" (Date 2024 1 1) 7 [Some "Carol"];
         ActivityRow "a" "x" (Date 2024 1 1) 2 [Some "Alice"; Some "Bob"]]
        [UpdateActivity "a" "x" (Date 2024 1 1) 2 [Some "Alice"; Some "Bob"];
         UpdateActivity "a" "x" (Date 2024 1 2) 1 [Some "Unknown"]].

(** A record for [a/x] that names another owner, and [table_ac] after its
    upsert. *)
Definition moved_record : repo_data :=
  RepoData (JStr "a/x") (JStr "someone-else") 1 None (JNum 90) (JNum 90)
           (JNum 12) (JNum 3) JNull.

Definition table_ac_upserted : store :=
  Store [TopRow "a/x" "a" 1 (Some 7) 90 90 12 3 None;
         TopRow "c/z" "c" 2 None 60 60 1 1 (Some "Go")]
        []
        [UpdateTop100 (Some "a/x") 1 (Some 90) (Some 90) (Some 12) (Some 3)
                      None].

(** [table_ab] after a second reconciliation with the same ranking. *)
Definition table_ab_again : store :=
  Store [TopRow "a/x" "a" 1 (Some 1) 90 90 12 3 None;
         TopRow "b/y" "b" 2 (Some 2) 80 80 12 3 (Some "C")]
        []
        (log table_ab
         ++ [DeleteTop100NotIn [Some "a/x"; Some "b/y"];
             UpdateTop100 (Some "a/x") 1 (Some 90) (Some 90) (Some 12)
                          (Some 3) None;
             UpdateTop100 (Some "b/y") 2 (Some 80) (Some 80) (Some 12)
                          (Some 3) (Some "C")]).

(** [table_a] after a refresh with the ranking of two repositories and
    the three commits for each of them. *)
Definition table_a_refreshed : store :=
  Store [TopRow "a/x" "a" 1 (Some 7) 90 90 12 3 None;
         TopRow "b/y" "b" 2 None 80 80 12 3 (Some "C")]
        [ActivityRow "a" "x" (Date 2024 1 1) 2 [Some "Alice"; Some "Bob"];
         ActivityRow "a" "x" (Date 2024 1 2) 1 [Some "Unknown"];
         ActivityRow "b" "y" (Date 2024 1 1) 2 [Some "Alice"; Some "Bob"];
         ActivityRow "b" "y" (Date 2024 1 2) 1 [Some "Unknown"]]
        [DeleteTop100NotIn [Some "a/x"; Some "b/y"];
         UpdateTop100 (Some "a/x") 1 (Some 90) (Some 90) (Some 12) (Some 3)
                      None;
         UpdateTop100 (Some "b/y") 2 (Some 80) (Some 80) (Some 12) (Some 3)
                      (Some "C");
         InsertTop100 (Some "b/y") (Some "b") 2 None (Some 80) (Some 80)
                      (Some 12) (Some 3) (Some "C");
         SelectTop100;
         UpdateActivity "a" "x" (Date 2024 1 1) 2 [Some "Alice"; Some "Bob"];
         InsertActivity "a" "x" (Date 2024 1 1) 2 [Some "Alice"; Some "Bob"];
         UpdateActivity "a" "x" (Date 2024 1 2) 1 [Some "Unknown"];
         InsertActivity "a" "x" (Date 2024 1 2) 1 [Some "Unknown"];
         UpdateActivity "b" "y" (Date 2024 1 1) 2 [Some "Alice"; Some "Bob"];
         InsertActivity "b" "y" (Date 2024 1 1) 2 [Some "Alice"; Some "Bob"];
         UpdateActivity "b" "y" (Date 2024 1 2) 1 [Some "Unknown"];
         InsertActivity "b" "y" (Date 2024 1 2) 1 [Some "Unknown"]].

(** * Properties *)

(** ** Dictionaries *)

Section DictFacts.
Context {V : Type}.
Implicit Types (d : dict V) (k : string) (v : V).

Lemma dict_get_set_eq k v d : dict_get k (dict_set k v d) = Some v.
Proof.
  unfold dict_get. induction d as [|[k' v'] d IH]; simpl.
  - by rewrite String.eqb_refl.
  - destruct (String.eqb k' k) eqn:E; simpl; rewrite E; auto.
Qed.

Lemma dict_set_absent k v d :
  dict_get k d = None → dict_set k v d = d ++ [(k, v)].
Proof.
  unfold dict_get. induction d as [|[k' v'] d IH]; simpl; [done|].
  destruct (String.eqb k' k) eqn:E; [done|].
  intros H. by rewrite IH.
Qed.

Lemma dict_get_set_ne k k' v d :
  k ≠ k' → dict_get k' (dict_set k v d) = dict_get k' d.
Proof.
  intros Hne. unfold dict_get. induction d as [|[k0 v0] d IH]; simpl.
  - destruct (String.eqb k k') eqn:E; [|done].
    apply String.eqb_eq in E. congruence.
  - destruct (String.eqb k0 k) eqn:E; simpl; [|by rewrite IH].
    apply String.eqb_eq in E. subst k0.
    destruct (String.eqb k k') eqn:E'; [|done].
    apply String.eqb_eq in E'. congruence.
Qed.

Lemma dict_set_twice k v v0 d :
  dict_set k v (dict_set k v0 d) = dict_set k v d.
Proof.
  induction d as [|[k' v'] d IH]; simpl.
  - by rewrite String.eqb_refl.
  - destruct (String.eqb k' k) eqn:E; simpl; rewrite E; [done|].
    by rewrite IH.
Qed.

Lemma dict_has_true k d : dict_has k d = true → is_Some (dict_get k d).
Proof. unfold dict_has. destruct (dict_get k d); eauto. discriminate. Qed.

Lemma dict_has_false k d : dict_has k d = false → dict_get k d = None.
Proof. unfold dict_has. by destruct (dict_get k d). Qed.

Lemma elem_of_dict_set kv k v d :
  kv ∈ dict_set k v d → kv ∈ d ∨ kv = (k, v).
Proof.
  induction d as [|[k' v'] d IH]; simpl.
  - intros ->%list_elem_of_singleton. by right.
  - destruct (String.eqb k' k) eqn:E.
    + apply String.eqb_eq in E. subst k'.
      intros [->|H]%elem_of_cons; [by right|]. left. by right.
    + intros [->|H]%elem_of_cons; [left; by left|].
      destruct (IH H) as [?|?]; [left; by right|by right].
Qed.
End DictFacts.

(** ** The Aggregator *)

Lemma total_commits_app d1 d2 :
  total_commits (d1 ++ d2) = total_commits d1 + total_commits d2.
Proof.
  unfold total_commits. induction d1 as [|kv d1 IH]; simpl; [done|].
  rewrite IH. lia.
Qed.

Lemma total_commits_set_present k b b0 d :
  dict_get k d = Some b0 →
  total_commits (dict_set k b d) = total_commits d - commits b0 + commits b.
Proof.
  unfold dict_get, total_commits.
  induction d as [|[k' b'] d IH]; simpl; [done|].
  destruct (String.eqb k' k) eqn:E; simpl.
  - intros [= ->]. lia.
  - intros H. rewrite (IH H). lia.
Qed.

Section AggregatorFacts.
Variable isoformat_day : string → option string.
Local Abbreviation step := (aggregate_step isoformat_day).
Local Abbreviation loop := (aggregate_loop isoformat_day).

(** The two readings of a record whose [commit.author] is an object. *)
Lemma commit_day_obj c commit author s day_str :
  getitem c "commit" = Ok commit →
  getitem commit "author" = Ok (JObj author) →
  assoc "date" author = Some (JStr s) →
  isoformat_day (replace_Z s) = Some day_str →
  commit_day isoformat_day c = Ok day_str.
Proof.
  intros Hc Ha Hd Hs. unfold commit_day. rewrite Hc. simpl. rewrite Ha. simpl.
  rewrite Hd. simpl. by rewrite Hs.
Qed.

Lemma commit_author_name_obj c commit author :
  getitem c "commit" = Ok commit →
  getitem commit "author" = Ok (JObj author) →
  author ≠ [] →
  commit_author_name c = Ok (default (JStr "Unknown") (assoc "name" author)).
Proof.
  intros Hc Ha Hne. unfold commit_author_name.
  rewrite Hc. cbn [mbind res_bind]. rewrite Ha. cbn [mbind res_bind].
  assert (truthy (JObj author) = true) as -> by (by destruct author).
  unfold contains, getitem. cbn [mbind res_bind].
  destruct (assoc "name" author) as [n|] eqn:Hn.
  - by rewrite bool_decide_eq_true_2 by eauto.
  - rewrite bool_decide_eq_false_2; [done|]. by intros [? ?].
Qed.

(** What one turn of the loop does when it does not raise. *)
Lemma aggregate_step_ok d c d' :
  step d c = Ok d' →
  ∃ day_str author_name a,
    commit_day isoformat_day c = Ok day_str
    ∧ commit_author_name c = Ok author_name
    ∧ hash_key author_name = Ok a
    ∧ d' = match dict_get day_str d with
           | Some b => dict_set day_str
                         (DayStats (commits b + 1) (authors b ∪ {[a]})) d
           | None => d ++ [(day_str, DayStats 1 (∅ ∪ {[a]}))]
           end.
Proof.
  unfold aggregate_step. intros H.
  destruct (commit_day isoformat_day c) as [day_str|] eqn:Hday; [|done].
  destruct (commit_author_name c) as [author_name|] eqn:Hname; [|done].
  simpl in H. exists day_str, author_name.
  destruct (dict_has day_str d) eqn:Hhas.
  - apply dict_has_true in Hhas as [b Hb]. rewrite Hb in H |- *.
    destruct (hash_key author_name) as [a|] eqn:Ha; [|done].
    simpl in H. injection H as <-. by exists a.
  - apply dict_has_false in Hhas. rewrite Hhas.
    rewrite dict_get_set_eq in H.
    destruct (hash_key author_name) as [a|] eqn:Ha; [|done].
    simpl in H. injection H as <-. exists a. repeat split; [done..|].
    by rewrite dict_set_twice, (dict_set_absent _ _ _ Hhas).
Qed.

Lemma aggregate_step_total d c d' :
  step d c = Ok d' → total_commits d' = total_commits d + 1.
Proof.
  intros (day_str & author_name & a & _ & _ & _ & ->)%aggregate_step_ok.
  destruct (dict_get day_str d) as [b|] eqn:Hb.
  - rewrite (total_commits_set_present _ _ _ _ Hb). simpl. lia.
  - rewrite total_commits_app. unfold total_commits. simpl. lia.
Qed.

Lemma aggregate_loop_total commits d d' :
  loop commits d = Ok d' →
  total_commits d' = total_commits d + Z.of_nat (length commits).
Proof.
  revert d. induction commits as [|c commits IH]; intros d; simpl.
  - intros [= ->]. lia.
  - destruct (step d c) as [d1|] eqn:Hstep; [|done]. simpl.
    intros H. rewrite (IH _ H), (aggregate_step_total _ _ _ Hstep). lia.
Qed.

Lemma well_formed_step d c :
  well_formed_commit isoformat_day c = true → is_ok (step d c) = true.
Proof.
  unfold well_formed_commit. intros H.
  destruct (getitem c "commit") as [commit|] eqn:Hc; [|done].
  destruct (getitem commit "author") as [[| | | | |author]|] eqn:Ha; try done.
  destruct (assoc "date" author) as [[| | |s| |]|] eqn:Hdate; try done.
  apply andb_true_iff in H as [Hs Hname].
  apply bool_decide_eq_true in Hs as [day_str Hs].
  assert (author ≠ []) as Hne by (intros ->; done).
  unfold aggregate_step.
  rewrite (commit_day_obj c commit author s day_str) by done.
  rewrite (commit_author_name_obj c commit author) by done. simpl.
  assert (is_ok (hash_key (default (JStr "Unknown") (assoc "name" author)))
          = true) as Hh.
  { destruct (assoc "name" author); done. }
  destruct (hash_key _) as [a|]; [|done].
  destruct (dict_has day_str d) eqn:Hhas.
  - by apply dict_has_true in Hhas as [b ->].
  - by rewrite dict_get_set_eq.
Qed.

Lemma well_formed_loop commits d :
  Forall (λ c, well_formed_commit isoformat_day c = true) commits →
  is_ok (loop commits d) = true.
Proof.
  intros H. revert d. induction H as [|c commits Hc _ IH]; intros d; [done|].
  simpl. pose proof (well_formed_step d c Hc) as Hs.
  destruct (step d c) as [d1|]; [|done]. apply IH.
Qed.

Lemma aggregate_step_filled d c d' :
  Forall bucket_filled d → step d c = Ok d' → Forall bucket_filled d'.
Proof.
  intros Hd (day_str & author_name & a & _ & _ & _ & ->)%aggregate_step_ok.
  rewrite Forall_forall in Hd.
  destruct (dict_get day_str d) as [b|] eqn:Hb.
  - apply Forall_forall. intros kv [Hin| ->]%elem_of_dict_set; [by apply Hd|].
    assert (1 ≤ commits b) as Hge.
    { unfold dict_get in Hb. clear -Hb Hd.
      induction d as [|[k b'] d IH]; simpl in Hb; [done|].
      destruct (String.eqb k day_str).
      - injection Hb as ->. apply (Hd (k, b)). by left.
      - apply IH; [|done]. intros x Hx. apply Hd. by right. }
    split; simpl; [lia|set_solver].
  - apply Forall_app. split; [by apply Forall_forall|].
    apply Forall_singleton. split; simpl; [lia|set_solver].
Qed.

Lemma aggregate_loop_filled commits d d' :
  Forall bucket_filled d → loop commits d = Ok d' → Forall bucket_filled d'.
Proof.
  revert d. induction commits as [|c commits IH]; intros d Hd; simpl.
  - by intros [= <-].
  - destruct (step d c) as [d1|] eqn:Hstep; [|done]. simpl.
    apply IH. by eapply aggregate_step_filled.
Qed.

Lemma aggregate_step_eq d c day name a :
  commit_day isoformat_day c = Ok day →
  commit_author_name c = Ok name →
  hash_key name = Ok a →
  step d c
  = Ok match dict_get day d with
       | Some b => dict_set day (DayStats (commits b + 1) (authors b ∪ {[a]})) d
       | None => d ++ [(day, DayStats 1 (∅ ∪ {[a]}))]
       end.
Proof.
  intros Hday Hname Ha.
  destruct (step d c) as [d'|e] eqn:Hstep.
  - apply aggregate_step_ok in Hstep
      as (day' & name' & a' & Hd & Hn & Hh & ->).
    rewrite Hday in Hd. injection Hd as <-.
    rewrite Hname in Hn. injection Hn as <-.
    rewrite Ha in Hh. by injection Hh as <-.
  - exfalso. unfold aggregate_step in Hstep.
    rewrite Hday, Hname in Hstep. simpl in Hstep.
    destruct (dict_has day d) eqn:Hhas.
    + apply dict_has_true in Hhas as [b Hb]. rewrite Hb, Ha in Hstep. done.
    + rewrite dict_get_set_eq, Ha in Hstep. done.
Qed.

(** An author that a bucket holds stays in it. *)
Lemma aggregate_step_keeps d c d' day a :
  step d c = Ok d' →
  (∃ b, dict_get day d = Some b ∧ a ∈ authors b) →
  ∃ b', dict_get day d' = Some b' ∧ a ∈ authors b'.
Proof.
  intros (day_str & name & a0 & _ & _ & _ & ->)%aggregate_step_ok
         (b & Hb & Ha).
  destruct (decide (day_str = day)) as [->|Hne].
  - rewrite Hb. rewrite dict_get_set_eq. eexists. split; [done|].
    simpl. set_solver.
  - exists b. split; [|done].
    destruct (dict_get day_str d) eqn:E.
    + by rewrite dict_get_set_ne.
    + by rewrite <-(dict_set_absent _ _ _ E), dict_get_set_ne.
Qed.

(** The author of the commit just read is in the bucket of its day. *)
Lemma aggregate_step_counts d c d' day name a :
  step d c = Ok d' →
  commit_day isoformat_day c = Ok day →
  commit_author_name c = Ok name →
  hash_key name = Ok a →
  ∃ b', dict_get day d' = Some b' ∧ a ∈ authors b'.
Proof.
  intros (day_str & name' & a' & Hd & Hn & Hh & ->)%aggregate_step_ok
         Hday Hname Ha.
  rewrite Hday in Hd. injection Hd as <-.
  rewrite Hname in Hn. injection Hn as <-.
  rewrite Ha in Hh. injection Hh as <-.
  destruct (dict_get day d) eqn:E.
  - rewrite dict_get_set_eq. eexists. split; [done|]. simpl. set_solver.
  - rewrite <-(dict_set_absent _ _ _ E), dict_get_set_eq.
    eexists. split; [done|]. simpl. set_solver.
Qed.

Lemma aggregate_loop_keeps commits : ∀ d d' day a,
  loop commits d = Ok d' →
  (∃ b, dict_get day d = Some b ∧ a ∈ authors b) →
  ∃ b', dict_get day d' = Some b' ∧ a ∈ authors b'.
Proof.
  induction commits as [|c commits IH]; intros d d' day a; simpl.
  - by intros [= <-].
  - destruct (step d c) as [d1|] eqn:Hstep; [|done]. simpl.
    intros Hloop Hb. eapply IH; [done|]. by eapply aggregate_step_keeps.
Qed.

Lemma aggregate_loop_counts commits : ∀ d d' c day name a,
  loop commits d = Ok d' →
  c ∈ commits →
  commit_day isoformat_day c = Ok day →
  commit_author_name c = Ok name →
  hash_key name = Ok a →
  ∃ b', dict_get day d' = Some b' ∧ a ∈ authors b'.
Proof.
  induction commits as [|c0 commits IH]; intros d d' c day name a; simpl.
  - by intros _ ?%elem_of_nil.
  - destruct (step d c0) as [d1|] eqn:Hstep; [|done]. simpl.
    intros Hloop [->|Hin]%elem_of_cons Hday Hname Ha.
    + eapply aggregate_loop_keeps; [done|].
      by eapply aggregate_step_counts.
    + by eapply IH.
Qed.

Lemma lacks_author_name_unknown c :
  lacks_author_name c → commit_author_name c = Ok (JStr "Unknown").
Proof.
  intros (commit & author & Hc & Ha & Hn).
  destruct author as [|kv author].
  - unfold commit_author_name. rewrite Hc. simpl. by rewrite Ha.
  - by rewrite (commit_author_name_obj c commit (kv :: author)), Hn.
Qed.

Lemma two_commits_one_day c1 c2 day name a :
  commit_day isoformat_day c1 = Ok day →
  commit_day isoformat_day c2 = Ok day →
  commit_author_name c1 = Ok name →
  commit_author_name c2 = Ok name →
  hash_key name = Ok a →
  aggregate_commits_by_day isoformat_day [c1; c2]
  = Ok [(day, DayStats 2 {[a]})].
Proof.
  intros Hd1 Hd2 Hc1 Hc2 Ha.
  unfold aggregate_commits_by_day. simpl.
  rewrite (aggregate_step_eq [] c1 day name a) by done. simpl.
  rewrite (aggregate_step_eq _ c2 day name a) by done.
  unfold dict_get. simpl. rewrite !String.eqb_refl. simpl.
  replace (∅ ∪ {[a]} ∪ {[a]} : gset pykey) with ({[a]} : gset pykey)
    by set_solver.
  done.
Qed.

(** Where the guard of the loop does what it is written for: a commit
    whose author object has no [name] is counted under the author "Unknown"
    in the bucket of its day; two such commits on one day aggregate to that
    day with 2 commits and the single author "Unknown". *)
Theorem nameless_commits_count_as_unknown :
  (∀ commits daily_stats c day,
     aggregate_commits_by_day isoformat_day commits = Ok daily_stats →
     c ∈ commits → lacks_author_name c →
     commit_day isoformat_day c = Ok day →
     ∃ bucket, dict_get day daily_stats = Some bucket
               ∧ KStr "Unknown" ∈ authors bucket)
  ∧ (∀ c1 c2 day,
       lacks_author_name c1 → lacks_author_name c2 →
       commit_day isoformat_day c1 = Ok day →
       commit_day isoformat_day c2 = Ok day →
       aggregate_commits_by_day isoformat_day [c1; c2]
       = Ok [(day, DayStats 2 {[KStr "Unknown"]})]).
Proof.
  split.
  - intros commits daily_stats c day Hagg Hin Hc Hday.
    apply (aggregate_loop_counts commits [] daily_stats c day
             (JStr "Unknown")); auto using lacks_author_name_unknown.
  - intros c1 c2 day Hc1%lacks_author_name_unknown
           Hc2%lacks_author_name_unknown Hd1 Hd2.
    by apply (two_commits_one_day c1 c2 day (JStr "Unknown")).
Qed.

(** C8. On well-formed records the Aggregator returns a mapping whose
    commit counts add up to the number of records; for no records it is
    the empty mapping. *)
Theorem commit_counts_add_up commits :
  Forall (λ c, well_formed_commit isoformat_day c = true) commits →
  (∃ daily_stats,
     aggregate_commits_by_day isoformat_day commits = Ok daily_stats
     ∧ total_commits daily_stats = Z.of_nat (length commits))
  ∧ aggregate_commits_by_day isoformat_day [] = Ok [].
Proof.
  intros Hwf. split; [|done]. unfold aggregate_commits_by_day.
  pose proof (well_formed_loop commits [] Hwf) as Hok.
  destruct (loop commits []) as [daily_stats|] eqn:Hloop; [|done].
  exists daily_stats. split; [done|].
  by rewrite (aggregate_loop_total _ _ _ Hloop).
Qed.
End AggregatorFacts.

Lemma nameless_commits_count_as_unknown_witness :
  (∃ bucket,
     dict_get "2024-01-01" [("2024-01-01", DayStats 2 {[KStr "Unknown"]})]
     = Some bucket
     ∧ KStr "Unknown" ∈ authors bucket)
  ∧ aggregate_commits_by_day github_day
      [commit_record "2024-01-01T10:00:00Z" None;
       commit_record "2024-01-01T23:59:59Z" None]
    = Ok [("2024-01-01", DayStats 2 {[KStr "Unknown"]})].
Proof.
  destruct (nameless_commits_count_as_unknown github_day) as [Hin Htwo].
  assert (∀ date, lacks_author_name (commit_record date None)) as Hlacks.
  { intros date. by do 2 eexists. }
  assert (aggregate_commits_by_day github_day
            [commit_record "2024-01-01T10:00:00Z" None;
             commit_record "2024-01-01T23:59:59Z" None]
          = Ok [("2024-01-01", DayStats 2 {[KStr "Unknown"]})]) as Hagg.
  { apply Htwo; [apply Hlacks..| |]; vm_compute; reflexivity. }
  split; [|done].
  apply (Hin _ _ (commit_record "2024-01-01T10:00:00Z" None) _ Hagg).
  - by left.
  - apply Hlacks.
  - vm_compute. reflexivity.
Defined.

(** C7. The guard [if c['commit']['author'] and 'name' in
    c['commit']['author']] asks whether the key is there, not what it
    holds: two commits of one day whose author name is null are counted
    under [None], the authors of the day are [{None}] and "Unknown" is not
    among them, against the [set[str]] the function documents. A record
    whose author object itself is null never reaches the guard: its date
    is read first, and that raises [TypeError]. *)
Lemma null_author_name_is_kept :
  (commit ← getitem (commit_record "2024-01-01T10:00:00Z" (Some JNull))
                    "commit";
   author ← getitem commit "author";
   getitem author "name") = Ok JNull
  ∧ aggregate_commits_by_day github_day
      [commit_record "2024-01-01T10:00:00Z" (Some JNull);
       commit_record "2024-01-01T23:59:59Z" (Some JNull)]
    = Ok [("2024-01-01", DayStats 2 {[KNone]})]
  ∧ (KStr "Unknown" ∉ ({[KNone]} : gset pykey))
  ∧ aggregate_commits_by_day github_day
      [JObj [("commit", JObj [("author", JNull)])]]
    = Raise TypeError.
Proof.
  split_and!; [done| |set_solver|done].
  apply (two_commits_one_day github_day _ _ _ JNull); by vm_compute.
Qed.

Lemma commit_counts_add_up_witness :
  (∃ daily_stats,
     aggregate_commits_by_day github_day
       [commit_record "2024-01-01T10:00:00Z" (Some (JStr "Alice"));
        commit_record "2024-01-02T09:30:00+02:00" None;
        commit_record "2024-01-01T23:59:59Z" (Some (JStr "Bob"))]
     = Ok daily_stats
     ∧ total_commits daily_stats = Z.of_nat 3)
  ∧ aggregate_commits_by_day github_day [] = Ok [].
Proof.
  apply (commit_counts_add_up github_day).
  repeat constructor.
Defined.

(** ** The store monad *)

Lemma bind_ok {A B} (m : M A) (f : A → M B) st b st' :
  (m ≫= f) st = (Ok b, st') →
  ∃ a st1, m st = (Ok a, st1) ∧ f a st1 = (Ok b, st').
Proof.
  unfold mbind, M_bind. destruct (m st) as [[a|e] st1]; [eauto|done].
Qed.

Lemma lift_ok {A} (r : res A) st a st' :
  lift r st = (Ok a, st') → r = Ok a ∧ st' = st.
Proof. unfold lift. by intros [= -> ->]. Qed.

Lemma encoded_ok {A} encode_error (arg : option A) st a st' :
  encoded encode_error arg st = (Ok a, st') → arg = Some a ∧ st' = st.
Proof. destruct arg; simpl; [by intros [= -> ->]|done]. Qed.

Lemma ret_ok {A} (x : A) st a st' :
  (mret x : M A) st = (Ok a, st') → a = x ∧ st' = st.
Proof. by intros [= -> ->]. Qed.

Lemma except_postgres_ok {A} (m : M A) (f : string → exn) st a st' :
  except_postgres m (λ e, raise (f e)) st = (Ok a, st') →
  m st = (Ok a, st').
Proof.
  unfold except_postgres, raise.
  by destruct (m st) as [[x|[]] st1].
Qed.


Lemma for_each_cons_ok {A} (body : A → M ()) x l st st' :
  for_each body (x :: l) st = (Ok (), st') →
  ∃ st1, body x st = (Ok (), st1) ∧ for_each body l st1 = (Ok (), st').
Proof.
  simpl. intros (a & st1 & Hx & Hl)%bind_ok. destruct a. eauto.
Qed.

(** The status of an [UPDATE] says whether it touched a row. *)
Lemma update_status (n : nat) :
  String.eqb ("UPDATE " +:+ pretty n) "UPDATE 0" = bool_decide (n = 0%nat).
Proof.
  case_bool_decide as Hn.
  - subst n. reflexivity.
  - apply String.eqb_neq. intros H. apply Hn.
    apply (inj (pretty : nat → string)).
    by injection H.
Qed.

Lemma mapM_res_ok {A B} (f : A → res B) l l' :
  mapM f l = Ok l' ↔ Forall2 (λ x y, f x = Ok y) l l'.
Proof.
  revert l'. induction l as [|x l IH]; intros l'; simpl.
  - split; [by intros [= <-]|by intros ->%Forall2_nil_inv_l].
  - split.
    + destruct (f x) as [y|] eqn:Hy; [|done]. simpl.
      destruct (mapM f l) as [k|] eqn:Hk; [|done]. simpl.
      intros [= <-]. constructor; [done|]. by apply IH.
    + intros (y & k & Hy & Hk & ->)%Forall2_cons_inv_l.
      rewrite Hy. simpl. apply IH in Hk. by rewrite Hk.
Qed.

Lemma execute_ok fault s st status st' :
  execute fault s st = (Ok status, st') →
  fault (length (log st)) = false
  ∧ ∃ rows1 rows2, run_stmt s (sent s st) = (Ok (status, rows1, rows2), st').
Proof.
  unfold execute. intros (r & st1 & Hsend & [-> ->]%ret_ok)%bind_ok.
  unfold send in Hsend.
  destruct (fault (length (log st))); [done|]. split; [done|].
  destruct r as [[status rows1] rows2]. eauto.
Qed.

(** Opening [x ← encoded arg; k] and [x ← execute s; k] in a run that
    ended well. *)
Ltac open_encoded H x E :=
  let st := fresh "st" in
  apply bind_ok in H as (x & st & [E ->]%encoded_ok & H).

Ltac open_execute H x E :=
  let st := fresh "st" in
  let rows1 := fresh "rows" in
  let rows2 := fresh "rows" in
  apply bind_ok in H as (x & st & E & H);
  apply execute_ok in E as (_ & rows1 & rows2 & E).

(** ** Statements on [top100] *)

Lemma top_key_free_spec name rows :
  top_key_free name rows = true ↔ name ∉ names_of rows.
Proof.
  unfold top_key_free, names_of. rewrite forallb_forall, list_elem_of_fmap.
  split.
  - intros H (r & -> & Hr). apply list_elem_of_In, H in Hr.
    by rewrite String.eqb_refl in Hr.
  - intros H r Hr%list_elem_of_In. apply negb_true_iff, String.eqb_neq.
    intros <-. apply H. eauto.
Qed.

Lemma hit_nil name rows :
  filter (λ r, sql_eq (t_repo r) (Some name)) rows = [] ↔ name ∉ names_of rows.
Proof.
  unfold names_of. rewrite list_elem_of_fmap. split.
  - intros H (r & -> & Hr).
    apply (filter_nil_not_elem_of _ _ r H); [|done].
    simpl. by rewrite String.eqb_refl.
  - intros H. induction rows as [|r rows IH]; [done|].
    rewrite filter_cons. destruct (decide _) as [Hd|Hd].
    + simpl in Hd. destruct (String.eqb (t_repo r) name) eqn:E; [|done].
      apply String.eqb_eq in E. exfalso. apply H. exists r.
      split; [done|by left].
    + apply IH. intros (r' & ? & ?). apply H. exists r'. split; [done|by right].
Qed.

Lemma hit_null rows :
  filter (λ r : top_row, sql_eq (t_repo r) None) rows = [].
Proof.
  induction rows as [|r rows IH]; [done|].
  rewrite filter_cons_False; [done|]. simpl. auto.
Qed.

Lemma as_text_some v s : as_text v = Some (Some s) → v = JStr s.
Proof. destruct v; simpl; congruence. Qed.

Lemma as_int_some v n : as_int v = Some (Some n) → v = JNum n.
Proof. destruct v; simpl; congruence. Qed.

Lemma run_update_top100_ok repo cur stars watchers forks open_issues language
    st status rows1 rows2 st' :
  run_stmt (UpdateTop100 repo cur stars watchers forks open_issues language) st
  = (Ok (status, rows1, rows2), st') →
  let hit := filter (λ r, sql_eq (t_repo r) repo) (top100 st) in
  (hit = [] ∧ status = "UPDATE 0" ∧ st' = st)
  ∨ (hit ≠ []
     ∧ ∃ s w f i,
         stars = Some s ∧ watchers = Some w ∧ forks = Some f
         ∧ open_issues = Some i
         ∧ status = "UPDATE " +:+ pretty (length hit)
         ∧ st' = Store (map (λ r, if sql_eq (t_repo r) repo
                                  then set_top_row cur s w f i language r
                                  else r) (top100 st))
                       (activity st) (log st)).
Proof.
  simpl. destruct (filter _ (top100 st)) as [|r0 hit] eqn:Hhit.
  - intros [= <- _ _ <-]. by left.
  - destruct stars as [s|], watchers as [w|], forks as [f|],
      open_issues as [i|]; try done.
    intros [= <- _ _ <-]. right. split; [done|]. by exists s, w, f, i.
Qed.

Lemma run_insert_top100_ok repo owner cur prev stars watchers forks open_issues
    language st status rows1 rows2 st' :
  run_stmt (InsertTop100 repo owner cur prev stars watchers forks open_issues
                         language) st
  = (Ok (status, rows1, rows2), st') →
  ∃ name o s w f i,
    repo = Some name ∧ owner = Some o ∧ stars = Some s ∧ watchers = Some w
    ∧ forks = Some f ∧ open_issues = Some i
    ∧ top_key_free name (top100 st) = true
    ∧ st' = Store (top100 st ++ [TopRow name o cur prev s w f i language])
                  (activity st) (log st).
Proof.
  simpl. destruct repo as [name|], owner as [o|], stars as [s|],
    watchers as [w|], forks as [f|], open_issues as [i|]; try done.
  destruct (top_key_free name (top100 st)) eqn:Hfree; [|done].
  intros [= _ _ _ <-]. by exists name, o, s, w, f, i.
Qed.

Lemma upsert_top_100_repo_ok fault encode_error r st st' :
  upsert_top_100_repo fault encode_error r st = (Ok (), st') →
  ∃ repo stars watchers forks open_issues language,
    rd_repo r = JStr repo
    ∧ rd_stars r = JNum stars
    ∧ rd_watchers r = JNum watchers
    ∧ rd_forks r = JNum forks
    ∧ rd_open_issues r = JNum open_issues
    ∧ as_text (rd_language r) = Some language
    ∧ activity st' = activity st
    ∧ (∃ stmts, log st' = log st ++ stmts ∧ Forall is_top100_upsert stmts)
    ∧ ((repo ∈ names_of (top100 st)
        ∧ top100 st'
          = map (λ row, if String.eqb (t_repo row) repo
                        then set_top_row (rd_position_cur r) stars watchers
                                         forks open_issues language row
                        else row) (top100 st))
       ∨ ((repo ∉ names_of (top100 st))
          ∧ ∃ owner,
              rd_owner r = JStr owner
              ∧ top100 st'
                = top100 st
                  ++ [TopRow repo owner (rd_position_cur r)
                             (rd_position_prev r) stars watchers forks
                             open_issues language])).
Proof.
  unfold upsert_top_100_repo. intros H%except_postgres_ok.
  open_encoded H repo Hrepo. open_encoded H stars Hstars.
  open_encoded H watchers Hwatchers. open_encoded H forks Hforks.
  open_encoded H open_issues Hissues. open_encoded H language Hlanguage.
  open_execute H status Hupd.
  apply run_update_top100_ok in Hupd as [(Hhit & -> & ->)|(Hhit & Hupd)];
    simpl in Hhit.
  - (* no row matched: the insert runs *)
    simpl in H. open_encoded H owner Howner. open_execute H status Hins.
    apply ret_ok in H as [_ ->].
    apply run_insert_top100_ok in Hins
      as (name & o & s & w & f & i & -> & -> & -> & -> & -> & -> & Hfree & ->).
    simpl in Hfree. apply top_key_free_spec in Hfree.
    exists name, s, w, f, i, language.
    split_and!; auto using as_text_some, as_int_some.
    + simpl. eexists. rewrite <-(assoc_L (++)). split; [done|].
      repeat constructor.
    + right. split; [done|]. exists o. split; [by apply as_text_some|done].
  - (* rows matched: they are rewritten in place *)
    destruct Hupd as (s & w & f & i & -> & -> & -> & -> & -> & ->).
    rewrite update_status in H.
    rewrite bool_decide_eq_false_2 in H
      by (by intros ?%length_zero_iff_nil).
    apply ret_ok in H as [_ ->].
    destruct repo as [name|]; [|by rewrite hit_null in Hhit].
    exists name, s, w, f, i, language.
    split_and!; auto using as_text_some, as_int_some.
    + simpl. eexists. split; [done|]. repeat constructor.
    + left. split; [|done].
      destruct (decide (name ∈ names_of (top100 st))) as [|Hn]; [done|].
      by apply hit_nil in Hn.
Qed.

(** ** The upsert loop of the top100 reconciliation *)

Lemma settled_more kept seen r row :
  settled kept seen row → rd_repo r ≠ JStr (t_repo row) →
  settled kept (seen ++ [r]) row.
Proof.
  intros [[Hk Hn]|[(old & r0 & ? & ? & ?)|(r0 & ? & ?)]] Hne.
  - left. split; [done|]. unfold ranked in *. rewrite fmap_app, elem_of_app.
    intros [?|Hr%list_elem_of_singleton]; [done|]. by apply Hne.
  - right. left. exists old, r0. set_solver.
  - right. right. exists r0. set_solver.
Qed.

Lemma upsert_settled fault encode_error kept seen r st st' :
  rd_repo r ∉ map rd_repo seen →
  Forall (settled kept seen) (top100 st) →
  names_of kept ⊆ names_of (top100 st) →
  upsert_top_100_repo fault encode_error r st = (Ok (), st') →
  Forall (settled kept (seen ++ [r])) (top100 st')
  ∧ names_of kept ⊆ names_of (top100 st').
Proof.
  intros Hnew Hst Hsub
    (repo & s & w & f & i & lang & Hrepo & Hs & Hw & Hf & Hi & Hl & _ & _
     & Hcase)%upsert_top_100_repo_ok.
  assert (∀ row, row ∈ top100 st → t_repo row ≠ repo →
                 settled kept (seen ++ [r]) row) as Hother.
  { intros row Hrow Hne. apply settled_more.
    - rewrite Forall_forall in Hst. by apply Hst.
    - rewrite Hrepo. congruence. }
  destruct Hcase as [[Hin ->]|(Hfree & owner & Ho & ->)].
  - split.
    + apply Forall_forall. intros row' (row & -> & Hrow)%list_elem_of_fmap.
      destruct (String.eqb (t_repo row) repo) eqn:E.
      * apply String.eqb_eq in E.
        rewrite Forall_forall in Hst.
        destruct (Hst row Hrow)
          as [[Hk Hn]|[(old & r0 & _ & Hr0 & _ & _ & Hrow0)
                      |(r0 & Hr0 & _ & _ & Hrow0)]].
        -- right. left. exists row, r. repeat split; simpl; try done.
           ++ set_solver.
           ++ by rewrite E.
        -- exfalso. apply Hnew. apply list_elem_of_fmap. exists r0.
           split; [|done]. destruct Hrow0 as [-> _]. by rewrite E.
        -- exfalso. apply Hnew. apply list_elem_of_fmap. exists r0.
           split; [|done]. destruct Hrow0 as [-> _]. by rewrite E.
      * apply String.eqb_neq in E. by apply Hother.
    + intros n Hn%Hsub. unfold names_of in *. rewrite <-list_fmap_compose.
      apply list_elem_of_fmap in Hn as (row & -> & Hrow).
      apply list_elem_of_fmap. exists row. split; [|done]. simpl.
      by destruct (String.eqb (t_repo row) repo).
  - split.
    + apply Forall_app. split.
      * apply Forall_forall. intros row Hrow. apply Hother; [done|].
        intros <-. apply Hfree. unfold names_of. apply list_elem_of_fmap.
        eauto.
      * apply Forall_singleton. right. right. exists r.
        repeat split; simpl; try done; [set_solver|].
        intros Hk%Hsub. done.
    + unfold names_of. rewrite fmap_app. set_solver.
Qed.

Lemma upserts_settled fault encode_error kept todo : ∀ seen st st',
  NoDup (map rd_repo (seen ++ todo)) →
  Forall (settled kept seen) (top100 st) →
  names_of kept ⊆ names_of (top100 st) →
  for_each (upsert_top_100_repo fault encode_error) todo st = (Ok (), st') →
  Forall (settled kept (seen ++ todo)) (top100 st').
Proof.
  induction todo as [|r todo IH]; intros seen st st' Hnd Hst Hsub; simpl.
  - intros [= <-]. by rewrite app_nil_r.
  - intros (st1 & Hr & H)%for_each_cons_ok.
    assert (rd_repo r ∉ map rd_repo seen) as Hnew.
    { rewrite fmap_app in Hnd. apply NoDup_app in Hnd as (_ & Hd & _).
      intros Hin. apply (Hd _ Hin). by left. }
    destruct (upsert_settled _ _ _ _ _ _ _ Hnew Hst Hsub Hr) as [Hst1 Hsub1].
    replace (seen ++ r :: todo) with ((seen ++ [r]) ++ todo)
      by (by rewrite <-(assoc_L (++))).
    eapply IH; [|done..].
    by rewrite <-(assoc_L (++)).
Qed.

Lemma names_of_rewritten (g : top_row → top_row) rows :
  (∀ row, t_repo (g row) = t_repo row) → names_of (map g rows) = names_of rows.
Proof.
  intros Hg. unfold names_of. rewrite <-list_fmap_compose.
  apply list_fmap_ext. intros _ row _. apply Hg.
Qed.

Lemma upsert_names fault encode_error r st st' :
  upsert_top_100_repo fault encode_error r st = (Ok (), st') →
  ∃ repo,
    rd_repo r = JStr repo
    ∧ ∀ n, n ∈ names_of (top100 st') ↔ n ∈ names_of (top100 st) ∨ n = repo.
Proof.
  intros (repo & s & w & f & i & lang & Hrepo & _ & _ & _ & _ & _ & _ & _
          & Hcase)%upsert_top_100_repo_ok.
  exists repo. split; [done|]. intros n.
  destruct Hcase as [[Hin Heq]|(Hfree & owner & _ & Heq)]; rewrite Heq.
  - rewrite names_of_rewritten.
    + split; [auto|]. by intros [?| ->].
    + intros row. simpl. by destruct (String.eqb (t_repo row) repo).
  - unfold names_of. rewrite fmap_app, elem_of_app. simpl.
    by rewrite list_elem_of_singleton.
Qed.

(** What the loop does to the set of names, the log and [activity]. *)
Lemma upserts_names fault encode_error todo : ∀ st st',
  for_each (upsert_top_100_repo fault encode_error) todo st = (Ok (), st') →
  Forall (λ r, ∃ name, rd_repo r = JStr name) todo
  ∧ (∀ n, n ∈ names_of (top100 st')
          ↔ n ∈ names_of (top100 st) ∨ ranked n todo)
  ∧ (∃ stmts, log st' = log st ++ stmts ∧ Forall is_top100_upsert stmts)
  ∧ activity st' = activity st.
Proof.
  induction todo as [|r todo IH]; intros st st'; simpl.
  - intros [= <-]. split_and!; [done| |by exists []; rewrite app_nil_r|done].
    intros n. unfold ranked. set_solver.
  - intros (st1 & Hr & H)%for_each_cons_ok.
    destruct (upsert_names _ _ _ _ _ Hr) as (repo & Hrepo & Hn1).
    apply upsert_top_100_repo_ok in Hr
      as (_ & _ & _ & _ & _ & _ & _ & _ & _ & _ & _ & _ & Hact
          & (stmts & Hlog & Hstmts) & _).
    destruct (IH _ _ H) as (Hall & Hnames & (stmts' & Hlog' & Hstmts') & Hact').
    split_and!; [constructor; eauto| | |congruence].
    + intros n. rewrite Hnames, Hn1. unfold ranked.
      rewrite fmap_cons, elem_of_cons, Hrepo.
      split; [intros [[?| ->]|?]|intros [?|[[= ->]|?]]]; auto.
    + exists (stmts ++ stmts'). rewrite Hlog', Hlog, <-(assoc_L (++)).
      split; [done|]. by apply Forall_app.
Qed.

(** ** The delete of the top100 reconciliation *)

Lemma sql_not_in_spec x xs :
  sql_not_in x xs = true ↔ (None ∉ xs) ∧ (Some x ∉ xs).
Proof.
  unfold sql_not_in. rewrite forallb_forall. split.
  - intros H. split; intros Hin%list_elem_of_In%H; [done|].
    by rewrite String.eqb_refl in Hin.
  - intros [Hnull Hx] [s|] Hin%list_elem_of_In; [|done].
    apply negb_true_iff, String.eqb_neq. by intros <-.
Qed.

Lemma hash_key_str v s : hash_key v = Ok (KStr s) ↔ v = JStr s.
Proof. destruct v as [|[]| | | |]; simpl; split; congruence. Qed.

Lemma hash_key_none v : hash_key v = Ok KNone ↔ v = JNull.
Proof. destruct v as [|[]| | | |]; simpl; split; congruence. Qed.

Lemma key_as_text_some k s : key_as_text k = Some (Some s) ↔ k = KStr s.
Proof. destruct k; simpl; split; congruence. Qed.

Lemma key_as_text_none k : key_as_text k = Some None ↔ k = KNone.
Proof. destruct k; simpl; split; congruence. Qed.

Lemma Forall2_elem_of_r {A B} (P : A → B → Prop) l k y :
  Forall2 P l k → y ∈ k → ∃ x, x ∈ l ∧ P x y.
Proof.
  induction 1 as [|x y' l k Hxy _ IH]; [by intros ?%elem_of_nil|].
  intros [->|Hy]%elem_of_cons; [exists x; split; [by left|done]|].
  destruct (IH Hy) as (x' & ? & ?). exists x'. split; [by right|done].
Qed.

Lemma Forall2_elem_of_l {A B} (P : A → B → Prop) l k x :
  Forall2 P l k → x ∈ l → ∃ y, y ∈ k ∧ P x y.
Proof.
  induction 1 as [|x' y l k Hxy _ IH]; [by intros ?%elem_of_nil|].
  intros [->|Hx]%elem_of_cons; [exists y; split; [by left|done]|].
  destruct (IH Hx) as (y' & ? & ?). exists y'. split; [by right|done].
Qed.

(** The argument of the delete holds the names of the ranking, and a
    [NULL] only if the ranking has a null name. *)
Lemma delete_argument repos keys names :
  mapM (λ r, hash_key (rd_repo r)) repos = Ok keys →
  mapM key_as_text (elements (list_to_set keys : gset pykey)) = Some names →
  (∀ x, Some x ∈ names ↔ ranked x repos)
  ∧ (None ∈ names → ∃ r, r ∈ repos ∧ rd_repo r = JNull).
Proof.
  intros Hkeys%mapM_res_ok Hnames%mapM_Some. split; [intros x; split|].
  - intros Hx. destruct (Forall2_elem_of_r _ _ _ _ Hnames Hx) as (k & Hk & Hkx).
    apply key_as_text_some in Hkx as ->.
    apply elem_of_elements, elem_of_list_to_set in Hk.
    destruct (Forall2_elem_of_r _ _ _ _ Hkeys Hk) as (r & Hr & Hrx).
    apply hash_key_str in Hrx. unfold ranked. apply list_elem_of_fmap. eauto.
  - intros (r & Hx & Hr)%list_elem_of_fmap.
    destruct (Forall2_elem_of_l _ _ _ _ Hkeys Hr) as (k & Hk & Hrk).
    symmetry in Hx. apply hash_key_str in Hx. rewrite Hx in Hrk.
    injection Hrk as <-.
    assert (KStr x ∈ elements (list_to_set keys : gset pykey)) as Hel.
    { by apply elem_of_elements, elem_of_list_to_set. }
    destruct (Forall2_elem_of_l _ _ _ _ Hnames Hel) as (y & Hy & Hky).
    simpl in Hky. by injection Hky as <-.
  - intros Hx. destruct (Forall2_elem_of_r _ _ _ _ Hnames Hx) as (k & Hk & Hkx).
    apply key_as_text_none in Hkx as ->.
    apply elem_of_elements, elem_of_list_to_set in Hk.
    destruct (Forall2_elem_of_r _ _ _ _ Hkeys Hk) as (r & Hr & Hrx).
    apply hash_key_none in Hrx. eauto.
Qed.

Lemma reconcile_top100_ok fault encode_error repos st st' :
  reconcile_top100 fault encode_error repos st = (Ok (), st') →
  ∃ names,
    (∀ x, Some x ∈ names ↔ ranked x repos)
    ∧ (None ∈ names → ∃ r, r ∈ repos ∧ rd_repo r = JNull)
    ∧ for_each (upsert_top_100_repo fault encode_error) repos
        (Store (filter (λ r, ¬ sql_not_in (t_repo r) names) (top100 st))
               (activity st) (log st ++ [DeleteTop100NotIn names]))
      = (Ok (), st').
Proof.
  unfold reconcile_top100. intros H.
  apply bind_ok in H as (keys & st1 & [Hkeys ->]%lift_ok & H).
  apply bind_ok in H as (names & st1 & [Hnames ->]%encoded_ok & H).
  apply bind_ok in H as (status & st1 & Hdel & H).
  apply execute_ok in Hdel as (_ & rows1 & rows2 & Hdel).
  simpl in Hdel. injection Hdel as _ _ _ <-.
  exists names. destruct (delete_argument _ _ _ Hkeys Hnames) as [Hs Hn].
  done.
Qed.

(** ** The Rank Fetcher *)

Lemma repo_record_prev num repo r :
  repo_record num repo = Ok r → rd_position_prev r = None.
Proof.
  unfold repo_record. intros H.
  repeat match type of H with
  | (?m ≫= _) = Ok _ => destruct m; simpl in H; [|done]
  end.
  by injection H as <-.
Qed.

Lemma repo_records_prev items : ∀ num repos,
  repo_records num items = Ok repos →
  Forall (λ r, rd_position_prev r = None) repos.
Proof.
  induction items as [|repo items IH]; intros num repos; simpl.
  - by intros [= <-].
  - destruct (repo_record num repo) as [r|] eqn:Hr; [|done]. simpl.
    destruct (repo_records (num + 1) items) as [rs|] eqn:Hrs; [|done]. simpl.
    intros [= <-]. constructor; [by eapply repo_record_prev|by eapply IH].
Qed.

Lemma fetch_top100_repos_prev search_repos repos :
  fetch_top100_repos search_repos = Ok repos →
  Forall (λ r, rd_position_prev r = None) repos.
Proof.
  unfold fetch_top100_repos.
  destruct search_repos as [result|]; [|done]. simpl.
  destruct (contains "items" result) as [[]|]; simpl; [|by intros [= <-]|done].
  destruct (getitem result "items") as [items|]; [|done]. simpl.
  destruct (py_iter items) as [elems|]; [|done]. simpl.
  apply repo_records_prev.
Qed.

(** ** The top100 reconciliation *)

Lemma kept_ranked repos names row (rows : list top_row) :
  (∀ x, Some x ∈ names ↔ ranked x repos) →
  (None ∈ names → ∃ r, r ∈ repos ∧ rd_repo r = JNull) →
  Forall (λ r, ∃ name, rd_repo r = JStr name) repos →
  row ∈ filter (λ r, ¬ sql_not_in (t_repo r) names) rows →
  ranked (t_repo row) repos.
Proof.
  intros Hs Hn Hstr [Hrow _]%list_elem_of_filter.
  apply Hs. destruct (decide (Some (t_repo row) ∈ names)) as [|Hx]; [done|].
  exfalso. apply Hrow, Is_true_true, sql_not_in_spec. split; [|done].
  intros (r & Hr & Hnull)%Hn. rewrite Forall_forall in Hstr.
  destruct (Hstr r Hr) as [name Hname]. congruence.
Qed.

Lemma ranked_kept repos names row (rows : list top_row) :
  (∀ x, Some x ∈ names ↔ ranked x repos) →
  row ∈ rows → ranked (t_repo row) repos →
  row ∈ filter (λ r, ¬ sql_not_in (t_repo r) names) rows.
Proof.
  intros Hs Hrow Hr%Hs. apply list_elem_of_filter. split; [|done].
  intros Hni%Is_true_true%sql_not_in_spec. by destruct Hni.
Qed.

(** C1. After [update_top100_in_db] has completed, the full names in
    [top100] are exactly those of the fetched ranking; the log of the
    connection shows the delete first, with exactly the names of the
    ranking as its argument, followed by upserts only. *)
Theorem top100_names_are_the_ranking fault encode_error search_repos repos st
    st' :
  fetch_top100_repos search_repos = Ok repos →
  update_top100_in_db fault encode_error search_repos st = (Ok (), st') →
  (∀ name, name ∈ names_of (top100 st') ↔ ranked name repos)
  ∧ ∃ names upserts,
      log st' = log st ++ DeleteTop100NotIn names :: upserts
      ∧ (∀ name, Some name ∈ names ↔ ranked name repos)
      ∧ (None ∉ names)
      ∧ Forall is_top100_upsert upserts.
Proof.
  intros Hfetch H. unfold update_top100_in_db in H.
  apply bind_ok in H as (repos' & st1 & [Hf ->]%lift_ok & H).
  rewrite Hfetch in Hf. injection Hf as <-.
  apply reconcile_top100_ok in H as (names & Hs & Hn & H).
  apply upserts_names in H as (Hstr & Hnames & (stmts & Hlog & Hstmts) & _).
  simpl in *. split.
  - intros name. rewrite Hnames. split; [|by right].
    intros [(row & -> & Hrow)%list_elem_of_fmap|?]; [|done].
    by eapply kept_ranked.
  - exists names, stmts. split_and!; [|done| |done].
    + by rewrite Hlog, <-(assoc_L (++)).
    + intros (r & Hr & Hnull)%Hn. rewrite Forall_forall in Hstr.
      destruct (Hstr r Hr) as [name Hname]. congruence.
Qed.

Lemma top100_names_are_the_ranking_witness :
  (∀ name, name ∈ names_of (top100 table_ab) ↔ ranked name repos_ab)
  ∧ ∃ names upserts,
      log table_ab = log table_ac ++ DeleteTop100NotIn names :: upserts
      ∧ (∀ name, Some name ∈ names ↔ ranked name repos_ab)
      ∧ (None ∉ names)
      ∧ Forall is_top100_upsert upserts.
Proof.
  apply (top100_names_are_the_ranking no_fault DataError ranking_ab);
    vm_compute; reflexivity.
Defined.

(** C2, as amended. When the fetched ranking lists no full name twice,
    every row that [update_top100_in_db] leaves for a ranked name carries the
    rank and metrics of its record; its [position_prev] is the
    [position_cur] a prior row of that name had when the name was in the
    table before, and null when it was not. *)
Theorem position_prev_is_the_prior_rank fault encode_error search_repos repos
    st st' name :
  fetch_top100_repos search_repos = Ok repos →
  update_top100_in_db fault encode_error search_repos st = (Ok (), st') →
  NoDup (map rd_repo repos) →
  ranked name repos →
  (∃ row, row ∈ top100 st' ∧ t_repo row = name)
  ∧ ∀ row, row ∈ top100 st' → t_repo row = name →
      (∃ r, r ∈ repos ∧ row_of r row)
      ∧ (name ∈ names_of (top100 st) →
         ∃ old, old ∈ top100 st ∧ t_repo old = name
                ∧ t_position_prev row = Some (t_position_cur old))
      ∧ (name ∉ names_of (top100 st) → t_position_prev row = None).
Proof.
  intros Hfetch H Hnd Hname. unfold update_top100_in_db in H.
  apply bind_ok in H as (repos' & st1 & [Hf ->]%lift_ok & H).
  rewrite Hfetch in Hf. injection Hf as <-.
  apply fetch_top100_repos_prev in Hfetch as Hprev.
  rewrite Forall_forall in Hprev.
  apply reconcile_top100_ok in H as (names & Hs & Hn & H).
  set (kept := filter (λ r, ¬ sql_not_in (t_repo r) names) (top100 st)) in *.
  split.
  - apply upserts_names in H as (_ & Hnames & _).
    assert (name ∈ names_of (top100 st')) as Hin by (apply Hnames; by right).
    apply list_elem_of_fmap in Hin as (row & -> & Hrow). eauto.
  - apply (upserts_settled _ _ kept _ []) in H; simpl; [|done| |done].
    2:{ apply Forall_forall. intros row Hrow. left. split; [done|].
        unfold ranked. simpl. by intros ?%elem_of_nil. }
    simpl in H. rewrite Forall_forall in H.
    intros row Hrow <-.
    destruct (H row Hrow)
      as [[_ Hno]|[(old & r & Hold & Hr & Heq & Hp & Hof)
                  |(r & Hr & Hfree & Hp & Hof)]]; [done| |].
    + apply list_elem_of_filter in Hold as [_ Hold].
      split_and!; [by eauto|by eauto|].
      intros Hout. exfalso. apply Hout. rewrite <-Heq.
      unfold names_of. apply list_elem_of_fmap. eauto.
    + split_and!; [by eauto| |by intros _; rewrite Hp; apply Hprev].
      intros (old & Heq & Hold)%list_elem_of_fmap. exfalso. apply Hfree.
      rewrite Heq. unfold names_of. apply list_elem_of_fmap. exists old.
      split; [done|]. eapply ranked_kept; [done..|]. by rewrite <-Heq.
Qed.

Lemma position_prev_is_the_prior_rank_witness :
  (∃ row, row ∈ top100 table_ab ∧ t_repo row = "a/x")
  ∧ ∀ row, row ∈ top100 table_ab → t_repo row = "a/x" →
      (∃ r, r ∈ repos_ab ∧ row_of r row)
      ∧ ("a/x" ∈ names_of (top100 table_ac) →
         ∃ old, old ∈ top100 table_ac ∧ t_repo old = "a/x"
                ∧ t_position_prev row = Some (t_position_cur old))
      ∧ ("a/x" ∉ names_of (top100 table_ac) → t_position_prev row = None).
Proof.
  apply (position_prev_is_the_prior_rank no_fault DataError ranking_ab).
  - vm_compute. reflexivity.
  - vm_compute. reflexivity.
  - simpl. apply NoDup_cons. split; [|apply NoDup_singleton].
    by intros [=]%list_elem_of_singleton.
  - unfold ranked. simpl. by left.
Defined.

(** C2 as stated fails on a ranking that lists a full name twice: the
    second upsert of a name copies the rank the first one wrote. The name
    "a/x" was in the table at rank 7 and ends with the previous rank 1;
    the name "b/y" is new and ends with the previous rank 3. *)
Lemma position_prev_after_a_repeated_name :
  (update_top100_in_db no_fault DataError ranking_twice table_a).1 = Ok ()
  ∧ top100 (update_top100_in_db no_fault DataError ranking_twice table_a).2
    = [TopRow "a/x" "a" 2 (Some 1) 90 90 12 3 None;
       TopRow "b/y" "b" 4 (Some 3) 80 80 12 3 None].
Proof. vm_compute. split; reflexivity. Qed.

(** ** What a computation sends to the store *)

Lemma run_stmt_log s st : log (run_stmt s st).2 = log st.
Proof.
  destruct s; simpl; try done.
  - destruct (filter _ (top100 st)); [done|].
    by destruct stars, watchers, forks, open_issues.
  - destruct repo, owner, stars, watchers, forks, open_issues; try done.
    by destruct (top_key_free _ _).
  - by destruct (activity_key_free _ _ _ _).
Qed.

Lemma sends_only_ret {A} P (x : A) : sends_only P (mret x).
Proof.
  intros st r st' [= <- <-]. exists []. by rewrite app_nil_r.
Qed.

Lemma sends_only_raise {A} P e : sends_only P (raise e : M A).
Proof.
  intros st r st' [= <- <-]. exists []. by rewrite app_nil_r.
Qed.

Lemma sends_only_encoded {A B} P encode_error (arg : option A)
    (f : A → M B) :
  (∀ x, arg = Some x → sends_only P (f x)) →
  sends_only P (encoded encode_error arg ≫= f).
Proof.
  intros H st r st'. destruct arg as [x|].
  - by apply (H x).
  - intros [= <- <-]. exists []. by rewrite app_nil_r.
Qed.

Lemma sends_only_lift_ok {A B} P (x : A) (f : A → M B) :
  sends_only P (f x) → sends_only P (lift (Ok x) ≫= f).
Proof. intros H st r st' Hrun. by apply (H st r st'). Qed.

Lemma sends_only_bind {A B} P (m : M A) (f : A → M B) :
  sends_only P m → (∀ a, sends_only P (f a)) → sends_only P (m ≫= f).
Proof.
  intros Hm Hf st r st'. unfold mbind, M_bind.
  destruct (m st) as [[a|e] st1] eqn:E.
  - intros Hfa. destruct (Hm _ _ _ E) as (l1 & Hl1 & HP1).
    destruct (Hf a _ _ _ Hfa) as (l2 & Hl2 & HP2).
    exists (l1 ++ l2). rewrite Hl2, Hl1, <-(assoc_L (++)).
    split; [done|]. by apply Forall_app.
  - intros [= <- <-]. eapply Hm. done.
Qed.

Lemma sends_only_except {A} P (m : M A) (f : string → exn) :
  sends_only P m → sends_only P (except_postgres m (λ e, raise (f e))).
Proof.
  intros Hm st r st'. unfold except_postgres, raise.
  destruct (m st) as [[a|e] st1] eqn:E.
  - intros [= <- <-]. by eapply Hm.
  - destruct (Hm _ _ _ E) as (l & Hl & HP).
    destruct e; intros [= <- <-]; eauto.
Qed.

Lemma sends_only_send fault P s : P s → sends_only P (send fault s).
Proof.
  intros Hs st r st'. unfold send.
  destruct (fault (length (log st))).
  - intros [= <- <-]. exists [s]. split; [done|]. by constructor.
  - intros H. exists [s]. split; [|by constructor].
    change (log st ++ [s]) with (log (sent s st)).
    rewrite <-(run_stmt_log s (sent s st)). by rewrite H.
Qed.

Lemma sends_only_execute fault P s : P s → sends_only P (execute fault s).
Proof.
  intros Hs. apply sends_only_bind; [by apply sends_only_send|].
  intros a. apply sends_only_ret.
Qed.

Lemma sends_only_for_each {A} P (body : A → M ()) l :
  Forall (λ x, sends_only P (body x)) l → sends_only P (for_each body l).
Proof.
  induction 1 as [|x l Hx _ IH]; simpl; [apply sends_only_ret|].
  apply sends_only_bind; [done|]. by intros _.
Qed.

(** ** The activity reconciliation *)

Section ActivitySync.
Variables (fault : nat → bool) (encode_error : exn).
Variable isoformat_day : string → option string.
Variable strptime_day : string → option date.
Variable list_commits : string → string → string → string → Z → res json.

Local Abbreviation upsert_activity :=
  (upsert_repo_activity fault encode_error).
Local Abbreviation upsert_one := (upsert_day fault encode_error strptime_day).
Local Abbreviation sync :=
  (update_activity_in_db fault encode_error isoformat_day strptime_day
                         list_commits).
Local Abbreviation batch :=
  (refresh_activity fault encode_error isoformat_day strptime_day
                    list_commits).

Lemma upsert_repo_activity_sends owner repo d commits authors :
  1 ≤ commits → authors ≠ [] →
  sends_only activity_write_filled
             (upsert_activity owner repo d commits authors).
Proof.
  intros Hc Ha. unfold upsert_repo_activity. apply sends_only_except.
  apply sends_only_encoded. intros authors' E.
  assert (authors' ≠ []) as Ha'.
  { apply length_mapM in E. intros ->. by destruct authors. }
  apply sends_only_bind; [by apply sends_only_execute|]. intros status.
  destruct (String.eqb status "UPDATE 0"); [|apply sends_only_ret].
  apply sends_only_bind; [by apply sends_only_execute|]. intros _.
  apply sends_only_ret.
Qed.

Lemma upsert_day_sends owner repo item :
  bucket_filled item →
  sends_only activity_write_filled (upsert_one owner repo item).
Proof.
  intros [Hc Ha]. unfold upsert_day.
  destruct (strptime_day item.1); [|apply sends_only_raise].
  apply upsert_repo_activity_sends; [done|].
  by intros ?%elements_empty_inv%leibniz_equiv.
Qed.

Lemma update_activity_in_db_sends fuel owner repo since until st r st' :
  sync fuel owner repo since until st = Some (r, st') →
  ∃ stmts, log st' = log st ++ stmts ∧ Forall activity_write_filled stmts.
Proof.
  unfold update_activity_in_db.
  destruct (fetch_commits _ _ _ _ _ _) as [f|]; [|done].
  intros [= H]. revert st r st' H.
  change (sends_only activity_write_filled
            (daily_stats ← lift (aggregate_commits_by_day isoformat_day
                                   (f_commits f));
             for_each (upsert_one owner repo) daily_stats)).
  destruct (aggregate_commits_by_day isoformat_day (f_commits f))
    as [daily_stats|e] eqn:E.
  - apply sends_only_lift_ok, sends_only_for_each.
    apply (aggregate_loop_filled _ _ [] _ (Forall_nil_2 _)) in E.
    eapply Forall_impl; [exact E|]. intros item. apply upsert_day_sends.
  - intros st r st' [= <- <-]. exists []. by rewrite app_nil_r.
Qed.

(** C10. Every bucket the Aggregator returns has counted at least one
    commit and holds at least one author; so every write that
    [update_activity_in_db] sends carries a positive count and a non-empty
    author list, and a fetch without commits sends nothing. *)
Theorem day_buckets_are_never_empty :
  (∀ commits daily_stats,
     aggregate_commits_by_day isoformat_day commits = Ok daily_stats →
     Forall bucket_filled daily_stats)
  ∧ (∀ fuel owner repo since until st r st',
       sync fuel owner repo since until st = Some (r, st') →
       ∃ stmts, log st' = log st ++ stmts
                ∧ Forall activity_write_filled stmts)
  ∧ (∀ fuel owner repo since until st f,
       fetch_commits list_commits fuel owner repo since until = Some f →
       f_commits f = [] →
       sync fuel owner repo since until st = Some (Ok (), st)).
Proof.
  split_and!.
  - intros commits daily_stats H.
    by apply (aggregate_loop_filled isoformat_day commits []).
  - apply update_activity_in_db_sends.
  - intros fuel owner repo since until st f Hf Hnil.
    unfold update_activity_in_db. by rewrite Hf, Hnil.
Qed.

(** ** Failures of the store during the activity sync *)


(** ** The Paginated Fetcher *)

Lemma full_page_goes_on request page result items n fuel commits :
  request page = Ok result →
  truthy result = true →
  py_iter result = Ok items →
  py_len result = Ok n →
  per_page ≤ n →
  fetch_commits_loop (S fuel) request page commits
  = match fetch_commits_loop fuel request (page + 1) (commits ++ items) with
    | Some (r, pages) => Some (r, page :: pages)
    | None => None
    end.
Proof.
  intros Hreq Htrue Hiter Hlen Hn. simpl.
  rewrite Hreq, Htrue, Hiter, Hlen. simpl.
  by destruct (Z.ltb_spec n per_page); [lia|].
Qed.

Lemma full_array_goes_on request page items fuel commits :
  request page = Ok (JArr items) →
  Z.of_nat (length items) = per_page →
  fetch_commits_loop (S fuel) request page commits
  = match fetch_commits_loop fuel request (page + 1) (commits ++ items) with
    | Some (r, pages) => Some (r, page :: pages)
    | None => None
    end.
Proof.
  intros Hreq Hlen.
  apply (full_page_goes_on _ _ (JArr items) items per_page); try done.
  - by destruct items.
  - simpl. by rewrite Hlen.
Qed.

Lemma fetch_commits_loop_raises request e (n : nat) : ∀ fuel page commits,
  (∀ j, page ≤ j < page + Z.of_nat n → full_page (request j)) →
  request (page + Z.of_nat n) = Raise e →
  fetch_commits_loop (S n + fuel) request page commits
  = Some (Raise e, seqZ page (Z.of_nat n + 1)).
Proof.
  induction n as [|n IH]; intros fuel page commits Hfull Hraise.
  - simpl. rewrite Z.add_0_r in Hraise. by rewrite Hraise.
  - destruct (Hfull page)
      as (result & items & len & Hreq & Ht & Hi & Hl & Hlen); [lia|].
    change (S (S n) + fuel)%nat with (S (S n + fuel)).
    rewrite (full_page_goes_on _ _ result items len) by done.
    rewrite IH.
    + rewrite (seqZ_cons page) by lia.
      replace (Z.succ page) with (page + 1) by lia.
      by replace (Z.pred (Z.of_nat (S n) + 1)) with (Z.of_nat n + 1) by lia.
    + intros j Hj. apply Hfull. lia.
    + rewrite <-Hraise. f_equal. lia.
Qed.

(** C5. When a page request raises, after any number of full pages, the
    fetch returns no commits at all and has printed the cause; the activity
    sync of that repository then returns normally with the store as it
    was, and the loop of [refresh_data] goes on with the next repository. *)
Theorem fetch_failure_yields_no_commits fuel owner repo since until (k : nat)
    e st :
  (∀ j, 1 ≤ j < 1 + Z.of_nat k →
        full_page (list_commits owner repo since until j)) →
  list_commits owner repo since until (1 + Z.of_nat k) = Raise e →
  (k < fuel)%nat →
  fetch_commits list_commits fuel owner repo since until
  = Some (Fetched [] (seqZ 1 (Z.of_nat k + 1)) [(owner, repo, e)])
  ∧ sync fuel owner repo since until st = Some (Ok (), st)
  ∧ ∀ record records before,
      t_owner record = owner →
      split_once (t_repo record) = Some (before, repo) →
      batch fuel since until (record :: records) st
      = batch fuel since until records st.
Proof.
  intros Hfull Hraise Hfuel.
  assert (fetch_commits list_commits fuel owner repo since until
          = Some (Fetched [] (seqZ 1 (Z.of_nat k + 1)) [(owner, repo, e)]))
    as Hfetch.
  { unfold fetch_commits.
    replace fuel with (S k + (fuel - S k))%nat by lia.
    by rewrite (fetch_commits_loop_raises _ e k). }
  assert (sync fuel owner repo since until st = Some (Ok (), st)) as Hsync.
  { unfold update_activity_in_db. by rewrite Hfetch. }
  split_and!; [done..|].
  intros record records before Howner Hsplit. simpl.
  by rewrite Hsplit, Howner, Hsync.
Qed.

(** C6. With full pages 1, 2 and 3 and an empty page 4, the fetch ends
    after asking for the pages 1, 2, 3 and 4, in that order, and returns
    the records of the three pages: three times [per_page] of them. *)
Theorem three_full_pages_take_four_requests fuel owner repo since until
    p1 p2 p3 :
  list_commits owner repo since until 1 = Ok (JArr p1) →
  list_commits owner repo since until 2 = Ok (JArr p2) →
  list_commits owner repo since until 3 = Ok (JArr p3) →
  list_commits owner repo since until 4 = Ok (JArr []) →
  Z.of_nat (length p1) = per_page →
  Z.of_nat (length p2) = per_page →
  Z.of_nat (length p3) = per_page →
  (4 ≤ fuel)%nat →
  fetch_commits list_commits fuel owner repo since until
  = Some (Fetched (p1 ++ p2 ++ p3) [1; 2; 3; 4] [])
  ∧ Z.of_nat (length (p1 ++ p2 ++ p3)) = 3 * per_page.
Proof.
  intros H1 H2 H3 H4 L1 L2 L3 Hfuel. split.
  - unfold fetch_commits.
    destruct fuel as [|[|[|[|fuel']]]]; [lia..|].
    rewrite (full_array_goes_on _ 1 p1) by done.
    rewrite (full_array_goes_on _ (1 + 1) p2) by done.
    rewrite (full_array_goes_on _ (1 + 1 + 1) p3) by done.
    simpl. change (1 + 1 + 1 + 1) with 4. rewrite H4. simpl.
    by rewrite <-(assoc_L (++)).
  - rewrite !length_app. lia.
Qed.
End ActivitySync.

(** *** The claims at an example *)

Local Abbreviation sync_example fault list_commits :=
  (update_activity_in_db fault DataError github_day ymd_date list_commits).
Local Abbreviation batch_example fault list_commits :=
  (refresh_activity fault DataError github_day ymd_date list_commits).

Lemma day_buckets_are_never_empty_witness :
  Forall bucket_filled [("2024-01-01", DayStats 2 {[KStr "Unknown"]})]
  ∧ (∃ stmts,
       log (sent (UpdateActivity "a" "x" (Date 2024 1 1) 1 [Some "Alice"])
                 table_ac)
       = log table_ac ++ stmts
       ∧ Forall activity_write_filled stmts)
  ∧ sync_example no_fault second_page_fails 2 "a" "x" since_str until_str
                 table_ac
    = Some (Ok (), table_ac).
Proof.
  destruct (day_buckets_are_never_empty first_fails DataError github_day
              ymd_date two_days) as (Hfilled & Hsends & _).
  destruct (day_buckets_are_never_empty no_fault DataError github_day
              ymd_date second_page_fails) as (_ & _ & Hnone).
  split_and!.
  - apply (Hfilled [commit_record "2024-01-01T10:00:00Z" None;
                    commit_record "2024-01-01T23:59:59Z" None]).
    apply (two_commits_one_day github_day _ _ _ (JStr "Unknown"));
      by vm_compute.
  - apply (Hsends 1%nat "a" "x" since_str until_str table_ac
             (Raise statement_failed)).
    vm_compute. reflexivity.
  - apply (Hnone 2%nat "a" "x" since_str until_str table_ac
             (Fetched [] [1; 2]
                      [("a", "x", ProviderFailure "502 Bad Gateway")]));
      reflexivity.
Defined.


Lemma fetch_failure_yields_no_commits_witness :
  fetch_commits second_page_fails 5 "a" "x" since_str until_str
  = Some (Fetched [] (seqZ 1 (Z.of_nat 1 + 1))
                  [("a", "x", ProviderFailure "502 Bad Gateway")])
  ∧ sync_example no_fault second_page_fails 5 "a" "x" since_str until_str
                 table_ac
    = Some (Ok (), table_ac)
  ∧ ∀ record records before,
      t_owner record = "a" →
      split_once (t_repo record) = Some (before, "x") →
      batch_example no_fault second_page_fails 5 since_str until_str
                    (record :: records) table_ac
      = batch_example no_fault second_page_fails 5 since_str until_str
                      records table_ac.
Proof.
  apply (fetch_failure_yields_no_commits no_fault DataError github_day
           ymd_date second_page_fails 5 "a" "x" since_str until_str 1
           (ProviderFailure "502 Bad Gateway") table_ac).
  - intros j Hj. assert (j = 1) as -> by lia.
    eexists _, _, _. split_and!; [reflexivity..|]. done.
  - reflexivity.
  - lia.
Defined.

Lemma three_full_pages_take_four_requests_witness :
  fetch_commits three_full_pages 4 "a" "x" since_str until_str
  = Some (Fetched
            (full_page_of_alice ++ full_page_of_alice ++ full_page_of_alice)
            [1; 2; 3; 4] [])
  ∧ Z.of_nat (length (full_page_of_alice ++ full_page_of_alice
                      ++ full_page_of_alice))
    = 3 * per_page.
Proof.
  apply (three_full_pages_take_four_requests three_full_pages 4 "a" "x"
           since_str until_str);
    reflexivity.
Defined.

(** ** Claims on the Rank Fetcher *)

Lemma repo_record_ok num repo r :
  repo_record num repo = Ok r →
  getitem repo "full_name" = Ok (rd_repo r)
  ∧ (∃ owner, getitem repo "owner" = Ok owner
              ∧ getitem owner "login" = Ok (rd_owner r))
  ∧ getitem repo "stargazers_count" = Ok (rd_stars r)
  ∧ getitem repo "watchers_count" = Ok (rd_watchers r)
  ∧ getitem repo "forks_count" = Ok (rd_forks r)
  ∧ getitem repo "open_issues_count" = Ok (rd_open_issues r)
  ∧ getitem repo "language" = Ok (rd_language r)
  ∧ rd_position_cur r = num
  ∧ rd_position_prev r = None.
Proof.
  unfold repo_record. intros H.
  destruct (getitem repo "full_name") as [full_name|]; [|done].
  destruct (getitem repo "owner") as [owner|]; [|done].
  cbn [mbind res_bind] in H.
  destruct (getitem owner "login") as [login|] eqn:Hlogin; [|done].
  destruct (getitem repo "stargazers_count") as [stars|]; [|done].
  destruct (getitem repo "watchers_count") as [watchers|]; [|done].
  destruct (getitem repo "forks_count") as [forks|]; [|done].
  destruct (getitem repo "open_issues_count") as [open_issues|]; [|done].
  destruct (getitem repo "language") as [language|]; [|done].
  cbn [mbind res_bind] in H. injection H as <-. simpl.
  split_and!; eauto.
Qed.


Lemma fetch_items fields items :
  assoc "items" fields = Some (JArr items) →
  fetch_top100_repos (Ok (JObj fields)) = repo_records 1 items.
Proof.
  intros H. unfold fetch_top100_repos. cbn [mbind res_bind contains getitem].
  rewrite H. by rewrite bool_decide_eq_true_2 by eauto.
Qed.



(** ** Claims on the activity endpoint *)

(** C9. A request with [since > until] is answered with the 400 error and
    the store is not touched: no statement is sent. *)
Theorem inverted_range_is_rejected fault owner repo since until st :
  date_gt since until = true →
  get_repo_activity fault owner repo since until st
  = (Raise (HTTPException 400 "`since` не может быть больше `until`"), st).
Proof. intros H. unfold get_repo_activity. by rewrite H. Qed.

Lemma inverted_range_is_rejected_witness :
  get_repo_activity first_fails "o" "r" (Date 2024 3 10) (Date 2024 3 5)
                    table_ac
  = (Raise (HTTPException 400 "`since` не может быть больше `until`"),
     table_ac).
Proof.
  apply (inverted_range_is_rejected first_fails "o" "r" (Date 2024 3 10)
           (Date 2024 3 5) table_ac).
  reflexivity.
Defined.

(** * Further properties of the code *)

Section DictMore.
Context {V : Type}.
Implicit Types (d : dict V) (k : string) (v : V).

Lemma dict_get_Some_elem k v d : dict_get k d = Some v → (k, v) ∈ d.
Proof.
  unfold dict_get. induction d as [|[k' v'] d IH]; simpl; [done|].
  destruct (String.eqb k' k) eqn:E.
  - apply String.eqb_eq in E. subst k'. intros [= ->]. by left.
  - intros H. right. by apply IH.
Qed.

Lemma dict_get_is_Some k d : is_Some (dict_get k d) ↔ k ∈ keys d.
Proof.
  unfold dict_get, keys. induction d as [|[k' v'] d IH]; simpl.
  - split; [by intros [? ?]|by intros ?%elem_of_nil].
  - destruct (String.eqb k' k) eqn:E.
    + apply String.eqb_eq in E. subst k'. split; [left|eauto].
    + apply String.eqb_neq in E. rewrite IH, elem_of_cons. naive_solver.
Qed.

Lemma keys_dict_set_present k v d :
  is_Some (dict_get k d) → keys (dict_set k v d) = keys d.
Proof.
  unfold dict_get, keys. induction d as [|[k' v'] d IH]; simpl.
  - by intros [? ?].
  - destruct (String.eqb k' k) eqn:E; simpl; [done|].
    intros H. by rewrite IH.
Qed.
End DictMore.

Section AggregatorMore.
Variable isoformat_day : string → option string.
Local Abbreviation step := (aggregate_step isoformat_day).
Local Abbreviation loop := (aggregate_loop isoformat_day).
Local Abbreviation aggregate := (aggregate_commits_by_day isoformat_day).
Local Abbreviation well_formed := (well_formed_commit isoformat_day).

(** A record that one turn of the loop accepts is well formed. *)
Lemma commit_day_inv c day :
  commit_day isoformat_day c = Ok day →
  ∃ commit author s,
    getitem c "commit" = Ok commit
    ∧ getitem commit "author" = Ok (JObj author)
    ∧ assoc "date" author = Some (JStr s)
    ∧ isoformat_day (replace_Z s) = Some day.
Proof.
  unfold commit_day. intros H.
  destruct (getitem c "commit") as [commit|] eqn:Hc; [|done].
  cbn [mbind res_bind] in H.
  destruct (getitem commit "author") as [author|] eqn:Ha; [|done].
  cbn [mbind res_bind] in H.
  destruct author as [| | | | |author]; try done.
  unfold getitem at 1 in H.
  destruct (assoc "date" author) as [v|] eqn:Hd; [|done].
  cbn [mbind res_bind] in H.
  destruct v as [| | |s| |]; try done.
  cbn [mbind res_bind str_replace_Z] in H.
  destruct (isoformat_day (replace_Z s)) as [day'|] eqn:Hs; [|done].
  injection H as ->. by exists commit, author, s.
Qed.

Lemma step_well_formed d c d' : step d c = Ok d' → well_formed c = true.
Proof.
  intros (day & name & a & Hday & Hname & Ha & _)%aggregate_step_ok.
  apply commit_day_inv in Hday as (commit & author & s & Hc & Hau & Hd & Hs).
  unfold well_formed_commit. rewrite Hc, Hau, Hd, Hs.
  rewrite bool_decide_eq_true_2 by eauto. simpl.
  assert (author ≠ []) as Hne by (intros ->; done).
  rewrite (commit_author_name_obj c commit author) in Hname by done.
  injection Hname as <-.
  destruct (assoc "name" author); [|done]. unfold hashable. simpl in Ha.
  by rewrite Ha.
Qed.

Lemma loop_well_formed commits : ∀ d d',
  loop commits d = Ok d' → Forall (λ c, well_formed c = true) commits.
Proof.
  induction commits as [|c commits IH]; intros d d'; simpl; [done|].
  destruct (step d c) as [d1|] eqn:Hstep; [|done]. simpl.
  intros H. constructor; [by eapply step_well_formed|by eapply IH].
Qed.

(** X1. The Aggregator returns a mapping exactly when every record is
    well formed: an object whose [commit.author] is an object with a [date]
    string that parses and, if it has a [name], a hashable one. On any
    other list it raises. *)
Theorem aggregation_accepts_well_formed_records_only commits :
  is_ok (aggregate commits) = true
  ↔ Forall (λ c, well_formed c = true) commits.
Proof.
  split.
  - unfold aggregate_commits_by_day.
    destruct (loop commits []) as [d|] eqn:H; [|done].
    intros _. by eapply loop_well_formed.
  - apply well_formed_loop.
Qed.


(** What one turn does to the count of a day. *)
Lemma step_day_count d c d' day :
  step d c = Ok d' →
  day_count day d'
  = day_count day d + (if on_day isoformat_day day c then 1 else 0).
Proof.
  intros (day_c & name & a & Hday & _ & _ & ->)%aggregate_step_ok.
  unfold on_day, day_count. rewrite Hday.
  destruct (String.eqb_spec day_c day) as [->|Hne].
  - destruct (dict_get day d) as [b|] eqn:Hb.
    + by rewrite dict_get_set_eq.
    + by rewrite <-(dict_set_absent _ _ _ Hb), dict_get_set_eq.
  - destruct (dict_get day_c d) as [b|] eqn:Hb.
    + rewrite dict_get_set_ne by done. lia.
    + rewrite <-(dict_set_absent _ _ _ Hb), dict_get_set_ne by done. lia.
Qed.

Lemma loop_day_count commits day : ∀ d d',
  loop commits d = Ok d' →
  day_count day d'
  = day_count day d
    + Z.of_nat (length (filter (λ c, on_day isoformat_day day c) commits)).
Proof.
  induction commits as [|c commits IH]; intros d d'; simpl.
  - intros [= ->]. lia.
  - destruct (step d c) as [d1|] eqn:Hstep; [|done]. simpl.
    intros Hloop. rewrite (IH _ _ Hloop), (step_day_count _ _ _ day Hstep).
    rewrite filter_cons. destruct (on_day isoformat_day day c).
    + rewrite decide_True by done. simpl length. lia.
    + rewrite decide_False by auto. lia.
Qed.

(** What one turn does to the keys: a new day goes to the end. *)
Lemma step_keys d c d' :
  step d c = Ok d' →
  ∃ day, commit_day isoformat_day c = Ok day
         ∧ keys d' = if decide (day ∈ keys d) then keys d else keys d ++ [day].
Proof.
  intros (day & name & a & Hday & _ & _ & ->)%aggregate_step_ok.
  exists day. split; [done|].
  destruct (dict_get day d) as [b|] eqn:Hb.
  - rewrite decide_True by (apply dict_get_is_Some; eauto).
    apply keys_dict_set_present. eauto.
  - rewrite decide_False.
    + unfold keys. by rewrite map_app.
    + intros [? H]%dict_get_is_Some. congruence.
Qed.

Lemma loop_keys commits : ∀ d d',
  loop commits d = Ok d' →
  (∃ new, keys d' = keys d ++ new)
  ∧ (NoDup (keys d) → NoDup (keys d'))
  ∧ ∀ day, day ∈ keys d'
           ↔ day ∈ keys d
             ∨ ∃ c, c ∈ commits ∧ commit_day isoformat_day c = Ok day.
Proof.
  induction commits as [|c commits IH]; intros d d'; simpl.
  - intros [= ->]. split_and!; [exists []; by rewrite app_nil_r|done|].
    intros day. split; [auto|]. by intros [?|(c & ?%elem_of_nil & _)].
  - destruct (step d c) as [d1|] eqn:Hstep; [|done]. simpl.
    intros Hloop. destruct (IH _ _ Hloop) as ((new & Hnew) & Hnd & Hin).
    apply step_keys in Hstep as (day_c & Hday & Hk).
    split_and!.
    + destruct (decide (day_c ∈ keys d)); rewrite Hk in Hnew; [eauto|].
      exists (day_c :: new). by rewrite Hnew, <-(assoc_L (++)).
    + intros Hd. apply Hnd. rewrite Hk. destruct (decide _); [done|].
      apply NoDup_app. split_and!; [done| |apply NoDup_singleton].
      by intros x Hx ->%list_elem_of_singleton.
    + intros day. rewrite Hin, Hk. split.
      * intros [H|(c' & Hc' & Hd')].
        -- destruct (decide _); [auto|].
           apply elem_of_app in H as [? | ->%list_elem_of_singleton]; [auto|].
           right. exists c. split; [by left|done].
        -- right. exists c'. split; [by right|done].
      * intros [H|(c' & [->|Hc']%elem_of_cons & Hd')].
        -- left. destruct (decide _); [done|]. apply elem_of_app. auto.
        -- left. rewrite Hday in Hd'. injection Hd' as ->.
           destruct (decide _); [done|]. apply elem_of_app. right. by left.
        -- right. eauto.
Qed.

(** X2. The count of a day in the mapping is the number of records that
    fall on that day, and a day is a key of the mapping exactly when some
    record falls on it. *)
Theorem day_count_is_the_number_of_its_commits commits daily_stats day :
  aggregate commits = Ok daily_stats →
  day_count day daily_stats
  = Z.of_nat (length (filter (λ c, on_day isoformat_day day c) commits))
  ∧ (day ∈ keys daily_stats
     ↔ ∃ c, c ∈ commits ∧ commit_day isoformat_day c = Ok day).
Proof.
  intros H. split.
  - by rewrite (loop_day_count _ day _ _ H).
  - destruct (loop_keys _ _ _ H) as (_ & _ & Hin). rewrite Hin.
    split; [|auto]. by intros [?%elem_of_nil|?].
Qed.

(** What one turn does to the authors of a day. *)
Lemma step_authors d c d' day b' a :
  step d c = Ok d' →
  dict_get day d' = Some b' →
  a ∈ authors b'
  ↔ (∃ b, dict_get day d = Some b ∧ a ∈ authors b)
    ∨ (commit_day isoformat_day c = Ok day ∧ author_key c = Ok a).
Proof.
  intros (day_c & name & a_c & Hday & Hname & Ha & ->)%aggregate_step_ok.
  unfold author_key. rewrite Hday, Hname. cbn [mbind res_bind]. rewrite Ha.
  destruct (decide (day_c = day)) as [->|Hne].
  - destruct (dict_get day d) as [b|] eqn:Hb.
    + rewrite dict_get_set_eq. intros [= <-]. simpl.
      rewrite elem_of_union, elem_of_singleton. split.
      * intros [? | ->]; [left; eauto|by right].
      * intros [(b0 & [= <-] & ?)|[_ [= ->]]]; auto.
    + rewrite <-(dict_set_absent _ _ _ Hb), dict_get_set_eq. intros [= <-].
      simpl. rewrite elem_of_union, elem_of_singleton. split.
      * intros [?%elem_of_empty | ->]; [done|by right].
      * intros [(b0 & ? & _)|[_ [= ->]]]; [done|auto].
  - destruct (dict_get day_c d) as [b|] eqn:Hb.
    + rewrite dict_get_set_ne by done. intros Hb'. split.
      * intros ?. left. eauto.
      * intros [(b0 & Hb0 & ?)|[[= ?] _]]; [|done]. congruence.
    + rewrite <-(dict_set_absent _ _ _ Hb), dict_get_set_ne by done.
      intros Hb'. split.
      * intros ?. left. eauto.
      * intros [(b0 & Hb0 & ?)|[[= ?] _]]; [|done]. congruence.
Qed.

Lemma step_key_stays d c d' day :
  step d c = Ok d' → is_Some (dict_get day d) → is_Some (dict_get day d').
Proof.
  intros (day_c & Hday & Hk)%step_keys. rewrite !dict_get_is_Some, Hk.
  destruct (decide _); [done|]. intros ?. apply elem_of_app. auto.
Qed.

Lemma loop_authors commits day a : ∀ d d' b',
  loop commits d = Ok d' →
  dict_get day d' = Some b' →
  a ∈ authors b'
  ↔ (∃ b, dict_get day d = Some b ∧ a ∈ authors b)
    ∨ ∃ c, c ∈ commits ∧ commit_day isoformat_day c = Ok day
           ∧ author_key c = Ok a.
Proof.
  induction commits as [|c commits IH]; intros d d' b'; simpl.
  - intros [= ->] Hb. split.
    + intros ?. left. eauto.
    + intros [(b & Hb0 & ?)|(c & ?%elem_of_nil & _)]; [|done]. congruence.
  - destruct (step d c) as [d1|] eqn:Hstep; [|done]. simpl.
    intros Hloop Hb'. rewrite (IH _ _ _ Hloop Hb'). split.
    + intros [(b1 & Hb1 & Hin)|(c' & Hc' & Hd' & Ha')].
      * apply (step_authors _ _ _ _ _ a Hstep Hb1) in Hin as [?|[? ?]];
          [by left|].
        right. exists c. split; [by left|done].
      * right. exists c'. split; [by right|done].
    + intros [(b & Hb & Hin)|(c' & [->|Hc']%elem_of_cons & Hd' & Ha')].
      * destruct (step_key_stays _ _ _ day Hstep) as [b1 Hb1]; [eauto|].
        left. exists b1. split; [done|].
        apply (step_authors _ _ _ _ _ a Hstep Hb1). left. eauto.
      * assert (is_Some (dict_get day d1)) as [b1 Hb1].
        { apply dict_get_is_Some.
          apply step_keys in Hstep as (day_c & Hday & ->).
          rewrite Hd' in Hday. injection Hday as <-.
          destruct (decide _); [done|]. apply elem_of_app. right. by left. }
        left. exists b1. split; [done|].
        apply (step_authors _ _ _ _ _ a Hstep Hb1). by right.
      * right. eauto.
Qed.

(** X3. The author set of a day holds exactly the author keys of the
    records that fall on that day. *)
Theorem day_authors_are_those_of_its_commits commits daily_stats day bucket a :
  aggregate commits = Ok daily_stats →
  dict_get day daily_stats = Some bucket →
  a ∈ authors bucket
  ↔ ∃ c, c ∈ commits ∧ commit_day isoformat_day c = Ok day
         ∧ author_key c = Ok a.
Proof.
  intros H Hb. rewrite (loop_authors _ _ _ _ _ _ H Hb).
  split; [|auto]. by intros [(b & ? & _)|?].
Qed.

Lemma loop_app l1 l2 d :
  loop (l1 ++ l2) d = (loop l1 d ≫= loop l2).
Proof.
  revert d. induction l1 as [|c l1 IH]; intros d; simpl; [done|].
  destruct (step d c) as [d1|]; [|done]. simpl. apply IH.
Qed.

(** X4. Every day is a key once, and the keys stand in the order in which
    their first records arrive: a day seen before the first record of
    another day is listed before it. *)
Theorem days_are_listed_once_in_arrival_order commits daily_stats :
  aggregate commits = Ok daily_stats →
  NoDup (keys daily_stats)
  ∧ ∀ earlier c later day1 day2,
      commits = earlier ++ c :: later →
      commit_day isoformat_day c = Ok day1 →
      Forall (λ c', on_day isoformat_day day2 c' = false) (earlier ++ [c]) →
      Exists (λ c', on_day isoformat_day day2 c' = true) later →
      ∃ k1 k2 k3, keys daily_stats = k1 ++ day1 :: k2 ++ day2 :: k3.
Proof.
  intros H. split.
  { destruct (loop_keys _ _ _ H) as (_ & Hnd & _). apply Hnd, NoDup_nil_2. }
  intros earlier c later day1 day2 -> Hday1 Hnot Hlater.
  unfold aggregate_commits_by_day in H.
  rewrite (cons_middle c), (assoc_L (++)), loop_app in H.
  destruct (loop (earlier ++ [c]) []) as [d1|] eqn:H1; [|done].
  simpl in H.
  destruct (loop_keys _ _ _ H1) as (_ & _ & Hin1).
  destruct (loop_keys _ _ _ H) as ((new & Hnew) & _ & Hin).
  assert (day1 ∈ keys d1) as (k1 & k2 & Hk)%list_elem_of_split.
  { apply Hin1. right. exists c. split; [|done]. apply elem_of_app.
    right. by left. }
  assert (day2 ∉ keys d1) as Hnot2.
  { intros [?%elem_of_nil|(c' & Hc' & Hd')]%Hin1; [done|].
    rewrite Forall_forall in Hnot. specialize (Hnot _ Hc').
    unfold on_day in Hnot. rewrite Hd', String.eqb_refl in Hnot. done. }
  assert (day2 ∈ new) as (n1 & n2 & ->)%list_elem_of_split.
  { apply Exists_exists in Hlater as (c' & Hc' & Hd').
    unfold on_day in Hd'.
    destruct (commit_day isoformat_day c') as [day'|] eqn:E; [|done].
    apply String.eqb_eq in Hd'. subst day'.
    assert (day2 ∈ keys daily_stats) as Hk2 by (apply Hin; eauto).
    rewrite Hnew in Hk2. by apply elem_of_app in Hk2 as [?|?]. }
  exists k1, (k2 ++ n1), n2. rewrite Hnew, Hk.
  by rewrite <-!(assoc_L (++)).
Qed.

(** The first record that cannot be read ends the aggregation. *)
Lemma step_raises d c e :
  commit_day isoformat_day c = Raise e → step d c = Raise e.
Proof. intros H. unfold aggregate_step. by rewrite H. Qed.

Lemma loop_raises before c after e d :
  Forall (λ c, well_formed c = true) before →
  commit_day isoformat_day c = Raise e →
  loop (before ++ c :: after) d = Raise e.
Proof.
  intros Hwf Hc. rewrite loop_app.
  pose proof (well_formed_loop isoformat_day before d Hwf) as Hok.
  destruct (loop before d) as [d1|]; [|done]. simpl.
  by rewrite (step_raises _ _ e).
Qed.

End AggregatorMore.

Section Pagination.
Variable list_commits : string → string → string → string → Z → res json.

Lemma fetch_commits_loop_pages request (pages : list (list json)) last :
  ∀ fuel page commits,
    (∀ (i : nat) items,
       pages !! i = Some items →
       request (page + Z.of_nat i) = Ok (JArr items)
       ∧ per_page ≤ Z.of_nat (length items)) →
    request (page + Z.of_nat (length pages)) = Ok (JArr last) →
    Z.of_nat (length last) < per_page →
    fetch_commits_loop (S (length pages) + fuel) request page commits
    = Some (Ok (commits ++ concat pages ++ last),
            seqZ page (Z.of_nat (length pages) + 1)).
Proof.
  induction pages as [|items pages IH]; intros fuel page commits Hfull Hlast
    Hshort.
  - simpl in Hlast |- *. rewrite Z.add_0_r in Hlast. rewrite Hlast.
    destruct last as [|c last]; simpl; [by rewrite app_nil_r|].
    destruct (Z.ltb_spec (Z.of_nat (S (length last))) per_page); [done|].
    simpl in Hshort. lia.
  - destruct (Hfull 0%nat items) as [Hreq Hlen]; [done|].
    rewrite Z.add_0_r in Hreq.
    change (S (length (items :: pages)) + fuel)%nat
      with (S (S (length pages) + fuel)).
    rewrite (full_page_goes_on _ _ (JArr items) items
               (Z.of_nat (length items))); try done.
    + rewrite IH; [| |by rewrite <-Hlast; f_equal; simpl; lia|done].
      * rewrite (seqZ_cons page) by (simpl; lia).
        replace (Z.succ page) with (page + 1) by lia.
        replace (Z.pred (Z.of_nat (length (items :: pages)) + 1))
          with (Z.of_nat (length pages) + 1) by (simpl; lia).
        simpl. by rewrite <-!(assoc_L (++)).
      * intros i items' Hi.
        destruct (Hfull (S i) items') as [Hreq' Hlen']; [done|].
        split; [|done]. rewrite <-Hreq'. f_equal. lia.
    + destruct items; [|done]. simpl in Hlen. unfold per_page in Hlen. lia.
Qed.

(** X5. After any number of pages with at least [per_page] records and a
    page with fewer, the fetch returns the records of all these pages in
    order and has asked for exactly these pages, one request each. *)
Theorem fetch_returns_the_pages_up_to_the_first_short_one fuel owner repo
    since until (pages : list (list json)) last :
  (∀ (i : nat) items,
     pages !! i = Some items →
     list_commits owner repo since until (1 + Z.of_nat i) = Ok (JArr items)
     ∧ per_page ≤ Z.of_nat (length items)) →
  list_commits owner repo since until (1 + Z.of_nat (length pages))
  = Ok (JArr last) →
  Z.of_nat (length last) < per_page →
  (length pages < fuel)%nat →
  fetch_commits list_commits fuel owner repo since until
  = Some (Fetched (concat pages ++ last)
                  (seqZ 1 (Z.of_nat (length pages) + 1)) []).
Proof.
  intros Hfull Hlast Hshort Hfuel. unfold fetch_commits.
  replace fuel with (S (length pages) + (fuel - S (length pages)))%nat by lia.
  by rewrite (fetch_commits_loop_pages _ pages last).
Qed.

Lemma fetch_commits_loop_endless request : ∀ fuel page commits,
  (∀ j, page ≤ j → full_page (request j)) →
  fetch_commits_loop fuel request page commits = None.
Proof.
  induction fuel as [|fuel IH]; intros page commits Hfull; [done|].
  destruct (Hfull page) as (result & items & n & Hreq & Ht & Hi & Hl & Hn);
    [lia|].
  rewrite (full_page_goes_on _ _ result items n) by done.
  rewrite IH; [done|]. intros j Hj. apply Hfull. lia.
Qed.

(** X6. The fetch has no limit on the number of pages: when every page
    the provider answers is full, no number of turns of the loop reaches a
    [break]. *)
Theorem fetch_has_no_page_limit fuel owner repo since until :
  (∀ page, 1 ≤ page → full_page (list_commits owner repo since until page)) →
  fetch_commits list_commits fuel owner repo since until = None.
Proof.
  intros Hfull. unfold fetch_commits.
  by rewrite fetch_commits_loop_endless.
Qed.
End Pagination.

Lemma full_page_of_alice_full : full_page (Ok (JArr full_page_of_alice)).
Proof.
  exists (JArr full_page_of_alice), full_page_of_alice, 100.
  split_and!; try done.
Qed.

Lemma fetch_returns_the_pages_up_to_the_first_short_one_witness :
  fetch_commits two_pages_and_a_half 5 "a" "x" since_str until_str
  = Some (Fetched
            (concat [full_page_of_alice; full_page_of_alice]
             ++ [commit_record "2024-01-02T09:30:00Z" (Some (JStr "Bob"))])
            (seqZ 1 (Z.of_nat 2 + 1)) []).
Proof.
  apply (fetch_returns_the_pages_up_to_the_first_short_one
           two_pages_and_a_half 5 "a" "x" since_str until_str
           [full_page_of_alice; full_page_of_alice]); [|done|done|simpl; lia].
  intros [|[|i]] items [= <-]; by split.
Defined.

Lemma fetch_has_no_page_limit_witness :
  fetch_commits endless_pages 1000 "a" "x" since_str until_str = None.
Proof.
  apply (fetch_has_no_page_limit endless_pages).
  intros page _. apply full_page_of_alice_full.
Defined.

(** ** Relations that a run keeps *)

Section Keeps.
Context (R : relation store) `{!Reflexive R, !Transitive R}.

Lemma keeps_ret {A} (x : A) : keeps R (mret x).
Proof. by intros st r st' [= <- <-]. Qed.

Lemma keeps_raise {A} e : keeps R (raise e : M A).
Proof. by intros st r st' [= <- <-]. Qed.

Lemma keeps_lift {A} (x : res A) : keeps R (lift x).
Proof. by intros st r st' [= <- <-]. Qed.

Lemma keeps_encoded {A} encode_error (arg : option A) :
  keeps R (encoded encode_error arg).
Proof. destruct arg; [apply keeps_ret|apply keeps_raise]. Qed.

Lemma keeps_bind {A B} (m : M A) (f : A → M B) :
  keeps R m → (∀ a, keeps R (f a)) → keeps R (m ≫= f).
Proof.
  intros Hm Hf st r st'. unfold mbind, M_bind.
  destruct (m st) as [[a|e] st1] eqn:E.
  - intros Hfa. transitivity st1; [by eapply Hm|by eapply Hf].
  - intros [= <- <-]. by eapply Hm.
Qed.

Lemma keeps_encoded_bind {A B} encode_error (arg : option A) (f : A → M B) :
  (∀ x, arg = Some x → keeps R (f x)) →
  keeps R (encoded encode_error arg ≫= f).
Proof.
  intros H. destruct arg as [x|].
  - intros st r st'. by apply (H x).
  - by intros st r st' [= <- <-].
Qed.

Lemma keeps_except {A} (m : M A) (f : string → exn) :
  keeps R m → keeps R (except_postgres m (λ e, raise (f e))).
Proof.
  intros Hm st r st'. unfold except_postgres, raise.
  destruct (m st) as [[a|e] st1] eqn:E.
  - intros [= <- <-]. by eapply Hm.
  - destruct e; intros [= <- <-]; by eapply Hm.
Qed.

Lemma keeps_send fault s :
  (∀ st, R st (sent s st)) → (∀ st, R st (run_stmt s st).2) →
  keeps R (send fault s).
Proof.
  intros Hsent Hrun st r st'. unfold send.
  destruct (fault (length (log st))).
  - intros [= <- <-]. apply Hsent.
  - intros H. transitivity (sent s st); [apply Hsent|].
    specialize (Hrun (sent s st)). by rewrite H in Hrun.
Qed.

Lemma keeps_execute fault s :
  (∀ st, R st (sent s st)) → (∀ st, R st (run_stmt s st).2) →
  keeps R (execute fault s).
Proof.
  intros Hsent Hrun. apply keeps_bind; [by apply keeps_send|].
  intros a. apply keeps_ret.
Qed.

Lemma keeps_for_each {A} (body : A → M ()) l :
  (∀ x, keeps R (body x)) → keeps R (for_each body l).
Proof.
  intros Hbody. induction l as [|x l IH]; simpl; [apply keeps_ret|].
  apply keeps_bind; [done|]. by intros _.
Qed.
End Keeps.

(** Applying a lemma on [keeps], with the order properties of the relation
    found by instance search. *)
Ltac keep lem :=
  apply lem;
  try match goal with
      | |- Reflexive _ => apply _
      | |- Transitive _ => apply _
      end.

(** ** Statements on [activity] *)

Lemma activity_matches_eq owner repo d r :
  activity_matches owner repo d r = true
  ↔ a_owner r = owner ∧ a_repo r = repo ∧ a_date r = d.
Proof.
  unfold activity_matches.
  rewrite !andb_true_iff, !String.eqb_eq, bool_decide_eq_true. naive_solver.
Qed.

Lemma activity_matches_row owner repo d r :
  activity_matches owner repo d r = true →
  ∀ commits authors,
    ActivityRow (a_owner r) (a_repo r) (a_date r) commits authors
    = ActivityRow owner repo d commits authors.
Proof. by intros (-> & -> & ->)%activity_matches_eq. Qed.

Lemma activity_matches_new owner repo d commits authors :
  activity_matches owner repo d (ActivityRow owner repo d commits authors)
  = true.
Proof. by apply activity_matches_eq. Qed.

Section ActivityRows.
Variables (owner repo : string) (d : date) (commits : Z).
Variable authors : list (option string).
Implicit Types rows : list activity_row.

Local Abbreviation hit := (filter (λ r, activity_matches owner repo d r)).
Local Abbreviation miss := (filter (λ r, ¬ activity_matches owner repo d r)).
Local Abbreviation updated := (updated_activity owner repo d commits authors).
Local Abbreviation new_row := (ActivityRow owner repo d commits authors).

Lemma hit_nil_key_free rows :
  hit rows = [] ↔ activity_key_free owner repo d rows = true.
Proof.
  unfold activity_key_free. induction rows as [|r rows IH]; [done|].
  cbn [forallb map].
  rewrite filter_cons. destruct (activity_matches owner repo d r) eqn:E.
  - rewrite decide_True by done. simpl. split; done.
  - rewrite decide_False by (by intros []). simpl. done.
Qed.

Lemma hit_nil_updated rows : hit rows = [] → updated rows = rows.
Proof.
  unfold updated_activity. induction rows as [|r rows IH]; [done|].
  cbn [forallb map].
  rewrite filter_cons. destruct (activity_matches owner repo d r) eqn:E.
  - by rewrite decide_True by done.
  - rewrite decide_False by (by intros []). intros H. by rewrite IH.
Qed.

Lemma hit_updated rows :
  hit (updated rows) = replicate (length (hit rows)) new_row.
Proof.
  unfold updated_activity. induction rows as [|r rows IH]; [done|].
  cbn [forallb map].
  rewrite !filter_cons. destruct (activity_matches owner repo d r) eqn:E.
  - rewrite (activity_matches_row _ _ _ _ E), activity_matches_new.
    rewrite !decide_True by done. simpl. by rewrite IH.
  - rewrite E. rewrite !decide_False by (by intros []). done.
Qed.

Lemma miss_updated rows : miss (updated rows) = miss rows.
Proof.
  unfold updated_activity. induction rows as [|r rows IH]; [done|].
  cbn [forallb map].
  rewrite !filter_cons. destruct (activity_matches owner repo d r) eqn:E.
  - rewrite (activity_matches_row _ _ _ _ E), activity_matches_new.
    rewrite !decide_False by auto. done.
  - rewrite E. rewrite !decide_True by (by intros []). by rewrite IH.
Qed.

Lemma updated_keys rows :
  map activity_key (updated rows) = map activity_key rows.
Proof.
  unfold updated_activity. rewrite map_map. apply map_ext. intros r.
  by destruct (activity_matches owner repo d r).
Qed.

Lemma updated_twice rows : updated (updated rows) = updated rows.
Proof.
  unfold updated_activity. rewrite map_map. apply map_ext. intros r.
  destruct (activity_matches owner repo d r) eqn:E; [|by rewrite E].
  by rewrite (activity_matches_row _ _ _ _ E), activity_matches_new.
Qed.
End ActivityRows.

(** ** [upsert_repo_activity] *)

Section ActivityUpsert.
Variables (fault : nat → bool) (encode_error : exn).
Local Abbreviation upsert_activity :=
  (upsert_repo_activity fault encode_error).

(** What one upsert does when the server rejects nothing. *)
Lemma upsert_repo_activity_run owner repo d commits authors names st :
  mapM key_as_text authors = Some names →
  fault (length (log st)) = false →
  fault (S (length (log st))) = false →
  upsert_activity owner repo d commits authors st
  = (Ok (),
     match day_rows owner repo d st with
     | [] =>
         Store (top100 st)
               (activity st ++ [ActivityRow owner repo d commits names])
               (log st ++ [UpdateActivity owner repo d commits names;
                           InsertActivity owner repo d commits names])
     | _ :: _ =>
         Store (top100 st)
               (updated_activity owner repo d commits names (activity st))
               (log st ++ [UpdateActivity owner repo d commits names])
     end).
Proof.
  intros Hnames Hf1 Hf2.
  unfold upsert_repo_activity, except_postgres, execute, send, day_rows.
  rewrite Hnames. unfold mbind, M_bind, encoded, mret, M_ret.
  rewrite Hf1. cbn [run_stmt sent top100 activity log fst snd].
  fold (updated_activity owner repo d commits names (activity st)).
  rewrite update_status.
  destruct (filter _ (activity st)) as [|r hit] eqn:Hhit.
  - rewrite bool_decide_eq_true_2 by done.
    cbn [sent top100 activity log]. rewrite length_app, Nat.add_1_r, Hf2.
    cbn [run_stmt sent top100 activity log fst snd].
    rewrite (hit_nil_updated _ _ _ _ _ _ Hhit).
    apply hit_nil_key_free in Hhit. rewrite Hhit.
    by rewrite <-(assoc_L (++)).
  - by rewrite bool_decide_eq_false_2 by done.
Qed.

(** X7. When the server rejects nothing and the authors can be bound, an
    upsert of a day returns normally; afterwards every row of that
    repository and day carries the new count and authors, there are as
    many such rows as before, and one when there was none; the rows of
    other days and [top100] are as they were. *)
Theorem activity_upsert_writes_the_day owner repo d commits authors names st :
  mapM key_as_text authors = Some names →
  fault (length (log st)) = false →
  fault (S (length (log st))) = false →
  ∃ st',
    upsert_activity owner repo d commits authors st = (Ok (), st')
    ∧ day_rows owner repo d st'
      = replicate (length (day_rows owner repo d st) `max` 1)
                  (ActivityRow owner repo d commits names)
    ∧ other_days owner repo d st' = other_days owner repo d st
    ∧ top100 st' = top100 st.
Proof.
  intros Hnames Hf1 Hf2. eexists. split.
  { by apply upsert_repo_activity_run. }
  unfold day_rows, other_days.
  destruct (filter _ (activity st)) as [|r hit] eqn:Hhit;
    cbn [top100 activity].
  - split_and!; [| |done].
    + rewrite filter_app, Hhit, filter_cons, filter_nil.
      by rewrite decide_True by (by rewrite activity_matches_new).
    + rewrite filter_app, filter_cons, filter_nil.
      rewrite decide_False; [by rewrite app_nil_r|].
      rewrite activity_matches_new. auto.
  - split_and!; [| |done].
    + rewrite hit_updated, Hhit. f_equal. simpl. lia.
    + apply miss_updated.
Qed.

(** X8. The activity upsert is idempotent: a second upsert with the same
    arguments returns normally, sends one [UPDATE] and no [INSERT], and
    leaves both tables as the first one left them. *)
Theorem activity_upsert_is_idempotent owner repo d commits authors names st :
  mapM key_as_text authors = Some names →
  (∀ n, fault n = false) →
  ∃ st1 st2,
    upsert_activity owner repo d commits authors st = (Ok (), st1)
    ∧ upsert_activity owner repo d commits authors st1 = (Ok (), st2)
    ∧ activity st2 = activity st1
    ∧ top100 st2 = top100 st1
    ∧ log st2 = log st1 ++ [UpdateActivity owner repo d commits names].
Proof.
  intros Hnames Hfault. do 2 eexists. split_and!.
  - by apply upsert_repo_activity_run.
  - by apply upsert_repo_activity_run.
  - unfold day_rows.
    destruct (filter _ (activity st)) as [|r hit] eqn:Hhit;
      cbn [top100 activity log].
    + rewrite filter_app, Hhit, filter_cons, filter_nil.
      rewrite decide_True by (by rewrite activity_matches_new).
      cbn [app activity]. unfold updated_activity. rewrite map_app.
      fold (updated_activity owner repo d commits names (activity st)).
      rewrite (hit_nil_updated _ _ _ _ _ _ Hhit). simpl.
      by rewrite activity_matches_new.
    + rewrite hit_updated, Hhit. cbn [length replicate activity].
      apply updated_twice.
  - unfold day_rows.
    destruct (filter _ (activity st)) as [|r hit] eqn:Hhit;
      cbn [top100 activity log].
    + rewrite filter_app, Hhit, filter_cons, filter_nil.
      by rewrite decide_True by (by rewrite activity_matches_new).
    + by rewrite hit_updated, Hhit.
  - unfold day_rows.
    destruct (filter _ (activity st)) as [|r hit] eqn:Hhit;
      cbn [top100 activity log].
    + rewrite filter_app, Hhit, filter_cons, filter_nil.
      by rewrite decide_True by (by rewrite activity_matches_new).
    + by rewrite hit_updated, Hhit.
Qed.
End ActivityUpsert.

Global Instance same_activity_refl : Reflexive same_activity.
Proof. by intros st. Qed.
Global Instance same_activity_trans : Transitive same_activity.
Proof. unfold same_activity. intros st1 st2 st3 H1 H2. congruence. Qed.

Global Instance activity_grows_refl : Reflexive activity_grows.
Proof. intros st. unfold activity_grows. reflexivity. Qed.
Global Instance activity_grows_trans : Transitive activity_grows.
Proof. unfold activity_grows. intros st1 st2 st3 H1 H2. by etrans. Qed.

Global Instance touches_only_refl owner repo :
  Reflexive (touches_only owner repo).
Proof. intros st. split_and!; reflexivity. Qed.
Global Instance touches_only_trans owner repo :
  Transitive (touches_only owner repo).
Proof.
  intros st1 st2 st3 (Ht1 & Ho1 & Hg1) (Ht2 & Ho2 & Hg2).
  split_and!; [congruence..|by etrans].
Qed.

Lemma activity_matches_of_repo owner repo d r :
  activity_matches owner repo d r = true → of_repo owner repo r = true.
Proof.
  unfold activity_matches, of_repo. by intros [? _]%andb_true_iff.
Qed.

Lemma other_repos_updated owner repo d commits authors rows :
  filter (λ r, ¬ of_repo owner repo r)
         (updated_activity owner repo d commits authors rows)
  = filter (λ r, ¬ of_repo owner repo r) rows.
Proof.
  unfold updated_activity. induction rows as [|r rows IH]; [done|].
  cbn [map]. rewrite !filter_cons.
  destruct (activity_matches owner repo d r) eqn:E.
  - pose proof (activity_matches_of_repo _ _ _ _ E) as Hr.
    rewrite (activity_matches_row _ _ _ _ E).
    rewrite !decide_False; [done| |].
    + rewrite Hr. auto.
    + unfold of_repo. simpl. rewrite !String.eqb_refl. auto.
  - by rewrite IH.
Qed.

Section ActivityScope.
Variables (fault : nat → bool) (encode_error : exn).
Variable isoformat_day : string → option string.
Variable strptime_day : string → option date.
Variable list_commits : string → string → string → string → Z → res json.
Variables (owner repo : string).

Local Abbreviation sync :=
  (update_activity_in_db fault encode_error isoformat_day strptime_day
                         list_commits).

Lemma touches_only_sent s st : touches_only owner repo st (sent s st).
Proof. split_and!; [done..|by unfold activity_grows]. Qed.

Lemma touches_only_update d commits authors st :
  touches_only owner repo st
    (run_stmt (UpdateActivity owner repo d commits authors) st).2.
Proof.
  cbn [run_stmt snd].
  fold (updated_activity owner repo d commits authors (activity st)).
  split_and!; [done|apply other_repos_updated|].
  unfold activity_grows. cbn [activity]. by rewrite updated_keys.
Qed.

Lemma touches_only_insert d commits authors st :
  touches_only owner repo st
    (run_stmt (InsertActivity owner repo d commits authors) st).2.
Proof.
  cbn [run_stmt]. destruct (activity_key_free owner repo d (activity st));
    [|done].
  split_and!; [done| |].
  - unfold other_repos. cbn [snd activity].
    rewrite filter_app, filter_cons, filter_nil.
    rewrite decide_False; [by rewrite app_nil_r|].
    unfold of_repo. simpl. rewrite !String.eqb_refl. auto.
  - unfold activity_grows. cbn [snd activity]. rewrite map_app.
    by apply prefix_app_r.
Qed.

Lemma upsert_repo_activity_scope d commits authors :
  keeps (touches_only owner repo)
        (upsert_repo_activity fault encode_error owner repo d commits authors).
Proof.
  unfold upsert_repo_activity. keep keeps_except.
  keep keeps_bind; [keep keeps_encoded|]. intros names.
  keep keeps_bind.
  { keep keeps_execute; auto using touches_only_sent, touches_only_update. }
  intros status. destruct (String.eqb status "UPDATE 0"); [|keep keeps_ret].
  keep keeps_bind; [|intros _; keep keeps_ret].
  keep keeps_execute; auto using touches_only_sent, touches_only_insert.
Qed.

Lemma upsert_day_scope item :
  keeps (touches_only owner repo)
        (upsert_day fault encode_error strptime_day owner repo item).
Proof.
  unfold upsert_day. destruct (strptime_day item.1);
    [apply upsert_repo_activity_scope|keep keeps_raise].
Qed.

Lemma update_activity_in_db_scope fuel since until st r st' :
  sync fuel owner repo since until st = Some (r, st') →
  touches_only owner repo st st'.
Proof.
  unfold update_activity_in_db.
  destruct (fetch_commits _ _ _ _ _ _) as [f|]; [|done].
  intros [= H]. revert st r st' H.
  change (keeps (touches_only owner repo)
            (daily_stats ← lift (aggregate_commits_by_day isoformat_day
                                   (f_commits f));
             for_each (upsert_day fault encode_error strptime_day owner repo)
                      daily_stats)).
  keep keeps_bind; [keep keeps_lift|].
  intros daily_stats. keep keeps_for_each.
  apply upsert_day_scope.
Qed.

(** X9. However [update_activity_in_db] ends, it has left [top100] and the
    rows of other repositories as they were, and it has removed or moved
    no row of [activity] and changed the key of none. *)
Theorem activity_sync_touches_its_repository_only fuel since until st r st' :
  sync fuel owner repo since until st = Some (r, st') →
  top100 st' = top100 st
  ∧ other_repos owner repo st' = other_repos owner repo st
  ∧ activity_grows st st'.
Proof. apply update_activity_in_db_scope. Qed.
End ActivityScope.

Global Instance upsert_scope_refl v : Reflexive (upsert_scope v).
Proof. intros st. by split_and!. Qed.
Global Instance upsert_scope_trans v : Transitive (upsert_scope v).
Proof.
  intros st1 st2 st3 (Ha1 & Hi1 & Hf1) (Ha2 & Hi2 & Hf2).
  split_and!; [congruence|by etrans|congruence].
Qed.

Lemma named_as_sql_eq v repo row :
  as_text v = Some repo → sql_eq (t_repo row) repo = named_as v row.
Proof. destruct v; simpl; try done; by intros [= <-]. Qed.

Section Top100Scope.
Variables (fault : nat → bool) (encode_error : exn).

Lemma upsert_scope_sent v s st : upsert_scope v st (sent s st).
Proof. by split_and!. Qed.

(** The rows an [UPDATE top100] rewrites keep their identity, and the rows
    it does not match stay as they are. *)
Lemma rewritten_identity v cur s w f i language rows :
  map row_identity
      (map (λ r, if named_as v r then set_top_row cur s w f i language r
                 else r) rows)
  = map row_identity rows.
Proof.
  rewrite map_map. apply map_ext. intros r. by destruct (named_as v r).
Qed.

Lemma rewritten_others v cur s w f i language rows :
  filter (λ row, ¬ named_as v row)
         (map (λ r, if named_as v r then set_top_row cur s w f i language r
                    else r) rows)
  = filter (λ row, ¬ named_as v row) rows.
Proof.
  induction rows as [|r rows IH]; [done|]. cbn [map]. rewrite !filter_cons.
  destruct (named_as v r) eqn:E.
  - assert (named_as v (set_top_row cur s w f i language r) = true) as E'.
    { destruct v; try done. }
    rewrite E'. by rewrite !decide_False by auto.
  - by rewrite E, IH.
Qed.

Lemma upsert_scope_update v repo cur stars watchers forks open_issues language
    st :
  as_text v = Some repo →
  upsert_scope v st
    (run_stmt (UpdateTop100 repo cur stars watchers forks open_issues
                            language) st).2.
Proof.
  intros Hv. cbn [run_stmt].
  destruct (filter _ (top100 st)) as [|r0 hit]; [done|].
  destruct stars as [s|], watchers as [w|], forks as [f|],
    open_issues as [i|]; try done.
  cbn [snd]. unfold upsert_scope. cbn [top100 activity].
  rewrite (map_ext _ (λ r, if named_as v r
                           then set_top_row cur s w f i language r else r))
    by (intros r; by rewrite (named_as_sql_eq v repo)).
  by rewrite rewritten_identity, rewritten_others.
Qed.

Lemma upsert_scope_insert v repo owner cur prev stars watchers forks
    open_issues language st :
  as_text v = Some repo →
  upsert_scope v st
    (run_stmt (InsertTop100 repo owner cur prev stars watchers forks
                            open_issues language) st).2.
Proof.
  intros Hv. cbn [run_stmt].
  destruct repo as [name|], owner as [o|], stars as [s|], watchers as [w|],
    forks as [f|], open_issues as [i|]; try done.
  destruct (top_key_free name (top100 st)); [|done].
  cbn [snd]. unfold upsert_scope. cbn [top100 activity].
  split_and!; [done| |].
  - rewrite map_app. by apply prefix_app_r.
  - rewrite filter_app, filter_cons, filter_nil.
    rewrite decide_False; [by rewrite app_nil_r|].
    destruct v; try done. injection Hv as ->. simpl.
    rewrite String.eqb_refl. auto.
Qed.

(** X10. However [upsert_top_100_repo] ends, it has left [activity] and
    the rows named otherwise as they were, it has removed or moved no row,
    and it has changed the full name and the owner of none: the owner is
    written by the insert only. *)
Theorem top100_upsert_touches_its_own_rows_only r st res st' :
  upsert_top_100_repo fault encode_error r st = (res, st') →
  activity st' = activity st
  ∧ map row_identity (top100 st) `prefix_of` map row_identity (top100 st')
  ∧ filter (λ row, ¬ named_as (rd_repo r) row) (top100 st')
    = filter (λ row, ¬ named_as (rd_repo r) row) (top100 st).
Proof.
  revert st res st'.
  change (keeps (upsert_scope (rd_repo r))
                (upsert_top_100_repo fault encode_error r)).
  unfold upsert_top_100_repo. keep keeps_except.
  keep keeps_encoded_bind. intros repo Hrepo.
  do 5 (keep keeps_bind; [keep keeps_encoded|]; intros ?).
  keep keeps_bind.
  { keep keeps_execute; auto using upsert_scope_sent, upsert_scope_update. }
  intros status. destruct (String.eqb status "UPDATE 0"); [|keep keeps_ret].
  keep keeps_bind; [keep keeps_encoded|]. intros owner.
  keep keeps_bind; [|intros _; keep keeps_ret].
  keep keeps_execute; auto using upsert_scope_sent, upsert_scope_insert.
Qed.
End Top100Scope.

(** ** The reconciliation when the server rejects nothing *)

Section Top100Run.
Variables (fault : nat → bool) (encode_error : exn).
Hypothesis no_fault_at_all : ∀ n, fault n = false.

Lemma typed_record_inv r :
  typed_record r = true →
  ∃ name owner s w f i language,
    rd_repo r = JStr name ∧ rd_owner r = JStr owner ∧ rd_stars r = JNum s
    ∧ rd_watchers r = JNum w ∧ rd_forks r = JNum f
    ∧ rd_open_issues r = JNum i ∧ as_text (rd_language r) = Some language.
Proof.
  unfold typed_record. intros H.
  destruct (rd_repo r) as [| | |name| |]; try done.
  destruct (rd_owner r) as [| | |owner| |]; try done.
  destruct (rd_stars r) as [| |s| | |]; try done.
  destruct (rd_watchers r) as [| |w| | |]; try done.
  destruct (rd_forks r) as [| |f| | |]; try done.
  destruct (rd_open_issues r) as [| |i| | |]; try done.
  destruct (rd_language r) as [| | |l| |]; try done;
    by eexists name, owner, s, w, f, i, _.
Qed.

(** One upsert of a typed record: the rows of its name are rewritten, or,
    when there is none, its row is appended. *)
Lemma upsert_top_100_repo_run r name owner s w f i language st :
  rd_repo r = JStr name → rd_owner r = JStr owner → rd_stars r = JNum s →
  rd_watchers r = JNum w → rd_forks r = JNum f → rd_open_issues r = JNum i →
  as_text (rd_language r) = Some language →
  upsert_top_100_repo fault encode_error r st
  = (Ok (),
     let update :=
       UpdateTop100 (Some name) (rd_position_cur r) (Some s) (Some w) (Some f)
                    (Some i) language in
     match filter (λ row, sql_eq (t_repo row) (Some name)) (top100 st) with
     | [] =>
         Store (top100 st
                ++ [TopRow name owner (rd_position_cur r) (rd_position_prev r)
                           s w f i language])
               (activity st)
               (log st
                ++ [update;
                    InsertTop100 (Some name) (Some owner) (rd_position_cur r)
                                 (rd_position_prev r) (Some s) (Some w)
                                 (Some f) (Some i) language])
     | _ :: _ =>
         Store (map (λ row, if sql_eq (t_repo row) (Some name)
                            then set_top_row (rd_position_cur r) s w f i
                                             language row
                            else row) (top100 st))
               (activity st) (log st ++ [update])
     end).
Proof.
  intros Hrepo Howner Hs Hw Hf Hi Hl.
  unfold upsert_top_100_repo, except_postgres, execute, send.
  rewrite Hrepo, Howner, Hs, Hw, Hf, Hi, Hl.
  unfold mbind, M_bind, encoded, mret, M_ret, as_text, as_int.
  rewrite !no_fault_at_all. cbn [run_stmt sent top100 activity log fst snd].
  destruct (filter _ (top100 st)) as [|r0 hit] eqn:Hhit.
  - cbn [String.eqb Ascii.eqb Bool.eqb andb fst snd].
    rewrite no_fault_at_all. cbn [run_stmt sent top100 activity log fst snd].
    apply hit_nil, top_key_free_spec in Hhit. rewrite Hhit.
    by rewrite <-(assoc_L (++)).
  - cbn [fst snd]. rewrite update_status.
    by rewrite bool_decide_eq_false_2 by done.
Qed.

Lemma upserts_run repos : ∀ st,
  Forall (λ r, typed_record r = true) repos →
  ∃ st', for_each (upsert_top_100_repo fault encode_error) repos st
         = (Ok (), st').
Proof.
  induction repos as [|r repos IH]; intros st Hall; [by eexists|].
  apply Forall_cons in Hall as [Hr Hall].
  apply typed_record_inv in Hr
    as (name & owner & s & w & f & i & l & ? & ? & ? & ? & ? & ? & ?).
  cbn [for_each]. unfold mbind, M_bind.
  rewrite (upsert_top_100_repo_run r name owner s w f i l) by done.
  apply IH, Hall.
Qed.

Lemma typed_records_keys repos :
  Forall (λ r, typed_record r = true) repos →
  ∃ keys names,
    mapM (λ r, hash_key (rd_repo r)) repos = Ok keys
    ∧ mapM key_as_text (elements (list_to_set keys : gset pykey))
      = Some names.
Proof.
  intros Hall.
  assert (∃ keys, mapM (λ r, hash_key (rd_repo r)) repos = Ok keys
                  ∧ Forall (λ k, ∃ s, k = KStr s) keys) as (keys & Hk & Hstr).
  { induction Hall as [|r repos Hr _ (keys & Hk & Hstr)]; [by exists []|].
    apply typed_record_inv in Hr as (name & _ & _ & _ & _ & _ & _ & Hn & _).
    exists (KStr name :: keys). cbn [mapM]. rewrite Hn, Hk.
    split; [done|]. constructor; eauto. }
  exists keys.
  assert (is_Some (mapM key_as_text
                        (elements (list_to_set keys : gset pykey))))
    as [names Hnames]; [|by exists names].
  apply mapM_is_Some, Forall_forall.
  intros k Hin%elem_of_elements%elem_of_list_to_set.
  rewrite Forall_forall in Hstr. destruct (Hstr k Hin) as [s ->]. by eexists.
Qed.

(** X11. When every record of the ranking holds values of the types of
    the columns and the server rejects nothing, [update_top100_in_db]
    returns normally, also for a ranking that repeats a name. *)
Theorem ranking_sync_completes_unless_rejected search_repos repos st :
  fetch_top100_repos search_repos = Ok repos →
  Forall (λ r, typed_record r = true) repos →
  ∃ st', update_top100_in_db fault encode_error search_repos st = (Ok (), st').
Proof.
  intros Hfetch Hall.
  destruct (typed_records_keys repos Hall) as (keys & names & Hk & Hn).
  unfold update_top100_in_db, reconcile_top100, execute, send.
  rewrite Hfetch. unfold mbind at 1, M_bind at 1, lift at 1.
  unfold mbind at 1, M_bind at 1, lift. rewrite Hk.
  unfold mbind at 1, M_bind at 1, encoded. rewrite Hn.
  unfold mret at 1, M_ret at 1.
  unfold mbind, M_bind, mret, M_ret. rewrite no_fault_at_all.
  cbn [run_stmt fst snd].
  apply upserts_run, Hall.
Qed.
End Top100Run.

(** ** Upserts that raise *)

Section FailedUpserts.
Variables (fault : nat → bool) (encode_error : exn).

Lemma failed_activity_upsert owner repo d commits authors st e st' :
  upsert_repo_activity fault encode_error owner repo d commits authors st
  = (Raise e, st') →
  top100 st' = top100 st ∧ activity st' = activity st.
Proof.
  unfold upsert_repo_activity, except_postgres, execute, send.
  unfold mbind, M_bind, encoded, mret, M_ret, raise.
  destruct (mapM key_as_text authors) as [names|].
  2: { destruct encode_error; by intros [= _ <-]. }
  destruct (fault (length (log st))); [by intros [= _ <-]|].
  cbn [run_stmt sent top100 activity log fst snd].
  fold (updated_activity owner repo d commits names (activity st)).
  rewrite update_status.
  destruct (filter _ (activity st)) as [|r0 hit] eqn:Hhit.
  - rewrite bool_decide_eq_true_2 by done.
    rewrite (hit_nil_updated _ _ _ _ _ _ Hhit).
    destruct (fault _); [by intros [= _ <-]|].
    cbn [run_stmt sent top100 activity log fst snd].
    destruct (activity_key_free _ _ _ _); [done|]. by intros [= _ <-].
  - by rewrite bool_decide_eq_false_2 by done.
Qed.

Lemma failed_top100_upsert r st e st' :
  upsert_top_100_repo fault encode_error r st = (Raise e, st') →
  top100 st' = top100 st ∧ activity st' = activity st.
Proof.
  unfold upsert_top_100_repo, except_postgres, execute, send.
  unfold mbind, M_bind, encoded, mret, M_ret, raise.
  destruct (as_text (rd_repo r)) as [repo|];
    [|destruct encode_error; by intros [= _ <-]].
  destruct (as_int (rd_stars r)) as [stars|];
    [|destruct encode_error; by intros [= _ <-]].
  destruct (as_int (rd_watchers r)) as [watchers|];
    [|destruct encode_error; by intros [= _ <-]].
  destruct (as_int (rd_forks r)) as [forks|];
    [|destruct encode_error; by intros [= _ <-]].
  destruct (as_int (rd_open_issues r)) as [open_issues|];
    [|destruct encode_error; by intros [= _ <-]].
  destruct (as_text (rd_language r)) as [language|];
    [|destruct encode_error; by intros [= _ <-]].
  destruct (fault (length (log st))); [by intros [= _ <-]|].
  cbn [run_stmt sent top100 activity log fst snd].
  destruct (filter _ (top100 st)) as [|r0 hit] eqn:Hhit.
  - cbn [String.eqb Ascii.eqb Bool.eqb andb fst snd].
    destruct (as_text (rd_owner r)) as [owner|];
      [|destruct encode_error; by intros [= _ <-]].
    destruct (fault _); [by intros [= _ <-]|].
    cbn [run_stmt sent top100 activity log fst snd].
    destruct repo, owner, stars, watchers, forks, open_issues;
      try (by intros [= _ <-]).
    destruct (top_key_free _ _); [done|]. by intros [= _ <-].
  - destruct stars, watchers, forks, open_issues;
      try (by intros [= _ <-]).
    cbn [fst snd]. rewrite update_status.
    by rewrite bool_decide_eq_false_2 by done.
Qed.

(** X12. An upsert that raises has changed neither table. *)
Theorem failed_upsert_changes_nothing :
  (∀ r st e st',
     upsert_top_100_repo fault encode_error r st = (Raise e, st') →
     top100 st' = top100 st ∧ activity st' = activity st)
  ∧ (∀ owner repo d commits authors st e st',
       upsert_repo_activity fault encode_error owner repo d commits authors st
       = (Raise e, st') →
       top100 st' = top100 st ∧ activity st' = activity st).
Proof. split; [apply failed_top100_upsert|apply failed_activity_upsert]. Qed.
End FailedUpserts.

(** ** What a refresh leaves in [activity] *)

Section Refresh.
Variables (fault : nat → bool) (encode_error : exn).
Variable isoformat_day : string → option string.
Variable strptime_day : string → option date.
Variable search_repos : res json.
Variable list_commits : string → string → string → string → Z → res json.

Local Abbreviation sync :=
  (update_activity_in_db fault encode_error isoformat_day strptime_day
                         list_commits).
Local Abbreviation batch :=
  (refresh_activity fault encode_error isoformat_day strptime_day
                    list_commits).
Local Abbreviation refresh :=
  (refresh_data fault encode_error isoformat_day strptime_day search_repos
                list_commits).

Lemma same_activity_sent s st : same_activity st (sent s st).
Proof. done. Qed.

Lemma same_activity_top100 s st :
  match s with
  | UpdateActivity _ _ _ _ _ | InsertActivity _ _ _ _ _ => False
  | _ => True
  end →
  same_activity st (run_stmt s st).2.
Proof.
  destruct s; try done; intros _; cbn [run_stmt].
  - destruct (filter _ (top100 st)); [done|].
    by destruct stars, watchers, forks, open_issues.
  - destruct repo, owner, stars, watchers, forks, open_issues; try done.
    by destruct (top_key_free _ _).
Qed.

Lemma upsert_top_100_repo_activity r :
  keeps same_activity (upsert_top_100_repo fault encode_error r).
Proof.
  intros st res st' H. unfold same_activity.
  destruct res as [[]|e].
  - by apply upsert_top_100_repo_ok in H
      as (_ & _ & _ & _ & _ & _ & _ & _ & _ & _ & _ & _ & ? & _).
  - by apply failed_top100_upsert in H as [_ ?].
Qed.

Lemma update_top100_in_db_activity :
  keeps same_activity (update_top100_in_db fault encode_error search_repos).
Proof.
  unfold update_top100_in_db, reconcile_top100.
  keep keeps_bind; [keep keeps_lift|]. intros repos.
  keep keeps_bind; [keep keeps_lift|]. intros keys.
  keep keeps_bind; [keep keeps_encoded|]. intros names.
  keep keeps_bind.
  { keep keeps_execute; [apply same_activity_sent|].
    intros st. by apply same_activity_top100. }
  intros _. keep keeps_for_each. apply upsert_top_100_repo_activity.
Qed.

Lemma refresh_activity_grows fuel since until records : ∀ st r st',
  batch fuel since until records st = Some (r, st') →
  top100 st' = top100 st ∧ activity_grows st st'.
Proof.
  induction records as [|record records IH]; intros st r st'; simpl.
  - by intros [= <- <-].
  - destruct (split_once (t_repo record)) as [[before repo_name]|];
      [|by intros [= <- <-]].
    destruct (sync fuel (t_owner record) repo_name since until st)
      as [[[[]|e] st1]|] eqn:Hsync; [| |done].
    + apply update_activity_in_db_scope in Hsync as (Ht & _ & Hg).
      intros (Ht' & Hg')%IH. split; [congruence|by etrans].
    + apply update_activity_in_db_scope in Hsync as (Ht & _ & Hg).
      by intros [= <- <-].
Qed.

Lemma ranking_then_select_activity :
  keeps same_activity
        (update_top100_in_db fault encode_error search_repos ;;
         send fault SelectTop100).
Proof.
  keep keeps_bind; [apply update_top100_in_db_activity|]. intros _.
  keep keeps_send; [apply same_activity_sent|].
  intros st. by apply same_activity_top100.
Qed.

(** X13. However the reconciliation of [top100] ends, it has left
    [activity] as it was, and however [refresh_data] ends, it has removed
    or moved no row of [activity] and changed the key of none: the rows
    of a repository that left the ranking stay. *)
Theorem stale_activity_is_never_deleted :
  (∀ st r st',
     update_top100_in_db fault encode_error search_repos st = (r, st') →
     activity st' = activity st)
  ∧ (∀ fuel since until st r st',
       refresh fuel since until st = Some (r, st') →
       map activity_key (activity st)
         `prefix_of` map activity_key (activity st')).
Proof.
  split; [apply update_top100_in_db_activity|].
  intros fuel since until st r st'. unfold refresh_data.
  destruct ((update_top100_in_db fault encode_error search_repos ;;
             send fault SelectTop100) st) as [[rows|e] st1] eqn:Htop;
    apply ranking_then_select_activity in Htop; unfold same_activity in Htop.
  - intros [_ Hg]%refresh_activity_grows.
    unfold activity_grows in Hg. by rewrite Htop in Hg.
  - intros [= <- <-]. by rewrite Htop.
Qed.

(** An answer of the provider without [items] empties the table. *)
Lemma sql_not_in_nil x : sql_not_in x [] = true.
Proof. done. Qed.

(** X14. When the answer of the provider has no [items] and the server
    rejects nothing, [refresh_data] returns normally after a delete that
    empties [top100] and a select; it syncs no activity. *)
Theorem answer_without_items_empties_the_table fuel since until fields st :
  search_repos = Ok (JObj fields) →
  assoc "items" fields = None →
  fault (length (log st)) = false →
  fault (S (length (log st))) = false →
  refresh fuel since until st
  = Some (Ok (), Store [] (activity st)
                       (log st ++ [DeleteTop100NotIn []; SelectTop100])).
Proof.
  intros Hsearch Hitems Hf1 Hf2.
  unfold refresh_data, update_top100_in_db, fetch_top100_repos.
  rewrite Hsearch. cbn [mbind res_bind contains]. rewrite Hitems.
  rewrite bool_decide_eq_false_2 by (by intros [? ?]).
  cbn [mbind res_bind]. unfold reconcile_top100, execute, send.
  unfold mbind, M_bind, lift, encoded, mret, M_ret. cbn [mapM list_to_set].
  cbn [mbind mret option_bind option_ret].
  unfold mret, res_ret. cbn [list_to_set].
  rewrite elements_empty. cbn [mapM]. unfold mret, option_ret. rewrite Hf1.
  cbn [run_stmt sent top100 activity log fst snd for_each].
  unfold mret, M_ret. cbn [log]. rewrite length_app, Nat.add_1_r, Hf2.
  cbn [run_stmt sent top100 activity log fst snd refresh_activity].
  assert (filter (λ r : top_row, ¬ sql_not_in (t_repo r) []) (top100 st)
          = []) as ->.
  { induction (top100 st) as [|row rows IH]; [done|].
    rewrite filter_cons, decide_False; [done|]. simpl. auto. }
  unfold sent. cbn [refresh_activity top100 activity log].
  by rewrite <-(assoc_L (++)).
Qed.
End Refresh.

(** ** Dates *)

Lemma date_le_spec d1 d2 :
  date_le d1 d2 = true
  ↔ year d1 < year d2
    ∨ year d1 = year d2
      ∧ (month d1 < month d2 ∨ month d1 = month d2 ∧ day d1 ≤ day d2).
Proof.
  unfold date_le.
  rewrite orb_true_iff, andb_true_iff, orb_true_iff, andb_true_iff.
  rewrite !Z.ltb_lt, !Z.eqb_eq, Z.leb_le. done.
Qed.

Lemma date_le_refl d : date_le d d = true.
Proof. apply date_le_spec. lia. Qed.

Lemma date_le_total d1 d2 : date_le d1 d2 = true ∨ date_le d2 d1 = true.
Proof. rewrite !date_le_spec. lia. Qed.

Lemma date_le_trans d1 d2 d3 :
  date_le d1 d2 = true → date_le d2 d3 = true → date_le d1 d3 = true.
Proof. rewrite !date_le_spec. lia. Qed.

Lemma date_le_antisym d1 d2 :
  date_le d1 d2 = true → date_le d2 d1 = true → d1 = d2.
Proof.
  rewrite !date_le_spec. intros H1 H2. destruct d1, d2. simpl in *.
  f_equal; lia.
Qed.

(** ** [ORDER BY date] *)

Lemma insert_by_date_perm r rows : insert_by_date r rows ≡ₚ r :: rows.
Proof.
  induction rows as [|r' rows IH]; simpl; [done|].
  destruct (date_le (a_date r) (a_date r')); [done|].
  rewrite IH. apply Permutation_swap.
Qed.

Lemma order_by_date_perm rows : order_by_date rows ≡ₚ rows.
Proof.
  unfold order_by_date. induction rows as [|r rows IH]; simpl; [done|].
  by rewrite insert_by_date_perm, IH.
Qed.

Lemma insert_by_date_sorted r rows :
  StronglySorted rows_by_date rows →
  StronglySorted rows_by_date (insert_by_date r rows).
Proof.
  induction 1 as [|r' rows Hs IH Hall]; simpl.
  - repeat constructor.
  - destruct (date_le (a_date r) (a_date r')) eqn:E.
    + constructor; [by constructor|]. constructor.
      * unfold rows_by_date. by rewrite E.
      * eapply Forall_impl; [exact Hall|]. unfold rows_by_date.
        intros r2 H2%Is_true_true. apply Is_true_true.
        by eapply date_le_trans.
    + constructor; [done|].
      rewrite insert_by_date_perm. constructor; [|done].
      unfold rows_by_date. destruct (date_le_total (a_date r) (a_date r'));
        [congruence|]. by apply Is_true_true.
Qed.

Lemma order_by_date_sorted rows :
  StronglySorted rows_by_date (order_by_date rows).
Proof.
  unfold order_by_date. induction rows as [|r rows IH]; simpl.
  - constructor.
  - by apply insert_by_date_sorted.
Qed.

Lemma order_by_date_replicate n r :
  order_by_date (replicate n r) = replicate n r.
Proof.
  unfold order_by_date. induction n as [|n IH]; simpl; [done|].
  rewrite IH. destruct n; simpl; [done|]. by rewrite date_le_refl.
Qed.

(** ** Validation of the rows *)

Lemma validate_activity_ok r x :
  validate_activity r = Ok x ↔ row_content r = record_content x.
Proof.
  unfold validate_activity, row_content, record_content. split.
  - destruct (mapM id (a_authors r)) as [names|] eqn:E; [|done].
    intros [= <-]. simpl. f_equal. apply mapM_Some in E.
    clear -E. induction E as [|a n l k Ha _ IH]; simpl; [done|].
    simpl in Ha. by rewrite Ha, IH.
  - destruct x as [d c names]. simpl. intros [= Hd Hc Ha].
    rewrite Ha. replace (mapM id (map Some names)) with (Some names).
    + by rewrite Hd, Hc.
    + symmetry. apply mapM_Some. clear. induction names; by constructor.
Qed.

Lemma validate_activity_named r :
  named_authors r = true → is_ok (validate_activity r) = true.
Proof.
  unfold named_authors, validate_activity. intros H.
  assert (is_Some (mapM id (a_authors r))) as [names ->]; [|done].
  apply mapM_is_Some, Forall_forall. intros a Ha%list_elem_of_In.
  rewrite forallb_forall in H.
  by apply (bool_decide_eq_true_1 (is_Some a)), H.
Qed.

Lemma validate_activity_unnamed r :
  named_authors r = false → validate_activity r = Raise ValueError.
Proof.
  unfold named_authors, validate_activity. intros H.
  destruct (mapM id (a_authors r)) as [names|] eqn:E; [|done].
  exfalso. assert (forallb (λ a : option string, bool_decide (is_Some a))
                           (a_authors r) = true) as Ht; [|congruence].
  apply forallb_forall. intros a Ha%list_elem_of_In. apply bool_decide_eq_true.
  assert (is_Some (mapM id (a_authors r))) as Hs by eauto.
  rewrite mapM_is_Some, Forall_forall in Hs. by apply (Hs a).
Qed.

Lemma validate_all_named rows :
  Forall (λ r, named_authors r = true) rows →
  ∃ data, mapM validate_activity rows = Ok data.
Proof.
  induction 1 as [|r rows Hr _ [data IH]]; [by exists []|].
  apply validate_activity_named in Hr.
  destruct (validate_activity r) as [x|] eqn:Hx; [|done].
  exists (x :: data). cbn [mapM]. by rewrite Hx, IH.
Qed.

Lemma validate_some_unnamed rows :
  Exists (λ r, named_authors r = false) rows →
  mapM validate_activity rows = Raise ValueError.
Proof.
  induction rows as [|r rows IH]; [by intros ?%Exists_nil|].
  intros Hex. cbn [mapM].
  destruct (named_authors r) eqn:Hr.
  - apply Exists_cons in Hex as [?|Hex]; [congruence|].
    apply validate_activity_named in Hr.
    destruct (validate_activity r); [|done]. simpl. by rewrite IH.
  - by rewrite validate_activity_unnamed.
Qed.

Lemma validate_raises_value_error rows e :
  mapM validate_activity rows = Raise e → e = ValueError.
Proof.
  revert e. induction rows as [|r rows IH]; intros e; [done|]. cbn [mapM].
  destruct (validate_activity r) as [x|e'] eqn:Hx; simpl.
  - destruct (mapM validate_activity rows) as [data|e'] eqn:E; [done|].
    simpl. intros [= <-]. by apply IH.
  - unfold validate_activity in Hx. intros [= <-].
    destruct (mapM id (a_authors r)); congruence.
Qed.

Global Instance same_tables_refl : Reflexive same_tables.
Proof. by intros st. Qed.
Global Instance same_tables_trans : Transitive same_tables.
Proof. intros st1 st2 st3 [? ?] [? ?]. split; congruence. Qed.

Lemma in_window_one_day owner repo d r :
  in_window owner repo d d r = activity_matches owner repo d r.
Proof.
  unfold in_window, activity_matches. rewrite <-andb_assoc. f_equal.
  apply eq_true_iff_eq. rewrite andb_true_iff, bool_decide_eq_true. split.
  - intros [? ?]. by apply date_le_antisym.
  - intros ->. by rewrite date_le_refl.
Qed.

Lemma sorted_records rows data :
  Forall2 (λ r x, validate_activity r = Ok x) rows data →
  StronglySorted rows_by_date rows →
  StronglySorted by_date data
  ∧ map record_content data = map row_content rows.
Proof.
  induction 1 as [|r x rows data Hx Hall IH]; [by split; [constructor|]|].
  intros [Hs Hr]%StronglySorted_inv. destruct (IH Hs) as [Hsd Hmap].
  apply validate_activity_ok in Hx. split.
  - constructor; [done|].
    assert (Forall (λ c, date_le (a_date r) c.1.1) (map record_content data))
      as Hd.
    { rewrite Hmap, Forall_fmap. eapply Forall_impl; [exact Hr|]. done. }
    rewrite Forall_fmap in Hd. eapply Forall_impl; [exact Hd|].
    intros y Hy. unfold by_date. simpl in Hy.
    assert (ra_date x = a_date r) as -> by (by injection Hx). done.
  - simpl. by rewrite Hmap, Hx.
Qed.

Section ActivityEndpoint.
Variable fault : nat → bool.

Local Abbreviation query := (fetch_repo_activity fault).
Local Abbreviation endpoint := (get_repo_activity fault).

Lemma fetch_repo_activity_run owner repo since until st :
  fault (length (log st)) = false →
  query owner repo since until st
  = (mapM validate_activity
          (order_by_date
             (filter (λ r, in_window owner repo since until r)
                     (activity st))),
     sent (SelectActivity owner repo since until) st).
Proof.
  intros Hf. unfold fetch_repo_activity, except_postgres, send.
  unfold mbind, M_bind, lift. rewrite Hf.
  cbn [run_stmt sent top100 activity log fst snd].
  fold (in_window owner repo since until).
  destruct (mapM validate_activity _) as [data|e] eqn:E; [done|].
  by apply validate_raises_value_error in E as ->.
Qed.

Lemma fetch_repo_activity_rejected owner repo since until st :
  fault (length (log st)) = true →
  query owner repo since until st
  = (Raise (RuntimeError "Database error: statement failed"),
     sent (SelectActivity owner repo since until) st).
Proof.
  intros Hf. unfold fetch_repo_activity, except_postgres, send.
  unfold mbind, M_bind, lift. by rewrite Hf.
Qed.

(** X15. When the server does not reject the query and the rows of the
    window have strings for authors, [fetch_repo_activity] returns
    normally: the records are in the order of their dates, every date is
    within [since] and [until], both included, and the records are those
    of the rows of the repository in the window, each once; the tables
    are not changed, and the endpoint answers with the same list when it
    is not empty. *)
Theorem activity_query_answers_the_window_in_date_order owner repo since until
    st :
  fault (length (log st)) = false →
  Forall (λ r, in_window owner repo since until r → named_authors r)
         (activity st) →
  ∃ data,
    query owner repo since until st
    = (Ok data, sent (SelectActivity owner repo since until) st)
    ∧ StronglySorted by_date data
    ∧ Forall (λ x, date_le since (ra_date x) ∧ date_le (ra_date x) until) data
    ∧ map record_content data
      ≡ₚ map row_content
             (filter (λ r, in_window owner repo since until r) (activity st))
    ∧ (date_gt since until = false → data ≠ [] →
       endpoint owner repo since until st
       = (Ok data, sent (SelectActivity owner repo since until) st)).
Proof.
  intros Hf Hnamed.
  pose proof (fetch_repo_activity_run owner repo since until st Hf) as Hrun.
  revert Hrun.
  set (rows := filter (λ r, in_window owner repo since until r) (activity st)).
  intros Hrun.
  assert (Forall (λ r, named_authors r = true) (order_by_date rows)) as Hall.
  { rewrite order_by_date_perm. apply Forall_forall.
    intros r [Hw Hr]%list_elem_of_filter. rewrite Forall_forall in Hnamed.
    apply Is_true_true. by apply Hnamed. }
  destruct (validate_all_named _ Hall) as [data Hdata].
  rewrite Hdata in Hrun.
  exists data. split; [done|].
  apply mapM_res_ok in Hdata.
  destruct (sorted_records _ _ Hdata (order_by_date_sorted rows))
    as [Hsorted Hmap].
  assert (map record_content data ≡ₚ map row_content rows) as Hperm.
  { by rewrite Hmap, order_by_date_perm. }
  split_and!; [done| |done|].
  - apply Forall_forall. intros x Hx.
    assert (record_content x ∈ map row_content rows) as Hin.
    { rewrite <-Hperm. apply list_elem_of_fmap. eauto. }
    apply list_elem_of_fmap in Hin as (r & Hr & [Hw _]%list_elem_of_filter).
    assert (ra_date x = a_date r) as -> by (by injection Hr).
    unfold in_window in Hw.
    apply Is_true_true in Hw.
    apply andb_true_iff in Hw as [[_ H1]%andb_true_iff H2].
    by rewrite H1, H2.
  - intros Hle Hne. unfold get_repo_activity. rewrite Hle.
    unfold mbind, M_bind. rewrite Hrun. by destruct data.
Qed.

Lemma fetch_repo_activity_tables owner repo since until :
  keeps same_tables (query owner repo since until).
Proof.
  unfold fetch_repo_activity. keep keeps_except.
  keep keeps_bind; [|intros r; keep keeps_lift].
  keep keeps_send; by intros st.
Qed.

(** What the endpoint makes of the outcome of the query. *)
Lemma get_repo_activity_raises owner repo since until st e st' :
  endpoint owner repo since until st = (Raise e, st') →
  ∃ detail, e = HTTPException 400 detail ∨ e = HTTPException 500 detail.
Proof.
  unfold get_repo_activity.
  destruct (date_gt since until); [intros [= <- _]; eauto|].
  unfold mbind, M_bind.
  destruct (query owner repo since until st) as [[[|x data]|[]] st1];
    unfold raise, mret, M_ret; intros [= <- _]; eauto.
Qed.

Lemma get_repo_activity_tables owner repo since until :
  keeps same_tables (endpoint owner repo since until).
Proof.
  intros st r st'. unfold get_repo_activity.
  destruct (date_gt since until); [by intros [= _ <-]|].
  unfold mbind, M_bind.
  destruct (query owner repo since until st) as [[[|x data]|[]] st1] eqn:E;
    apply fetch_repo_activity_tables in E;
    unfold raise, mret, M_ret; by intros [= _ <-].
Qed.

Lemma get_repo_activity_empty owner repo since until st :
  date_gt since until = false →
  fault (length (log st)) = false →
  filter (λ r, in_window owner repo since until r) (activity st) = [] →
  endpoint owner repo since until st
  = (Raise (HTTPException 500
       "Ошибка сервера: 404: No activity found for the given period"),
     sent (SelectActivity owner repo since until) st).
Proof.
  intros Hle Hf Hnone. unfold get_repo_activity. rewrite Hle.
  unfold mbind, M_bind. rewrite fetch_repo_activity_run by done.
  by rewrite Hnone.
Qed.

(** X16. Every exception of the activity endpoint is an [HTTPException]
    with status 400 or 500. A window without rows is answered with 500:
    the 404 raised inside the [try] is caught by its last handler. A query
    that the server rejects is answered with 500 and the message of
    crud.py as detail. However the endpoint ends, both tables are as they
    were. *)
Theorem activity_endpoint_never_answers_404 :
  (∀ owner repo since until st e st',
     endpoint owner repo since until st = (Raise e, st') →
     ∃ detail, e = HTTPException 400 detail ∨ e = HTTPException 500 detail)
  ∧ (∀ owner repo since until st,
       date_gt since until = false →
       fault (length (log st)) = false →
       filter (λ r, in_window owner repo since until r) (activity st) = [] →
       ∃ detail,
         endpoint owner repo since until st
         = (Raise (HTTPException 500 detail),
            sent (SelectActivity owner repo since until) st))
  ∧ (∀ owner repo since until st,
       date_gt since until = false →
       fault (length (log st)) = true →
       endpoint owner repo since until st
       = (Raise (HTTPException 500 "Database error: statement failed"),
          sent (SelectActivity owner repo since until) st))
  ∧ (∀ owner repo since until st r st',
       endpoint owner repo since until st = (r, st') →
       top100 st' = top100 st ∧ activity st' = activity st).
Proof.
  split_and!.
  - apply get_repo_activity_raises.
  - intros. eexists. by apply get_repo_activity_empty.
  - intros owner repo since until st Hle Hf. unfold get_repo_activity.
    rewrite Hle. unfold mbind, M_bind.
    by rewrite fetch_repo_activity_rejected.
  - intros owner repo since until st r st' H.
    by apply get_repo_activity_tables in H.
Qed.
End ActivityEndpoint.

(** ** What is written is what is read *)

Section RoundTrip.
Variables (fault : nat → bool) (encode_error : exn).
Hypothesis no_fault_at_all : ∀ n, fault n = false.

Local Abbreviation upsert_activity :=
  (upsert_repo_activity fault encode_error).
Local Abbreviation endpoint := (get_repo_activity fault).

Lemma upserted_day_rows owner repo d commits authors names st :
  mapM key_as_text authors = Some names →
  ∃ st',
    upsert_activity owner repo d commits authors st = (Ok (), st')
    ∧ day_rows owner repo d st'
      = replicate (length (day_rows owner repo d st) `max` 1)
                  (ActivityRow owner repo d commits names).
Proof.
  intros Hnames. eexists. split.
  { by apply upsert_repo_activity_run. }
  unfold day_rows.
  destruct (filter _ (activity st)) as [|r hit] eqn:Hhit;
    cbn [top100 activity].
  - rewrite filter_app, Hhit, filter_cons, filter_nil.
    by rewrite decide_True by (by rewrite activity_matches_new).
  - rewrite hit_updated, Hhit. f_equal. simpl. lia.
Qed.

Lemma validate_replicate n owner repo d commits names :
  mapM validate_activity
       (replicate n (ActivityRow owner repo d commits (map Some names)))
  = Ok (replicate n (mkRepoActivity d commits names)).
Proof.
  apply mapM_res_ok. induction n as [|n IH]; simpl; constructor; [|done].
  by apply validate_activity_ok.
Qed.

(** X17. What an upsert writes is what the endpoint reads: after an
    upsert with authors that are strings, a request for that day alone is
    answered with the date, the count and the authors written, once for
    every row of that day. *)
Theorem written_day_is_read_back owner repo d commits authors names st :
  mapM key_as_text authors = Some (map Some names) →
  ∃ st',
    upsert_activity owner repo d commits authors st = (Ok (), st')
    ∧ endpoint owner repo d d st'
      = (Ok (replicate (length (day_rows owner repo d st) `max` 1)
                       (mkRepoActivity d commits names)),
         sent (SelectActivity owner repo d d) st').
Proof.
  intros Hnames.
  destruct (upserted_day_rows owner repo d commits authors _ st Hnames)
    as (st' & Hup & Hrows).
  exists st'. split; [done|].
  unfold get_repo_activity, date_gt. rewrite date_le_refl. cbn [negb].
  unfold mbind, M_bind. rewrite fetch_repo_activity_run by done.
  rewrite (list_filter_iff _ (λ r, activity_matches owner repo d r))
    by (intros r; by rewrite in_window_one_day).
  fold (day_rows owner repo d st'). rewrite Hrows.
  rewrite order_by_date_replicate, validate_replicate.
  by destruct (length (day_rows owner repo d st) `max` 1)%nat eqn:E; [lia|].
Qed.

(** X18. A day written with a null among its authors cannot be read: a
    request for any window that holds the day is answered with status
    500. *)
Theorem day_with_a_null_author_cannot_be_read owner repo d commits authors
    names since until st :
  mapM key_as_text authors = Some names →
  None ∈ names →
  date_le since d = true → date_le d until = true →
  ∃ st' detail,
    upsert_activity owner repo d commits authors st = (Ok (), st')
    ∧ endpoint owner repo since until st'
      = (Raise (HTTPException 500 detail),
         sent (SelectActivity owner repo since until) st').
Proof.
  intros Hnames Hnull Hsince Huntil.
  destruct (upserted_day_rows owner repo d commits authors _ st Hnames)
    as (st' & Hup & Hrows).
  exists st'. eexists. split; [done|].
  unfold get_repo_activity, date_gt.
  rewrite (date_le_trans _ _ _ Hsince Huntil). cbn [negb].
  unfold mbind, M_bind. rewrite fetch_repo_activity_run by done.
  rewrite validate_some_unnamed; [done|].
  apply Exists_exists. exists (ActivityRow owner repo d commits names). split.
  - rewrite order_by_date_perm. apply list_elem_of_filter. split.
    + unfold in_window. simpl. by rewrite !String.eqb_refl, Hsince, Huntil.
    + assert (ActivityRow owner repo d commits names
              ∈ day_rows owner repo d st') as Hin.
      { rewrite Hrows. destruct (length _ `max` 1)%nat eqn:E; [lia|].
        by left. }
      by apply list_elem_of_filter in Hin as [_ ?].
  - unfold named_authors. simpl. apply not_true_is_false.
    rewrite forallb_forall. intros H.
    apply list_elem_of_In, H, bool_decide_eq_true in Hnull.
    by destruct Hnull.
Qed.
End RoundTrip.

(** ** What the functions of crud.py raise *)

Lemma raises_only_ret {A} P (x : A) : raises_only P (mret x).
Proof. by intros st e st'. Qed.

Lemma raises_only_bind {A B} P (m : M A) (f : A → M B) :
  raises_only P m → (∀ a, raises_only P (f a)) → raises_only P (m ≫= f).
Proof.
  intros Hm Hf st e st'. unfold mbind, M_bind.
  destruct (m st) as [[a|e0] st1] eqn:E.
  - apply Hf.
  - intros [= <- <-]. by eapply Hm.
Qed.

Lemma raises_only_encoded {A} encode_error (arg : option A) :
  raises_only (statement_or_argument encode_error) (encoded encode_error arg).
Proof.
  intros st e st'. destruct arg; [done|]. intros [= <- _]. by right.
Qed.

Lemma run_stmt_raises s st e :
  (run_stmt s st).1 = Raise e → is_postgres_error e.
Proof.
  unfold is_postgres_error. destruct s; cbn [run_stmt]; try done.
  - destruct (filter _ (top100 st)); [done|].
    destruct stars, watchers, forks, open_issues; try done;
      intros [= <-]; eauto.
  - destruct repo, owner, stars, watchers, forks, open_issues;
      try (intros [= <-]; eauto).
    destruct (top_key_free _ _); [done|]. intros [= <-]. eauto.
  - destruct (activity_key_free _ _ _ _); [done|]. intros [= <-]. eauto.
Qed.

Lemma raises_only_send fault encode_error s :
  raises_only (statement_or_argument encode_error) (send fault s).
Proof.
  intros st e st'. unfold send. destruct (fault _).
  - intros [= <- _]. left. by eexists.
  - intros H. left. apply (run_stmt_raises s (sent s st)). by rewrite H.
Qed.

Lemma raises_only_execute fault encode_error s :
  raises_only (statement_or_argument encode_error) (execute fault s).
Proof.
  apply raises_only_bind; [apply raises_only_send|].
  intros a. apply raises_only_ret.
Qed.

Lemma except_postgres_wraps {A} prefix other (m : M A) :
  raises_only (statement_or_argument other) m →
  raises_only (wrapped prefix other)
    (except_postgres m (λ e, raise (RuntimeError (prefix +:+ e)))).
Proof.
  intros Hm st e st'. unfold except_postgres, raise.
  destruct (m st) as [[a|e0] st1] eqn:E; [done|].
  apply Hm in E.
  destruct e0; intros [= <- _];
    try (right; split; [|by intros [? ?]];
         by destruct E as [[? ?]|?]).
  left. by eexists.
Qed.

Section CrudErrors.
Variables (fault : nat → bool) (encode_error : exn).

Lemma upsert_top_100_repo_raises r :
  raises_only (wrapped "Database error in insert_or_update_top100: "
                       encode_error)
              (upsert_top_100_repo fault encode_error r).
Proof.
  unfold upsert_top_100_repo.
  apply except_postgres_wraps.
  do 6 (apply raises_only_bind; [apply raises_only_encoded|]; intros ?).
  apply raises_only_bind; [apply raises_only_execute|]. intros status.
  destruct (String.eqb status "UPDATE 0"); [|apply raises_only_ret].
  apply raises_only_bind; [apply raises_only_encoded|]. intros owner.
  apply raises_only_bind; [apply raises_only_execute|]. intros _.
  apply raises_only_ret.
Qed.

Lemma upsert_repo_activity_raises owner repo d commits authors :
  raises_only (wrapped "Database error in insert_or_update_activity: "
                       encode_error)
              (upsert_repo_activity fault encode_error owner repo d commits
                                    authors).
Proof.
  unfold upsert_repo_activity.
  apply except_postgres_wraps.
  apply raises_only_bind; [apply raises_only_encoded|]. intros names.
  apply raises_only_bind; [apply raises_only_execute|]. intros status.
  destruct (String.eqb status "UPDATE 0"); [|apply raises_only_ret].
  apply raises_only_bind; [apply raises_only_execute|]. intros _.
  apply raises_only_ret.
Qed.

Lemma fetch_repo_activity_raises owner repo since until :
  raises_only (wrapped "Database error: " ValueError)
              (fetch_repo_activity fault owner repo since until).
Proof.
  unfold fetch_repo_activity.
  apply except_postgres_wraps.
  apply raises_only_bind.
  - apply raises_only_send.
  - intros r st e st'. unfold lift. intros [= H _]. right.
    by apply validate_raises_value_error in H.
Qed.

(** X19. The three functions of crud.py that are modelled let no
    [PostgresError] pass: an exception of theirs is a [RuntimeError] whose
    message starts with the text of their handler, or it is the error of an
    argument (of validation, for the query) and no [PostgresError]. *)
Theorem crud_wraps_the_errors_of_the_database :
  (∀ r st e st',
     upsert_top_100_repo fault encode_error r st = (Raise e, st') →
     wrapped "Database error in insert_or_update_top100: " encode_error e)
  ∧ (∀ owner repo d commits authors st e st',
       upsert_repo_activity fault encode_error owner repo d commits authors st
       = (Raise e, st') →
       wrapped "Database error in insert_or_update_activity: " encode_error e)
  ∧ (∀ owner repo since until st e st',
       fetch_repo_activity fault owner repo since until st = (Raise e, st') →
       wrapped "Database error: " ValueError e).
Proof.
  split_and!.
  - intros r. apply upsert_top_100_repo_raises.
  - intros owner repo d commits authors. apply upsert_repo_activity_raises.
  - intros owner repo since until. apply fetch_repo_activity_raises.
Qed.
End CrudErrors.

(** ** The activity sync from the commits to the table *)

Section SyncWrites.
Variables (fault : nat → bool) (encode_error : exn).
Variable isoformat_day : string → option string.
Variable strptime_day : string → option date.
Variable list_commits : string → string → string → string → Z → res json.
Variables (owner repo : string).

Local Abbreviation aggregate := (aggregate_commits_by_day isoformat_day).
Local Abbreviation upsert_one :=
  (upsert_day fault encode_error strptime_day owner repo).
Local Abbreviation sync :=
  (update_activity_in_db fault encode_error isoformat_day strptime_day
                         list_commits).

(** X20. Reading the day of a record whose author is null raises
    [TypeError], and [KeyError] for an author that is an empty object: the
    date is read before the guard of the name. The first record whose day
    cannot be read ends the aggregation with its exception, and
    [update_activity_in_db] then ends with it before any statement is
    sent. *)
Theorem malformed_commit_ends_the_aggregation_and_the_sync :
  (∀ c commit,
     getitem c "commit" = Ok commit →
     getitem commit "author" = Ok JNull →
     commit_day isoformat_day c = Raise TypeError)
  ∧ (∀ c commit,
       getitem c "commit" = Ok commit →
       getitem commit "author" = Ok (JObj []) →
       commit_day isoformat_day c = Raise (KeyError "date"))
  ∧ (∀ before c after e,
       Forall (λ c, well_formed_commit isoformat_day c = true) before →
       commit_day isoformat_day c = Raise e →
       aggregate (before ++ c :: after) = Raise e)
  ∧ (∀ fuel since until f e st,
       fetch_commits list_commits fuel owner repo since until = Some f →
       aggregate (f_commits f) = Raise e →
       sync fuel owner repo since until st = Some (Raise e, st)).
Proof.
  split_and!.
  - intros c commit Hc Ha. unfold commit_day. by rewrite Hc; simpl; rewrite Ha.
  - intros c commit Hc Ha. unfold commit_day. by rewrite Hc; simpl; rewrite Ha.
  - intros before c after e Hwf Hc. by apply loop_raises.
  - intros fuel since until f e st Hf Hagg. unfold update_activity_in_db.
    rewrite Hf. unfold mbind, M_bind, lift. by rewrite Hagg.
Qed.

Section NothingRejected.
Hypothesis no_fault_at_all : ∀ n, fault n = false.

(** What leaves the rows of the other days of [d'] alone leaves the rows
    of a day [d] other than [d'] alone. *)
Lemma day_rows_other_days d d' st st' :
  d ≠ d' →
  other_days owner repo d' st' = other_days owner repo d' st →
  day_rows owner repo d st' = day_rows owner repo d st.
Proof.
  intros Hne Hother. unfold day_rows.
  assert (∀ rows : list activity_row,
            filter (λ r, activity_matches owner repo d r) rows
            = filter (λ r, activity_matches owner repo d r)
                     (filter (λ r, ¬ activity_matches owner repo d' r) rows))
    as Hsub.
  { intros rows. symmetry. apply list_filter_filter_l.
    intros r [_ [_ Hd]]%Is_true_true%activity_matches_eq
             [_ [_ Hd']]%Is_true_true%activity_matches_eq. congruence. }
  rewrite (Hsub (activity st')), (Hsub (activity st)).
  unfold other_days in Hother. by rewrite Hother.
Qed.

Lemma upsert_day_run day bucket d names st :
  strptime_day day = Some d →
  mapM key_as_text (elements (authors bucket)) = Some names →
  ∃ st',
    upsert_one (day, bucket) st = (Ok (), st')
    ∧ day_rows owner repo d st'
      = replicate (length (day_rows owner repo d st) `max` 1)
                  (ActivityRow owner repo d (commits bucket) names)
    ∧ other_days owner repo d st' = other_days owner repo d st.
Proof.
  intros Hd Hnames. unfold upsert_day. cbn [fst snd]. rewrite Hd.
  eexists. split.
  { by apply upsert_repo_activity_run. }
  unfold day_rows, other_days.
  destruct (filter _ (activity st)) as [|r hit] eqn:Hhit;
    cbn [top100 activity].
  - split.
    + rewrite filter_app, Hhit, filter_cons, filter_nil.
      by rewrite decide_True by (by rewrite activity_matches_new).
    + rewrite filter_app, filter_cons, filter_nil.
      rewrite decide_False; [by rewrite app_nil_r|].
      rewrite activity_matches_new. auto.
  - split.
    + rewrite hit_updated, Hhit. f_equal. simpl. lia.
    + apply miss_updated.
Qed.

Lemma upsert_days_run items : ∀ st,
  Forall (writable strptime_day) items →
  distinct_dates strptime_day (keys items) →
  NoDup (keys items) →
  ∃ st',
    for_each upsert_one items st = (Ok (), st')
    ∧ (∀ d, (∀ day, day ∈ keys items → strptime_day day ≠ Some d) →
            day_rows owner repo d st' = day_rows owner repo d st)
    ∧ ∀ day bucket d names,
        (day, bucket) ∈ items →
        strptime_day day = Some d →
        mapM key_as_text (elements (authors bucket)) = Some names →
        day_rows owner repo d st'
        = replicate (length (day_rows owner repo d st) `max` 1)
                    (ActivityRow owner repo d (commits bucket) names).
Proof.
  induction items as [|[day bucket] items IH]; intros st Hw Hdist Hnd.
  - exists st. split_and!; [done|done|]. by intros ???? ?%elem_of_nil.
  - apply Forall_cons in Hw as [[[d Hd] [names Hnames]] Hw].
    cbn [fst snd] in Hd, Hnames.
    apply NoDup_cons in Hnd as [Hnew Hnd]. fold (keys items) in Hnew, Hnd.
    destruct (upsert_day_run day bucket d names st Hd Hnames)
      as (st1 & Hrun & Hrows & Hothers).
    destruct (IH st1 Hw) as (st' & Hloop & Hkeep & Hall); [|done|].
    { intros day1 day2 d0 H1 H2. apply Hdist; by right. }
    assert (∀ day', day' ∈ keys items → strptime_day day' ≠ Some d) as Hfresh.
    { intros day' Hin Hd'. apply Hnew.
      rewrite (Hdist day day' d); [done|by left|by right|done..]. }
    exists st'. split_and!.
    + cbn [for_each]. unfold mbind, M_bind. by rewrite Hrun.
    + intros d0 Hd0. rewrite Hkeep by (intros day' Hin; apply Hd0; by right).
      apply (day_rows_other_days d0 d); [|done].
      intros ->. apply (Hd0 day); [by left|done].
    + intros day0 bucket0 d0 names0 [[= -> ->]|Hin]%elem_of_cons Hd0 Hn0.
      * rewrite Hd in Hd0. injection Hd0 as <-.
        rewrite Hnames in Hn0. injection Hn0 as <-.
        by rewrite (Hkeep d Hfresh).
      * rewrite (Hall _ _ _ _ Hin Hd0 Hn0).
        rewrite (day_rows_other_days d0 d st1 st); [done| |done].
        intros ->. apply (Hfresh day0); [|done].
        apply list_elem_of_fmap. by exists (day0, bucket0).
Qed.

(** X21. When the server rejects nothing, the day strings of the
    aggregate parse to distinct dates and the authors can be bound,
    [update_activity_in_db] returns normally, and afterwards every row of
    each day of the aggregate carries the count and the authors of that
    day; there are as many rows of the day as before, and one when there
    was none. *)
Theorem sync_writes_every_day_of_the_aggregate fuel since until f daily_stats
    st :
  fetch_commits list_commits fuel owner repo since until = Some f →
  aggregate (f_commits f) = Ok daily_stats →
  Forall (writable strptime_day) daily_stats →
  distinct_dates strptime_day (keys daily_stats) →
  ∃ st',
    sync fuel owner repo since until st = Some (Ok (), st')
    ∧ ∀ day bucket d names,
        (day, bucket) ∈ daily_stats →
        strptime_day day = Some d →
        mapM key_as_text (elements (authors bucket)) = Some names →
        day_rows owner repo d st'
        = replicate (length (day_rows owner repo d st) `max` 1)
                    (ActivityRow owner repo d (commits bucket) names).
Proof.
  intros Hf Hagg Hw Hdist.
  destruct (loop_keys isoformat_day _ _ _ Hagg) as (_ & Hnd & _).
  destruct (upsert_days_run daily_stats st Hw Hdist (Hnd (NoDup_nil_2)))
    as (st' & Hloop & _ & Hall).
  exists st'. split; [|done].
  unfold update_activity_in_db. rewrite Hf.
  unfold mbind, M_bind, lift. by rewrite Hagg, Hloop.
Qed.
End NothingRejected.
End SyncWrites.

(** ** The ranking endpoint *)

Lemma sort_by_mapping_total sort_by :
  mapping_get sort_by SORT_BY_MAPPING = Some (SortBy_value sort_by).
Proof. by destruct sort_by. Qed.

Lemma order_mapping_total order :
  mapping_get order ORDER_MAPPING = Some (Order_value order).
Proof. by destruct order. Qed.

Section OrderBy.
Variables (key : top_row → Z) (descending : bool).

Local Abbreviation before :=
  (λ r1 r2 : top_row, in_order descending (key r1) (key r2) = true).

Lemma in_order_total x y :
  in_order descending x y = true ∨ in_order descending y x = true.
Proof. unfold in_order. destruct descending; lia. Qed.

Lemma in_order_trans x y z :
  in_order descending x y = true → in_order descending y z = true →
  in_order descending x z = true.
Proof. unfold in_order. destruct descending; lia. Qed.

Lemma insert_by_perm r rows : insert_by key descending r rows ≡ₚ r :: rows.
Proof.
  induction rows as [|r' rows IH]; simpl; [done|].
  destruct (in_order descending (key r) (key r')); [done|].
  rewrite IH. apply Permutation_swap.
Qed.

Lemma order_by_perm rows : order_by key descending rows ≡ₚ rows.
Proof.
  unfold order_by. induction rows as [|r rows IH]; simpl; [done|].
  by rewrite insert_by_perm, IH.
Qed.

Lemma insert_by_sorted r rows :
  StronglySorted before rows →
  StronglySorted before (insert_by key descending r rows).
Proof.
  induction 1 as [|r' rows Hs IH Hall]; simpl.
  - repeat constructor.
  - destruct (in_order descending (key r) (key r')) eqn:E.
    + constructor; [by constructor|]. constructor; [done|].
      eapply Forall_impl; [exact Hall|]. intros r2 H2.
      by eapply in_order_trans.
    + constructor; [done|].
      rewrite insert_by_perm. constructor; [|done].
      destruct (in_order_total (key r) (key r')); [congruence|done].
Qed.

Lemma order_by_sorted rows :
  StronglySorted before (order_by key descending rows).
Proof.
  unfold order_by. induction rows as [|r rows IH]; simpl.
  - constructor.
  - by apply insert_by_sorted.
Qed.
End OrderBy.

Lemma sorted_fmap {A B} (f : A → B) (R : relation A) (S : relation B) l :
  (∀ x y, R x y → S (f x) (f y)) →
  StronglySorted R l → StronglySorted S (map f l).
Proof.
  intros HRS. induction 1 as [|x l Hs IH Hall]; simpl; constructor; [done|].
  apply Forall_fmap. eapply Forall_impl; [exact Hall|]. intros y. apply HRS.
Qed.

(** The column and the direction that the two dictionaries name are the
    ones the server sorts by for the metric and the order asked for. *)
Lemma query_resolves sort_by order :
  ∃ key descending,
    sort_column (format_value (mapping_get sort_by SORT_BY_MAPPING))
    = Some key
    ∧ sort_descending (format_value (mapping_get order ORDER_MAPPING))
      = Some descending
    ∧ ∀ r1 r2, in_order descending (key r1) (key r2) = true →
               ranks_before sort_by order (TopRepo_of_row r1)
                            (TopRepo_of_row r2).
Proof.
  destruct sort_by, order; eexists _, _; (split_and!; [done..|]);
    intros r1 r2; unfold in_order, ranks_before; simpl; lia.
Qed.

(** X22. When the connection answers the query as the server runs it on
    the table, [get_top_repos] returns normally for every member of
    [SortBy] and [Order]: as many repositories as the table has rows, and
    no more than 100; they are the first ones of the table sorted by the
    metric asked for in the direction asked for. *)
Theorem top_repos_are_the_first_hundred_in_the_order_asked_for
    connection_fetch rows sort_by order :
  (∀ q, connection_fetch q = run_top_query q rows) →
  ∃ repos rest,
    get_top_repos connection_fetch sort_by order = Ok repos
    ∧ length repos = (length rows `min` 100)%nat
    ∧ StronglySorted (ranks_before sort_by order) (repos ++ rest)
    ∧ repos ++ rest ≡ₚ map TopRepo_of_row rows.
Proof.
  intros Hfetch.
  destruct (query_resolves sort_by order) as (key & desc & Hk & Hd & Hord).
  exists (map TopRepo_of_row (take 100 (order_by key desc rows))),
         (map TopRepo_of_row (drop 100 (order_by key desc rows))).
  split_and!.
  - unfold get_top_repos. rewrite Hfetch. unfold run_top_query.
    cbn [q_sort_field q_sort_order q_limit]. by rewrite Hk, Hd.
  - rewrite length_map, length_take, order_by_perm. lia.
  - rewrite <-map_app, take_drop.
    apply (sorted_fmap _ (λ r1 r2, in_order desc (key r1) (key r2) = true));
      [done|apply order_by_sorted].
  - by rewrite <-map_app, take_drop, order_by_perm.
Qed.

(** X23. Every exception of the ranking endpoint is an [HTTPException]
    with status 500; a [PostgresError] of the connection is wrapped into a
    [RuntimeError] by [get_top_repos] and its message becomes the detail;
    what the connection answers is returned as it came. The query names
    the column and the direction by the values of the two enumerations. *)
Theorem ranking_endpoint_answers_failures_with_500 connection_fetch sort_by
    order :
  (∀ e, read_top_100_repos connection_fetch sort_by order = Raise e →
        ∃ detail, e = HTTPException 500 detail)
  ∧ (∀ msg,
       connection_fetch (TopQuery (SortBy_value sort_by) (Order_value order)
                                  100)
       = Raise (PostgresError msg) →
       get_top_repos connection_fetch sort_by order
       = Raise (RuntimeError ("Database error: " +:+ msg))
       ∧ read_top_100_repos connection_fetch sort_by order
         = Raise (HTTPException 500 ("Database error: " +:+ msg)))
  ∧ (∀ rows,
       connection_fetch (TopQuery (SortBy_value sort_by) (Order_value order)
                                  100)
       = Ok rows →
       read_top_100_repos connection_fetch sort_by order
       = Ok (map TopRepo_of_row rows)).
Proof.
  unfold read_top_100_repos, get_top_repos.
  rewrite sort_by_mapping_total, order_mapping_total. cbn [format_value].
  split_and!.
  - intros e. destruct (connection_fetch _) as [rows|[]]; try done;
      intros [= <-]; eauto.
  - by intros msg ->.
  - by intros rows ->.
Qed.

(** ** The split of a full name *)

Lemma split_once_some s : ∀ before after,
  split_once s = Some (before, after)
  ↔ s = before +:+ String "/" after ∧ no_slash before = true.
Proof.
  induction s as [|a s IH]; intros before after; simpl.
  - split; [done|]. intros [H _]. by destruct before.
  - destruct (Ascii.eqb_spec a "/"%char) as [->|Hne].
    + split.
      * by intros [= <- <-].
      * intros [H Hb]. destruct before as [|b before]; simpl in *.
        -- by injection H as <-.
        -- injection H as <- _. by rewrite Ascii.eqb_refl in Hb.
    + destruct (split_once s) as [[b' a']|].
      * split.
        -- intros [= <- <-]. simpl.
           destruct (proj1 (IH b' a') eq_refl) as [-> Hb].
           split; [done|]. rewrite Hb.
           by destruct (Ascii.eqb_spec a "/"%char).
        -- intros [H Hb]. destruct before as [|b before]; simpl in *.
           ++ by injection H as ->.
           ++ injection H as <- H. apply andb_true_iff in Hb as [_ Hb].
              by injection (proj2 (IH before after) (conj H Hb)) as -> ->.
      * split; [done|]. intros [H Hb].
        destruct before as [|b before]; simpl in *.
        -- by injection H as ->.
        -- injection H as <- H. apply andb_true_iff in Hb as [_ Hb].
           by pose proof (proj2 (IH before after) (conj H Hb)).
Qed.

Lemma split_once_none s : split_once s = None ↔ no_slash s = true.
Proof.
  induction s as [|a s IH]; simpl; [done|].
  destruct (Ascii.eqb_spec a "/"%char) as [->|Hne]; simpl; [done|].
  rewrite <-IH. by destruct (split_once s) as [[? ?]|].
Qed.

Section Split.
Variables (fault : nat → bool) (encode_error : exn).
Variable isoformat_day : string → option string.
Variable strptime_day : string → option date.
Variable list_commits : string → string → string → string → Z → res json.

Local Abbreviation sync :=
  (update_activity_in_db fault encode_error isoformat_day strptime_day
                         list_commits).
Local Abbreviation batch :=
  (refresh_activity fault encode_error isoformat_day strptime_day
                    list_commits).

(** X24. [split_once] cuts a text at its first slash, and fails exactly on
    a text without one. So the loop of [refresh_data] syncs a row with the
    owner of the row and what follows the first slash of its full name,
    and a row whose full name has no slash ends the loop with [ValueError]
    before anything is sent for it. *)
Theorem full_name_is_split_at_its_first_slash :
  (∀ s before after,
     split_once s = Some (before, after)
     ↔ s = before +:+ String "/" after ∧ no_slash before = true)
  ∧ (∀ s, split_once s = None ↔ no_slash s = true)
  ∧ (∀ fuel since until record records st before name,
       t_repo record = before +:+ String "/" name →
       no_slash before = true →
       batch fuel since until (record :: records) st
       = match sync fuel (t_owner record) name since until st with
         | Some (Ok _, st') => batch fuel since until records st'
         | r => r
         end)
  ∧ (∀ fuel since until record records st,
       no_slash (t_repo record) = true →
       batch fuel since until (record :: records) st
       = Some (Raise ValueError, st)).
Proof.
  split_and!.
  - apply split_once_some.
  - apply split_once_none.
  - intros fuel since until record records st before name Hname Hb.
    cbn [refresh_activity].
    by rewrite (proj2 (split_once_some _ before name) (conj Hname Hb)).
  - intros fuel since until record records st Hno.
    cbn [refresh_activity]. by rewrite (proj2 (split_once_none _) Hno).
Qed.
End Split.

(** ** The records of the ranking *)

Lemma complete_item_record num repo :
  complete_item repo = true → is_ok (repo_record num repo) = true.
Proof.
  destruct repo as [| | | | |fields]; try done. unfold complete_item.
  intros [Hkeys Howner]%andb_true_iff.
  rewrite forallb_forall in Hkeys.
  assert (∀ key, key ∈ required_keys → is_Some (assoc key fields)) as Hk.
  { intros key Hin%list_elem_of_In.
    by apply (bool_decide_eq_true_1 (is_Some (assoc key fields))), Hkeys. }
  assert (∀ key, key ∈ required_keys →
                 ∃ v, getitem (JObj fields) key = Ok v) as Hg.
  { intros key [v Hv]%Hk. exists v. unfold getitem. by rewrite Hv. }
  destruct (Hg "full_name") as [v1 H1]; [set_solver|].
  destruct (Hg "stargazers_count") as [v3 H3]; [set_solver|].
  destruct (Hg "watchers_count") as [v4 H4]; [set_solver|].
  destruct (Hg "forks_count") as [v5 H5]; [set_solver|].
  destruct (Hg "open_issues_count") as [v6 H6]; [set_solver|].
  destruct (Hg "language") as [v7 H7]; [set_solver|].
  assert (∃ login, owner_login (JObj fields) = Ok login) as [login Hlogin].
  { destruct (assoc "owner" fields) as [[| | | | |owner]|] eqn:Ho; try done.
    apply (bool_decide_eq_true_1 (is_Some (assoc "login" owner))) in Howner
      as [login Hlogin].
    exists login. unfold owner_login, getitem. rewrite Ho.
    cbn [mbind res_bind]. by rewrite Hlogin. }
  unfold owner_login in Hlogin. unfold repo_record. rewrite H1.
  cbn [mbind res_bind]. 
  destruct (getitem (JObj fields) "owner") as [owner|]; [|done].
  cbn [mbind res_bind] in Hlogin |- *. rewrite Hlogin.
  cbn [mbind res_bind]. rewrite H3, H4, H5, H6, H7. done.
Qed.

Lemma repo_records_ranks items : ∀ num repos,
  repo_records num items = Ok repos →
  length repos = length items
  ∧ ∀ (i : nat) repo r,
      items !! i = Some repo → repos !! i = Some r →
      repo_record (num + Z.of_nat i) repo = Ok r.
Proof.
  induction items as [|repo items IH]; intros num repos; simpl.
  - intros [= <-]. split; [done|]. by intros i repo r ?.
  - destruct (repo_record num repo) as [r|] eqn:Hr; [|done]. simpl.
    destruct (repo_records (num + 1) items) as [rs|] eqn:Hrs; [|done]. simpl.
    intros [= <-]. destruct (IH _ _ Hrs) as [Hlen Hall].
    split; [simpl; by rewrite Hlen|].
    intros [|i] repo' r'; simpl.
    + intros [= <-] [= <-]. by rewrite Z.add_0_r.
    + intros Hi Hr'. rewrite <-(Hall i repo' r' Hi Hr'). f_equal. lia.
Qed.

Lemma complete_items_records items : ∀ num,
  Forall (λ repo, complete_item repo = true) items →
  is_ok (repo_records num items) = true.
Proof.
  induction items as [|repo items IH]; intros num Hall; [done|].
  apply Forall_cons in Hall as [Hrepo Hall]. simpl.
  pose proof (complete_item_record num repo Hrepo) as Hr.
  destruct (repo_record num repo) as [r|]; [|done]. simpl.
  specialize (IH (num + 1) Hall).
  by destruct (repo_records (num + 1) items).
Qed.

(** X25. When every item of the answer has the fields that are read,
    [fetch_top100_repos] returns one record for every item, how many
    there may be, in the order of the answer: the record of the i-th item
    has the rank i, counted from 1, no previous rank, and the fields of
    its item as they came. *)
Theorem ranks_follow_the_order_of_the_answer fields items :
  assoc "items" fields = Some (JArr items) →
  Forall (λ repo, complete_item repo = true) items →
  ∃ repos,
    fetch_top100_repos (Ok (JObj fields)) = Ok repos
    ∧ length repos = length items
    ∧ ∀ (i : nat) repo r,
        items !! i = Some repo → repos !! i = Some r →
        rd_position_cur r = Z.of_nat i + 1
        ∧ rd_position_prev r = None
        ∧ getitem repo "full_name" = Ok (rd_repo r)
        ∧ owner_login repo = Ok (rd_owner r)
        ∧ getitem repo "stargazers_count" = Ok (rd_stars r)
        ∧ getitem repo "watchers_count" = Ok (rd_watchers r)
        ∧ getitem repo "forks_count" = Ok (rd_forks r)
        ∧ getitem repo "open_issues_count" = Ok (rd_open_issues r)
        ∧ getitem repo "language" = Ok (rd_language r).
Proof.
  intros Hitems Hall. rewrite (fetch_items _ _ Hitems).
  pose proof (complete_items_records items 1 Hall) as Hok.
  destruct (repo_records 1 items) as [repos|] eqn:Hrepos; [|done].
  exists repos. split; [done|].
  destruct (repo_records_ranks _ _ _ Hrepos) as [Hlen Hrank].
  split; [done|]. intros i repo r Hi Hr.
  apply (Hrank i repo r Hi), repo_record_ok in Hr
    as (H1 & (owner & Ho & Hl) & H3 & H4 & H5 & H6 & H7 & H8 & H9).
  split_and!; try done; [lia|].
  unfold owner_login. by rewrite Ho.
Qed.

(** ** The properties at examples *)

Lemma aggregate_two_days :
  aggregate_commits_by_day github_day commits_of_two_days
  = Ok stats_of_two_days.
Proof.
  unfold aggregate_commits_by_day, commits_of_two_days.
  cbn [aggregate_loop].
  rewrite (aggregate_step_eq github_day [] _ "2024-01-01" (JStr "Alice")
             (KStr "Alice")) by (by vm_compute).
  cbn [mbind res_bind dict_get assoc app].
  rewrite (aggregate_step_eq github_day _ _ "2024-01-02" (JStr "Unknown")
             (KStr "Unknown")) by (by vm_compute).
  cbn [mbind res_bind dict_get assoc app String.eqb Ascii.eqb Bool.eqb].
  rewrite (aggregate_step_eq github_day _ _ "2024-01-01" (JStr "Bob")
             (KStr "Bob")) by (by vm_compute).
  cbn. unfold stats_of_two_days. by rewrite !(left_id_L ∅ (∪)).
Qed.

Lemma day_count_is_the_number_of_its_commits_witness :
  day_count "2024-01-01" stats_of_two_days
  = Z.of_nat (length (filter (λ c, on_day github_day "2024-01-01" c)
                             commits_of_two_days))
  ∧ ("2024-01-01" ∈ keys stats_of_two_days
     ↔ ∃ c, c ∈ commits_of_two_days
            ∧ commit_day github_day c = Ok "2024-01-01").
Proof.
  apply (day_count_is_the_number_of_its_commits github_day
           commits_of_two_days stats_of_two_days "2024-01-01").
  apply aggregate_two_days.
Defined.

Lemma day_authors_are_those_of_its_commits_witness :
  KStr "Bob" ∈ authors (DayStats 2 {[KStr "Alice"; KStr "Bob"]})
  ↔ ∃ c, c ∈ commits_of_two_days
         ∧ commit_day github_day c = Ok "2024-01-01"
         ∧ author_key c = Ok (KStr "Bob").
Proof.
  apply (day_authors_are_those_of_its_commits github_day commits_of_two_days
           stats_of_two_days "2024-01-01"
           (DayStats 2 {[KStr "Alice"; KStr "Bob"]}) (KStr "Bob")).
  - apply aggregate_two_days.
  - reflexivity.
Defined.

Lemma days_are_listed_once_in_arrival_order_witness :
  NoDup (keys stats_of_two_days)
  ∧ ∃ k1 k2 k3,
      keys stats_of_two_days = k1 ++ "2024-01-01" :: k2 ++ "2024-01-02" :: k3.
Proof.
  destruct (days_are_listed_once_in_arrival_order github_day
              commits_of_two_days stats_of_two_days aggregate_two_days)
    as [Hnd Horder].
  split; [done|].
  apply (Horder [] (commit_record "2024-01-01T10:00:00Z" (Some (JStr "Alice")))
                [commit_record "2024-01-02T09:30:00Z" None;
                 commit_record "2024-01-01T23:59:59Z" (Some (JStr "Bob"))]).
  - reflexivity.
  - reflexivity.
  - by repeat constructor.
  - by repeat constructor.
Defined.

Local Abbreviation upsert_at_example :=
  (upsert_repo_activity no_fault DataError).
Local Abbreviation sync_of_three :=
  (update_activity_in_db no_fault DataError github_day ymd_date three_commits).

Lemma activity_upsert_writes_the_day_witness :
  ∃ st',
    upsert_at_example "a" "x" (Date 2024 1 1) 3 [KStr "Alice"]
                   activity_of_two_repos
    = (Ok (), st')
    ∧ day_rows "a" "x" (Date 2024 1 1) st'
      = replicate
          (length (day_rows "a" "x" (Date 2024 1 1) activity_of_two_repos)
           `max` 1)
          (ActivityRow "a" "x" (Date 2024 1 1) 3 [Some "Alice"])
    ∧ other_days "a" "x" (Date 2024 1 1) st'
      = other_days "a" "x" (Date 2024 1 1) activity_of_two_repos
    ∧ top100 st' = top100 activity_of_two_repos.
Proof.
  apply (activity_upsert_writes_the_day no_fault DataError "a" "x"
           (Date 2024 1 1) 3 [KStr "Alice"] [Some "Alice"]
           activity_of_two_repos);
    reflexivity.
Defined.

Lemma activity_upsert_is_idempotent_witness :
  ∃ st1 st2,
    upsert_at_example "a" "x" (Date 2024 1 3) 5 [KStr "Dan"]
                   activity_of_two_repos
    = (Ok (), st1)
    ∧ upsert_at_example "a" "x" (Date 2024 1 3) 5 [KStr "Dan"] st1
      = (Ok (), st2)
    ∧ activity st2 = activity st1
    ∧ top100 st2 = top100 st1
    ∧ log st2
      = log st1 ++ [UpdateActivity "a" "x" (Date 2024 1 3) 5 [Some "Dan"]].
Proof.
  apply (activity_upsert_is_idempotent no_fault DataError "a" "x"
           (Date 2024 1 3) 5 [KStr "Dan"] [Some "Dan"] activity_of_two_repos);
    [reflexivity|done].
Defined.

Lemma activity_sync_touches_its_repository_only_witness :
  top100 synced_two_repos = top100 activity_of_two_repos
  ∧ other_repos "a" "x" synced_two_repos
    = other_repos "a" "x" activity_of_two_repos
  ∧ activity_grows activity_of_two_repos synced_two_repos.
Proof.
  apply (activity_sync_touches_its_repository_only no_fault DataError
           github_day ymd_date three_commits "a" "x" 5 since_str until_str
           activity_of_two_repos (Ok ()) synced_two_repos).
  vm_compute. reflexivity.
Defined.

Lemma top100_upsert_touches_its_own_rows_only_witness :
  activity table_ac_upserted = activity table_ac
  ∧ map row_identity (top100 table_ac)
      `prefix_of` map row_identity (top100 table_ac_upserted)
  ∧ filter (λ row, ¬ named_as (rd_repo moved_record) row)
           (top100 table_ac_upserted)
    = filter (λ row, ¬ named_as (rd_repo moved_record) row) (top100 table_ac).
Proof.
  apply (top100_upsert_touches_its_own_rows_only no_fault DataError
           moved_record table_ac (Ok ()) table_ac_upserted).
  vm_compute. reflexivity.
Defined.

Lemma ranking_sync_completes_unless_rejected_witness :
  ∃ st',
    update_top100_in_db no_fault DataError ranking_ab table_ac = (Ok (), st').
Proof.
  apply (ranking_sync_completes_unless_rejected no_fault DataError
           (λ n, eq_refl) ranking_ab repos_ab table_ac).
  - reflexivity.
  - by repeat constructor.
Defined.

Lemma answer_without_items_empties_the_table_witness :
  refresh_data no_fault DataError github_day ymd_date rate_limited
               three_commits 5 since_str until_str table_ac
  = Some (Ok (),
          Store [] (activity table_ac)
                (log table_ac ++ [DeleteTop100NotIn []; SelectTop100])).
Proof.
  apply (answer_without_items_empties_the_table no_fault DataError github_day
           ymd_date rate_limited three_commits 5 since_str until_str
           [("message", JStr "API rate limit exceeded")] table_ac);
    reflexivity.
Defined.

Lemma activity_query_answers_the_window_in_date_order_witness :
  ∃ data,
    fetch_repo_activity no_fault "a" "x" (Date 2024 1 1) (Date 2024 1 31)
                        activity_of_two_repos
    = (Ok data,
       sent (SelectActivity "a" "x" (Date 2024 1 1) (Date 2024 1 31))
            activity_of_two_repos)
    ∧ StronglySorted by_date data
    ∧ Forall (λ x, date_le (Date 2024 1 1) (ra_date x)
                   ∧ date_le (ra_date x) (Date 2024 1 31)) data
    ∧ map record_content data
      ≡ₚ map row_content
             (filter (λ r, in_window "a" "x" (Date 2024 1 1) (Date 2024 1 31)
                                     r)
                     (activity activity_of_two_repos))
    ∧ (date_gt (Date 2024 1 1) (Date 2024 1 31) = false → data ≠ [] →
       get_repo_activity no_fault "a" "x" (Date 2024 1 1) (Date 2024 1 31)
                         activity_of_two_repos
       = (Ok data,
          sent (SelectActivity "a" "x" (Date 2024 1 1) (Date 2024 1 31))
               activity_of_two_repos)).
Proof.
  apply (activity_query_answers_the_window_in_date_order no_fault "a" "x"
           (Date 2024 1 1) (Date 2024 1 31) activity_of_two_repos).
  - reflexivity.
  - by repeat constructor.
Defined.

Lemma written_day_is_read_back_witness :
  ∃ st',
    upsert_at_example "a" "x" (Date 2024 1 3) 5 [KStr "Dan"]
                   activity_of_two_repos
    = (Ok (), st')
    ∧ get_repo_activity no_fault "a" "x" (Date 2024 1 3) (Date 2024 1 3) st'
      = (Ok (replicate
               (length (day_rows "a" "x" (Date 2024 1 3)
                                 activity_of_two_repos) `max` 1)
               (mkRepoActivity (Date 2024 1 3) 5 ["Dan"])),
         sent (SelectActivity "a" "x" (Date 2024 1 3) (Date 2024 1 3)) st').
Proof.
  apply (written_day_is_read_back no_fault DataError (λ n, eq_refl) "a" "x"
           (Date 2024 1 3) 5 [KStr "Dan"] ["Dan"] activity_of_two_repos).
  reflexivity.
Defined.

Lemma day_with_a_null_author_cannot_be_read_witness :
  ∃ st' detail,
    upsert_at_example "a" "x" (Date 2024 1 3) 2 [KNone; KStr "Dan"]
                   activity_of_two_repos
    = (Ok (), st')
    ∧ get_repo_activity no_fault "a" "x" (Date 2024 1 1) (Date 2024 1 31) st'
      = (Raise (HTTPException 500 detail),
         sent (SelectActivity "a" "x" (Date 2024 1 1) (Date 2024 1 31)) st').
Proof.
  apply (day_with_a_null_author_cannot_be_read no_fault DataError
           (λ n, eq_refl) "a" "x" (Date 2024 1 3) 2 [KNone; KStr "Dan"]
           [None; Some "Dan"] (Date 2024 1 1) (Date 2024 1 31)
           activity_of_two_repos).
  - reflexivity.
  - by left.
  - reflexivity.
  - reflexivity.
Defined.

Lemma sync_writes_every_day_of_the_aggregate_witness :
  ∃ st',
    sync_of_three 5 "a" "x" since_str until_str activity_of_two_repos
    = Some (Ok (), st')
    ∧ ∀ day bucket d names,
        (day, bucket) ∈ stats_of_two_days →
        ymd_date day = Some d →
        mapM key_as_text (elements (authors bucket)) = Some names →
        day_rows "a" "x" d st'
        = replicate (length (day_rows "a" "x" d activity_of_two_repos) `max` 1)
                    (ActivityRow "a" "x" d (commits bucket) names).
Proof.
  apply (sync_writes_every_day_of_the_aggregate no_fault DataError github_day
           ymd_date three_commits "a" "x" (λ n, eq_refl) 5 since_str until_str
           (Fetched commits_of_two_days [1] []) stats_of_two_days
           activity_of_two_repos).
  - reflexivity.
  - apply aggregate_two_days.
  - repeat constructor; eexists; vm_compute; reflexivity.
  - intros day1 day2 d H1 H2.
    apply elem_of_cons in H1 as [->|H1]; [|apply elem_of_cons in H1 as [->|H1]];
      [| |by apply elem_of_nil in H1];
      (apply elem_of_cons in H2 as [->|H2];
       [|apply elem_of_cons in H2 as [->|H2]];
       [| |by apply elem_of_nil in H2]);
      vm_compute; congruence.
Defined.

Lemma top_repos_are_the_first_hundred_in_the_order_asked_for_witness :
  ∃ repos rest,
    get_top_repos (λ q, run_top_query q table_abc) WATCHERS ASC = Ok repos
    ∧ length repos = (length table_abc `min` 100)%nat
    ∧ StronglySorted (ranks_before WATCHERS ASC) (repos ++ rest)
    ∧ repos ++ rest ≡ₚ map TopRepo_of_row table_abc.
Proof.
  apply (top_repos_are_the_first_hundred_in_the_order_asked_for
           (λ q, run_top_query q table_abc) table_abc WATCHERS ASC).
  reflexivity.
Defined.

Lemma ranks_follow_the_order_of_the_answer_witness :
  ∃ repos,
    fetch_top100_repos ranking_ab = Ok repos
    ∧ length repos = 2%nat
    ∧ ∀ (i : nat) repo r,
        [item "a/x" "a" 90 JNull; item "b/y" "b" 80 (JStr "C")] !! i
        = Some repo →
        repos !! i = Some r →
        rd_position_cur r = Z.of_nat i + 1
        ∧ rd_position_prev r = None
        ∧ getitem repo "full_name" = Ok (rd_repo r)
        ∧ owner_login repo = Ok (rd_owner r)
        ∧ getitem repo "stargazers_count" = Ok (rd_stars r)
        ∧ getitem repo "watchers_count" = Ok (rd_watchers r)
        ∧ getitem repo "forks_count" = Ok (rd_forks r)
        ∧ getitem repo "open_issues_count" = Ok (rd_open_issues r)
        ∧ getitem repo "language" = Ok (rd_language r).
Proof.
  apply (ranks_follow_the_order_of_the_answer
           [("total_count", JNum 1000);
            ("items", JArr [item "a/x" "a" 90 JNull;
                            item "b/y" "b" 80 (JStr "C")])]
           [item "a/x" "a" 90 JNull; item "b/y" "b" 80 (JStr "C")]).
  - reflexivity.
  - by repeat constructor.
Defined.

(** ** The scheduled run *)

Section ScheduledRunFacts.
Variables (fault : nat → bool) (encode_error : exn).
Variable isoformat_day : string → option string.
Variable strptime_day : string → option date.
Variable search_repos : res json.
Variable list_commits : string → string → string → string → Z → res json.
Variable create_pool : res ().

Local Abbreviation refresh :=
  (refresh_data fault encode_error isoformat_day strptime_day search_repos
                list_commits).
Local Abbreviation run :=
  (handler fault encode_error isoformat_day strptime_day search_repos
           list_commits create_pool).

(** X26. [handler] answers only after [refresh_data] has returned normally,
    and the pool is then closed. When [handler] raises, the pool has not
    been closed: either no pool could be created, and nothing was sent to
    the store, or [refresh_data] raised, and the pool that was opened for
    it is left open. *)
Theorem handler_answers_only_after_a_complete_refresh fuel since until p :
  (∀ response p',
     run fuel since until p = Some (Ok response, p') →
     response = refreshed
     ∧ db_pool p' = Some PoolClosed
     ∧ refresh fuel since until (server p) = Some (Ok (), server p'))
  ∧ (∀ e p',
       run fuel since until p = Some (Raise e, p') →
       (create_pool = Raise e ∧ p' = p)
       ∨ (db_pool p' = Some PoolOpen
          ∧ refresh fuel since until (server p)
            = Some (Raise e, server p'))).
Proof.
  unfold handler, main, connect.
  destruct create_pool as [[]|e0]; cbn [server db_pool].
  - destruct (refresh fuel since until (server p)) as [[[[]|e1] st1]|];
      cbn [disconnect db_pool server]; split; try done.
    + by intros response p' [= <- <-].
    + intros e p' [= <- <-]. by right.
  - split; [done|]. intros e p' [= <- <-]. by left.
Qed.
End ScheduledRunFacts.

(** ** A reconciliation that is run again *)

Section Reconciled.
Variables (fault : nat → bool) (encode_error : exn).
Variable search_repos : res json.

Local Abbreviation reconcile :=
  (update_top100_in_db fault encode_error search_repos).

(** What a reconciliation leaves in a row. *)
Lemma reconciled_row repos st st' row :
  fetch_top100_repos search_repos = Ok repos →
  NoDup (map rd_repo repos) →
  reconcile st = (Ok (), st') →
  row ∈ top100 st' →
  (∃ r, r ∈ repos ∧ row_of r row)
  ∧ (t_repo row ∈ names_of (top100 st) →
     ∃ old, old ∈ top100 st ∧ t_repo old = t_repo row
            ∧ t_position_prev row = Some (t_position_cur old)).
Proof.
  intros Hfetch Hnd H Hrow. unfold update_top100_in_db in H.
  apply bind_ok in H as (repos' & st1 & [Hf ->]%lift_ok & H).
  rewrite Hfetch in Hf. injection Hf as <-.
  apply reconcile_top100_ok in H as (names & Hs & Hn & H).
  set (kept := filter (λ r, ¬ sql_not_in (t_repo r) names) (top100 st)) in *.
  pose proof (upserts_names _ _ _ _ _ H) as (Hstr & Hnames & _).
  assert (ranked (t_repo row) repos) as Hranked.
  { assert (t_repo row ∈ names_of (top100 st')) as Hin.
    { unfold names_of. apply list_elem_of_fmap. eauto. }
    apply Hnames in Hin as [(row0 & -> & Hrow0)%list_elem_of_fmap|?];
      [|done].
    by eapply kept_ranked. }
  apply (upserts_settled _ _ kept _ []) in H; simpl; [|done| |done].
  2:{ apply Forall_forall. intros row0 Hrow0. left. split; [done|].
      unfold ranked. simpl. by intros ?%elem_of_nil. }
  simpl in H. rewrite Forall_forall in H.
  destruct (H row Hrow)
    as [[_ Hno]|[(old & r & Hold & Hr & Heq & Hp & Hof)
                |(r & Hr & Hfree & Hp & Hof)]]; [done| |].
  - apply list_elem_of_filter in Hold as [_ Hold]. split; eauto.
  - split; [eauto|].
    intros (old & Heq & Hold)%list_elem_of_fmap. exfalso. apply Hfree.
    rewrite Heq. unfold names_of. apply list_elem_of_fmap. exists old.
    split; [done|]. eapply ranked_kept; [done..|]. by rewrite <-Heq.
Qed.

Lemma reconciled_names repos st st' name :
  fetch_top100_repos search_repos = Ok repos →
  reconcile st = (Ok (), st') →
  ranked name repos → name ∈ names_of (top100 st').
Proof.
  intros Hfetch H Hname. unfold update_top100_in_db in H.
  apply bind_ok in H as (repos' & st1 & [Hf ->]%lift_ok & H).
  rewrite Hfetch in Hf. injection Hf as <-.
  apply reconcile_top100_ok in H as (names & Hs & Hn & H).
  apply upserts_names in H as (_ & Hnames & _). apply Hnames. by right.
Qed.

Lemma NoDup_fmap_eq {A B} (f : A → B) l x y :
  NoDup (map f l) → x ∈ l → y ∈ l → f x = f y → x = y.
Proof.
  induction l as [|z l IH]; [by intros _ ?%elem_of_nil|].
  cbn [map]. intros [Hz Hnd]%NoDup_cons.
  intros [->|Hx]%elem_of_cons [->|Hy]%elem_of_cons Heq; [done| | |by apply IH].
  - exfalso. apply Hz. rewrite Heq. apply list_elem_of_fmap. eauto.
  - exfalso. apply Hz. rewrite <-Heq. apply list_elem_of_fmap. eauto.
Qed.

(** X27. The reconciliation of [top100] is not idempotent: when it has
    completed twice for the same ranking, one that lists no full name
    twice, the previous rank of every row is its current rank; what the
    first run had kept of the ranks before it is overwritten. *)
Theorem repeated_sync_overwrites_the_previous_rank repos st st1 st2 :
  fetch_top100_repos search_repos = Ok repos →
  NoDup (map rd_repo repos) →
  reconcile st = (Ok (), st1) →
  reconcile st1 = (Ok (), st2) →
  ∀ row, row ∈ top100 st2 →
         t_position_prev row = Some (t_position_cur row).
Proof.
  intros Hfetch Hnd H1 H2 row Hrow.
  destruct (reconciled_row repos st1 st2 row Hfetch Hnd H2 Hrow)
    as [(r & Hr & Hof) Hprev].
  destruct Hprev as (old & Hold & Hname & ->).
  { apply (reconciled_names repos st st1); [done..|].
    unfold ranked. apply list_elem_of_fmap. exists r.
    split; [|done]. by destruct Hof as [-> _]. }
  destruct (reconciled_row repos st st1 old Hfetch Hnd H1 Hold)
    as [(r' & Hr' & Hof') _].
  assert (r' = r) as ->.
  { apply (NoDup_fmap_eq rd_repo repos); [done..|].
    destruct Hof as [-> _], Hof' as [-> _]. by rewrite Hname. }
  destruct Hof as (_ & -> & _), Hof' as (_ & -> & _). done.
Qed.
End Reconciled.

Lemma repeated_sync_overwrites_the_previous_rank_witness :
  Forall (λ row, t_position_prev row = Some (t_position_cur row))
         (top100 table_ab_again).
Proof.
  apply Forall_forall.
  apply (repeated_sync_overwrites_the_previous_rank no_fault DataError
           ranking_ab repos_ab table_ac table_ab table_ab_again).
  - reflexivity.
  - simpl. apply NoDup_cons. split; [|apply NoDup_singleton].
    by intros [=]%list_elem_of_singleton.
  - vm_compute. reflexivity.
  - vm_compute. reflexivity.
Defined.

(** ** The statements of a refresh *)

Section RefreshLog.
Variables (fault : nat → bool) (encode_error : exn).
Variable isoformat_day : string → option string.
Variable strptime_day : string → option date.
Variable search_repos : res json.
Variable list_commits : string → string → string → string → Z → res json.

Local Abbreviation batch :=
  (refresh_activity fault encode_error isoformat_day strptime_day
                    list_commits).
Local Abbreviation refresh :=
  (refresh_data fault encode_error isoformat_day strptime_day search_repos
                list_commits).

Lemma upsert_top_100_repo_sends r :
  sends_only is_top100_write (upsert_top_100_repo fault encode_error r).
Proof.
  unfold upsert_top_100_repo. apply sends_only_except.
  do 6 (apply sends_only_encoded; intros ? _).
  apply sends_only_bind; [by apply sends_only_execute|]. intros status.
  destruct (String.eqb status "UPDATE 0"); [|apply sends_only_ret].
  apply sends_only_encoded. intros owner _.
  apply sends_only_bind; [by apply sends_only_execute|]. intros _.
  apply sends_only_ret.
Qed.

Lemma sends_only_lift_raise {A B} P e (f : A → M B) :
  sends_only P (lift (Raise e) ≫= f).
Proof. intros st r st' [= <- <-]. exists []. by rewrite app_nil_r. Qed.

Lemma update_top100_in_db_sends :
  sends_only is_top100_write
             (update_top100_in_db fault encode_error search_repos).
Proof.
  unfold update_top100_in_db, reconcile_top100.
  destruct (fetch_top100_repos search_repos) as [repos|e];
    [apply sends_only_lift_ok|apply sends_only_lift_raise].
  destruct (mapM (λ r, hash_key (rd_repo r)) repos) as [keys|e];
    [apply sends_only_lift_ok|apply sends_only_lift_raise].
  apply sends_only_encoded. intros names _.
  apply sends_only_bind; [by apply sends_only_execute|]. intros _.
  apply sends_only_for_each, Forall_forall. intros r _.
  apply upsert_top_100_repo_sends.
Qed.

Lemma refresh_activity_sends fuel since until records : ∀ st r st',
  batch fuel since until records st = Some (r, st') →
  ∃ stmts, log st' = log st ++ stmts ∧ Forall activity_write_filled stmts.
Proof.
  induction records as [|record records IH]; intros st r st'; simpl.
  - intros [= <- <-]. exists []. by rewrite app_nil_r.
  - destruct (split_once (t_repo record)) as [[before repo_name]|].
    2:{ intros [= <- <-]. exists []. by rewrite app_nil_r. }
    destruct (update_activity_in_db _ _ _ _ _ _ _ _ _ _ st)
      as [[[[]|e] st1]|] eqn:Hsync; [| |done].
    + apply update_activity_in_db_sends in Hsync as (l1 & Hl1 & HP1).
      intros (l2 & Hl2 & HP2)%IH. exists (l1 ++ l2).
      rewrite Hl2, Hl1, <-(assoc_L (++)). split; [done|]. by apply Forall_app.
    + apply update_activity_in_db_sends in Hsync. by intros [= <- <-].
Qed.

(** X28. However [refresh_data] ends, what it has sent begins with
    statements of the reconciliation of [top100] only. When the
    reconciliation raises, [refresh_data] ends there with its exception
    and has sent nothing more. The select of the rows is sent only after
    the reconciliation has returned normally: when the server rejects it
    nothing follows, and otherwise the activity sync runs over the rows of
    [top100] as the reconciliation left them and sends writes to
    [activity] only. So no activity is written before the ranking is
    reconciled, none after a reconciliation that failed, and [top100] is
    not written after it was read. *)
Theorem refresh_reconciles_the_ranking_before_it_writes_activity fuel since
    until st r st' :
  refresh fuel since until st = Some (r, st') →
  ∃ ranking rest,
    log st' = log st ++ ranking ++ rest
    ∧ Forall is_top100_write ranking
    ∧ ((rest = []
        ∧ ∃ e, update_top100_in_db fault encode_error search_repos st
               = (Raise e, st')
               ∧ r = Raise e)
       ∨ (∃ st1 writes,
            update_top100_in_db fault encode_error search_repos st
            = (Ok (), st1)
            ∧ log st1 = log st ++ ranking
            ∧ rest = SelectTop100 :: writes
            ∧ Forall activity_write_filled writes
            ∧ if fault (length (log st1))
              then r = Raise (PostgresError "statement failed")
                   ∧ writes = [] ∧ st' = sent SelectTop100 st1
              else batch fuel since until (top100 st1)
                         (sent SelectTop100 st1)
                   = Some (r, st'))).
Proof.
  unfold refresh_data, mbind, M_bind.
  destruct (update_top100_in_db fault encode_error search_repos st)
    as [[[]|e] st1] eqn:Htop;
    pose proof (update_top100_in_db_sends st _ _ Htop)
      as (ranking & Hlog & Hranking).
  - unfold send. destruct (fault (length (log st1))) eqn:Hfault.
    + intros [= <- <-]. exists ranking, [SelectTop100].
      split_and!; [by cbn [sent log]; rewrite Hlog, <-(assoc_L (++))|done|].
      right. exists st1, []. by rewrite Hfault.
    + cbn [run_stmt fst snd sent top100]. intros Hbatch.
      pose proof (refresh_activity_sends _ _ _ _ _ _ _ Hbatch)
        as (writes & Hlog' & Hwrites).
      exists ranking, (SelectTop100 :: writes). split_and!; [|done|].
      * rewrite Hlog'. cbn [sent log]. rewrite Hlog.
        by rewrite <-!(assoc_L (++)).
      * right. exists st1, writes. by rewrite Hfault.
  - intros [= <- <-]. exists ranking, []. rewrite app_nil_r.
    split_and!; [done..|]. left. eauto.
Qed.
End RefreshLog.

Lemma refresh_reconciles_the_ranking_before_it_writes_activity_witness :
  ∃ ranking rest,
    log table_a_refreshed = log table_a ++ ranking ++ rest
    ∧ Forall is_top100_write ranking
    ∧ ((rest = []
        ∧ ∃ e, update_top100_in_db no_fault DataError ranking_ab table_a
               = (Raise e, table_a_refreshed)
               ∧ Ok () = Raise e)
       ∨ (∃ st1 writes,
            update_top100_in_db no_fault DataError ranking_ab table_a
            = (Ok (), st1)
            ∧ log st1 = log table_a ++ ranking
            ∧ rest = SelectTop100 :: writes
            ∧ Forall activity_write_filled writes
            ∧ if no_fault (length (log st1))
              then Ok () = Raise (PostgresError "statement failed")
                   ∧ writes = [] ∧ table_a_refreshed = sent SelectTop100 st1
              else refresh_activity no_fault DataError github_day ymd_date
                     three_commits 5 since_str until_str (top100 st1)
                     (sent SelectTop100 st1)
                   = Some (Ok (), table_a_refreshed))).
Proof.
  apply (refresh_reconciles_the_ranking_before_it_writes_activity no_fault
           DataError github_day ymd_date ranking_ab three_commits 5 since_str
           until_str table_a (Ok ()) table_a_refreshed).
  vm_compute. reflexivity.
Defined.

(** * The claims on failures, with what the code does by design *)

(** ** A store failure during the activity sync *)

Section ActivityFailure.
Variables (fault : nat → bool) (encode_error : exn).
Variable isoformat_day : string → option string.
Variable strptime_day : string → option date.
Variable list_commits : string → string → string → string → Z → res json.

Local Abbreviation upsert_activity :=
  (upsert_repo_activity fault encode_error).
Local Abbreviation upsert_one := (upsert_day fault encode_error strptime_day).
Local Abbreviation sync :=
  (update_activity_in_db fault encode_error isoformat_day strptime_day
                         list_commits).
Local Abbreviation batch :=
  (refresh_activity fault encode_error isoformat_day strptime_day
                    list_commits).





End ActivityFailure.


(** ** The answers the ranking fetch accepts and refuses *)



